(** * FGP-TV denoising kernel (Core/regularizers_CPU/FGP_TV_core.c)

    A shallow embedding of [TV_FGP_CPU] and of its 2D/3D helper routines,
    followed by the properties of the kernel's specification.

    Modelling conventions.
    - A C [float] is an IEEE-754 binary32 value and a C [double] a binary64
      value, both represented by [spec_float] and computed with the
      operations of [SpecFloat] at precision 24 / 53 (round to nearest,
      ties to even; expressions are evaluated in the type C gives them,
      i.e. FLT_EVAL_METHOD = 0, no contraction).
    - [sqrt], [pow] and [fabs] are the [double] functions of <math.h>:
      their [float] arguments are promoted and their results rounded back
      on assignment to a [float] variable.  [pow(x,2)] is the product
      [x*x] in binary64 (exact for a promoted binary32 argument).
    - A C [int] is a [Z]; signed overflow (undefined behaviour in C) is not
      modelled.
    - Memory is a map from blocks (one per allocated buffer) and element
      indices to floats.  A pointer is a block; two pointers alias exactly
      when they are the same block.  [malloc] hands out the next unused
      block and does NOT initialise it: its cells hold whatever the initial
      memory holds there, which plays the role of the indeterminate
      contents of freshly allocated storage. *)

From Stdlib Require Import Reals Lra.
From Stdlib Require Import ZArith Bool List Lia QArith SpecFloat.
Import ListNotations.
Local Open Scope Z_scope.

(** ** Floating-point layer *)

Definition float32 := spec_float.
Definition float64 := spec_float.

Module F32.
Definition prec : Z := 24.
Definition emax : Z := 128.
Definition add : float32 -> float32 -> float32 := SFadd prec emax.
Definition sub : float32 -> float32 -> float32 := SFsub prec emax.
Definition mul : float32 -> float32 -> float32 := SFmul prec emax.
Definition div : float32 -> float32 -> float32 := SFdiv prec emax.
Definition ltb : float32 -> float32 -> bool := SFltb.
Definition leb : float32 -> float32 -> bool := SFleb.
(** [x > y] in C is [y < x]. *)
Definition gtb (x y : float32) : bool := SFltb y x.
Definition valid : float32 -> bool := valid_binary prec emax.
(** The float nearest to the integer [n] (exact for |n| < 2^24). *)
Definition of_Z (n : Z) : float32 := binary_normalize prec emax n 0 false.
Definition zero : float32 := S754_zero false.          (* 0.0f *)
Definition one  : float32 := S754_finite false 8388608 (-23).   (* 1.0f *)
Definition four : float32 := S754_finite false 8388608 (-21).   (* 4.0f *)
Definition eight : float32 := S754_finite false 8388608 (-20).  (* 8.0f *)
Definition half : float32 := S754_finite false 8388608 (-24).   (* 0.5f *)
End F32.

Module F64.
Definition prec : Z := 53.
Definition emax : Z := 1024.
Definition add : float64 -> float64 -> float64 := SFadd prec emax.
Definition mul : float64 -> float64 -> float64 := SFmul prec emax.
Definition div : float64 -> float64 -> float64 := SFdiv prec emax.
Definition sqrt : float64 -> float64 := SFsqrt prec emax.
(** [pow(x, 2)]. *)
Definition pow2 (x : float64) : float64 := mul x x.
End F64.

(** Conversion of a value to the format [(prec, emax)]: promotion
    [float -> double] (always exact) and the rounding [double -> float]
    performed when a [double] result is stored in a [float] variable. *)
Definition convert (prec emax : Z) (x : spec_float) : spec_float :=
  match x with
  | S754_finite s m e => binary_normalize prec emax (cond_Zopp s (Zpos m)) e s
  | _ => x
  end.

Definition f2d : float32 -> float64 := convert F64.prec F64.emax.
Definition d2f : float64 -> float32 := convert F32.prec F32.emax.

Declare Scope f32_scope.
Delimit Scope f32_scope with f32.
Infix "+" := F32.add : f32_scope.
Infix "-" := F32.sub : f32_scope.
Infix "*" := F32.mul : f32_scope.
Infix "/" := F32.div : f32_scope.
Infix "<?" := F32.ltb : f32_scope.
Infix ">?" := F32.gtb : f32_scope.

Declare Scope f64_scope.
Delimit Scope f64_scope with f64.
Infix "+" := F64.add : f64_scope.
Infix "*" := F64.mul : f64_scope.
Infix "/" := F64.div : f64_scope.

(** ** Memory and the state monad of the kernel *)

Definition block := positive.
Bind Scope positive_scope with block.
Definition mem := block -> Z -> float32.

(** [stdout] records the iteration index reported by each diagnostic
    [printf]. *)
Record world := mkWorld {
  heap : mem;
  nextblock : block;
  stdout : list Z
}.

Definition M (A : Type) : Type := world -> A * world.

Definition ret {A} (a : A) : M A := fun w => (a, w).
Definition bind {A B} (c : M A) (k : A -> M B) : M B :=
  fun w => let (a, w') := c w in k a w'.

Declare Scope monad_scope.
Delimit Scope monad_scope with monad.
Notation "x <- c ;; k" := (bind c (fun x => k))
  (at level 61, c at next level, right associativity) : monad_scope.
Notation "c ;; k" := (bind c (fun _ => k))
  (at level 61, right associativity) : monad_scope.
Local Open Scope monad_scope.

Definition upd (m : mem) (p : block) (i : Z) (v : float32) : mem :=
  fun q k => if (Pos.eqb q p && Z.eqb k i)%bool then v else m q k.

(** [p[i]] as an rvalue and [p[i] = v]. *)
Definition load (p : block) (i : Z) : M float32 :=
  fun w => (heap w p i, w).
Definition store (p : block) (i : Z) (v : float32) : M unit :=
  fun w => (tt, mkWorld (upd (heap w) p i v) (nextblock w) (stdout w)).

(** [malloc]: a fresh block, contents left as they are. *)
Definition malloc (size : Z) : M block :=
  fun w => (nextblock w, mkWorld (heap w) (Pos.succ (nextblock w)) (stdout w)).
Definition free (p : block) : M unit := ret tt.

Definition printf_iter (ll : Z) : M unit :=
  fun w => (tt, mkWorld (heap w) (nextblock w) (stdout w ++ [ll])).

(** [for (i = lo; i < hi; i++) acc = body i acc]: the loop variable runs
    upward from [lo]; [n] is the number of iterations left. *)
Fixpoint for_from {A} (n : nat) (i : Z) (body : Z -> A -> M A) (acc : A) : M A :=
  match n with
  | O => ret acc
  | S n' => acc' <- body i acc ;; for_from n' (i + 1) body acc'
  end.

Definition for_fold {A} (lo hi : Z) (body : Z -> A -> M A) (acc : A) : M A :=
  for_from (Z.to_nat (hi - lo)) lo body acc.

Definition for_ (lo hi : Z) (body : Z -> M unit) : M unit :=
  for_fold lo hi (fun i _ => body i) tt.

(** ** The 2D operators *)

(** [Obj_func2D]: [D = A - lambda * div(R1, R2)] (backward differences,
    zero at the lower edges). *)
Definition Obj_func2D (A D R1 R2 : block) (lambda : float32) (dimX dimY : Z)
  : M float32 :=
  for_ 0 dimX (fun i =>
    for_ 0 dimY (fun j =>
      let index := j * dimX + i in
      val1 <- (if i =? 0 then ret F32.zero else load R1 (j * dimX + (i - 1))) ;;
      val2 <- (if j =? 0 then ret F32.zero else load R2 ((j - 1) * dimX + i)) ;;
      a <- load A index ;;
      r1 <- load R1 index ;;
      r2 <- load R2 index ;;
      store D index (a - lambda * (r1 + r2 - val1 - val2))%f32)) ;;
  load D 0.

(** [Grad_func2D]: [P = R + (1/(8 lambda)) * grad(D)] (forward differences,
    zero at the upper edges). *)
Definition Grad_func2D (P1 P2 D R1 R2 : block) (lambda : float32) (dimX dimY : Z)
  : M float32 :=
  let multip := (F32.one / (F32.eight * lambda))%f32 in
  for_ 0 dimX (fun i =>
    for_ 0 dimY (fun j =>
      let index := j * dimX + i in
      d <- load D index ;;
      val1 <- (if i =? dimX - 1 then ret F32.zero
               else d1 <- load D (j * dimX + (i + 1)) ;; ret (d - d1)%f32) ;;
      val2 <- (if j =? dimY - 1 then ret F32.zero
               else d2 <- load D ((j + 1) * dimX + i) ;; ret (d - d2)%f32) ;;
      r1 <- load R1 index ;;
      store P1 index (r1 + multip * val1)%f32 ;;
      r2 <- load R2 index ;;
      store P2 index (r2 + multip * val2)%f32)) ;;
  ret F32.one.

(** The value the isotropic branch compares with [1.0f]:
    [denom = pow(p1,2) + pow(p2,2)], computed in [double], stored in a
    [float]. *)
Definition denom2D (p1 p2 : float32) : float32 :=
  d2f (F64.pow2 (f2d p1) + F64.pow2 (f2d p2))%f64.

(** [sq_denom = 1.0f/sqrt(denom)]. *)
Definition sq_denom_of (denom : float32) : float32 :=
  d2f (f2d F32.one / F64.sqrt (f2d denom))%f64.

(** [fabs] applied to a [float] and stored in a [float]: promotion is
    exact, [fabs] clears the sign, and the result is a binary32 value
    again. *)
Definition fabsf (x : float32) : float32 := SFabs x.

(** [if (val < 1.0f) val = 1.0f]. *)
Definition at_least_one (val : float32) : float32 :=
  if (val <? F32.one)%f32 then F32.one else val.

(** [Proj_func2D]: projection of the duals, in place. *)
Definition Proj_func2D (P1 P2 : block) (methTV : Z) (dimX dimY : Z) : M float32 :=
  (if methTV =? 0 then
     (* isotropic TV *)
     for_ 0 dimX (fun i =>
       for_ 0 dimY (fun j =>
         let index := j * dimX + i in
         p1 <- load P1 index ;;
         p2 <- load P2 index ;;
         let denom := denom2D p1 p2 in
         if (denom >? F32.one)%f32 then
           let sq_denom := sq_denom_of denom in
           p1 <- load P1 index ;;
           store P1 index (p1 * sq_denom)%f32 ;;
           p2 <- load P2 index ;;
           store P2 index (p2 * sq_denom)%f32
         else ret tt))
   else
     (* anisotropic TV *)
     for_ 0 dimX (fun i =>
       for_ 0 dimY (fun j =>
         let index := j * dimX + i in
         p1 <- load P1 index ;;
         let val1 := fabsf p1 in
         p2 <- load P2 index ;;
         let val2 := fabsf p2 in
         let val1 := at_least_one val1 in
         let val2 := at_least_one val2 in
         p1 <- load P1 index ;;
         store P1 index (p1 / val1)%f32 ;;
         p2 <- load P2 index ;;
         store P2 index (p2 / val2)%f32))) ;;
  ret F32.one.

(** [Rupd_func2D]: [R = P + ((tk-1)/tkp1) * (P - P_old)]. *)
Definition Rupd_func2D (P1 P1_old P2 P2_old R1 R2 : block) (tkp1 tk : float32)
    (dimX dimY : Z) : M float32 :=
  let multip := ((tk - F32.one) / tkp1)%f32 in
  for_ 0 dimX (fun i =>
    for_ 0 dimY (fun j =>
      let index := j * dimX + i in
      p1 <- load P1 index ;;
      p1o <- load P1_old index ;;
      store R1 index (p1 + multip * (p1 - p1o))%f32 ;;
      p2 <- load P2 index ;;
      p2o <- load P2_old index ;;
      store R2 index (p2 + multip * (p2 - p2o))%f32)) ;;
  ret F32.one.

(** ** The 3D operators *)

Definition Obj_func3D (A D R1 R2 R3 : block) (lambda : float32)
    (dimX dimY dimZ : Z) : M float32 :=
  for_ 0 dimX (fun i =>
    for_ 0 dimY (fun j =>
      for_ 0 dimZ (fun k =>
        let index := (dimX * dimY) * k + j * dimX + i in
        val1 <- (if i =? 0 then ret F32.zero
                 else load R1 ((dimX * dimY) * k + j * dimX + (i - 1))) ;;
        val2 <- (if j =? 0 then ret F32.zero
                 else load R2 ((dimX * dimY) * k + (j - 1) * dimX + i)) ;;
        val3 <- (if k =? 0 then ret F32.zero
                 else load R3 ((dimX * dimY) * (k - 1) + j * dimX + i)) ;;
        a <- load A index ;;
        r1 <- load R1 index ;;
        r2 <- load R2 index ;;
        r3 <- load R3 index ;;
        store D index (a - lambda * (r1 + r2 + r3 - val1 - val2 - val3))%f32))) ;;
  load D 0.

Definition Grad_func3D (P1 P2 P3 D R1 R2 R3 : block) (lambda : float32)
    (dimX dimY dimZ : Z) : M float32 :=
  let multip := (F32.one / (F32.eight * lambda))%f32 in
  for_ 0 dimX (fun i =>
    for_ 0 dimY (fun j =>
      for_ 0 dimZ (fun k =>
        let index := (dimX * dimY) * k + j * dimX + i in
        d <- load D index ;;
        val1 <- (if i =? dimX - 1 then ret F32.zero
                 else d1 <- load D ((dimX * dimY) * k + j * dimX + (i + 1)) ;;
                      ret (d - d1)%f32) ;;
        val2 <- (if j =? dimY - 1 then ret F32.zero
                 else d2 <- load D ((dimX * dimY) * k + (j + 1) * dimX + i) ;;
                      ret (d - d2)%f32) ;;
        val3 <- (if k =? dimZ - 1 then ret F32.zero
                 else d3 <- load D ((dimX * dimY) * (k + 1) + j * dimX + i) ;;
                      ret (d - d3)%f32) ;;
        r1 <- load R1 index ;;
        store P1 index (r1 + multip * val1)%f32 ;;
        r2 <- load R2 index ;;
        store P2 index (r2 + multip * val2)%f32 ;;
        r3 <- load R3 index ;;
        store P3 index (r3 + multip * val3)%f32))) ;;
  ret F32.one.

(** [denom = pow(p1,2) + pow(p2,2) + pow(p3,2)]. *)
Definition denom3D (p1 p2 p3 : float32) : float32 :=
  d2f (F64.pow2 (f2d p1) + F64.pow2 (f2d p2) + F64.pow2 (f2d p3))%f64.

Definition Proj_func3D (P1 P2 P3 : block) (methTV : Z) (dimX dimY dimZ : Z)
  : M float32 :=
  (if methTV =? 0 then
     (* isotropic TV *)
     for_ 0 dimX (fun i =>
       for_ 0 dimY (fun j =>
         for_ 0 dimZ (fun k =>
           let index := (dimX * dimY) * k + j * dimX + i in
           p1 <- load P1 index ;;
           p2 <- load P2 index ;;
           p3 <- load P3 index ;;
           let denom := denom3D p1 p2 p3 in
           if (denom >? F32.one)%f32 then
             let sq_denom := sq_denom_of denom in
             p1 <- load P1 index ;;
             store P1 index (p1 * sq_denom)%f32 ;;
             p2 <- load P2 index ;;
             store P2 index (p2 * sq_denom)%f32 ;;
             p3 <- load P3 index ;;
             store P3 index (p3 * sq_denom)%f32
           else ret tt)))
   else
     (* anisotropic TV *)
     for_ 0 dimX (fun i =>
       for_ 0 dimY (fun j =>
         for_ 0 dimZ (fun k =>
           let index := (dimX * dimY) * k + j * dimX + i in
           p1 <- load P1 index ;;
           let val1 := fabsf p1 in
           p2 <- load P2 index ;;
           let val2 := fabsf p2 in
           p3 <- load P3 index ;;
           let val3 := fabsf p3 in
           let val1 := at_least_one val1 in
           let val2 := at_least_one val2 in
           let val3 := at_least_one val3 in
           p1 <- load P1 index ;;
           store P1 index (p1 / val1)%f32 ;;
           p2 <- load P2 index ;;
           store P2 index (p2 / val2)%f32 ;;
           p3 <- load P3 index ;;
           store P3 index (p3 / val3)%f32)))) ;;
  ret F32.one.

Definition Rupd_func3D (P1 P1_old P2 P2_old P3 P3_old R1 R2 R3 : block)
    (tkp1 tk : float32) (dimX dimY dimZ : Z) : M float32 :=
  let multip := ((tk - F32.one) / tkp1)%f32 in
  for_ 0 dimX (fun i =>
    for_ 0 dimY (fun j =>
      for_ 0 dimZ (fun k =>
        let index := (dimX * dimY) * k + j * dimX + i in
        p1 <- load P1 index ;;
        p1o <- load P1_old index ;;
        store R1 index (p1 + multip * (p1 - p1o))%f32 ;;
        p2 <- load P2 index ;;
        p2o <- load P2_old index ;;
        store R2 index (p2 + multip * (p2 - p2o))%f32 ;;
        p3 <- load P3 index ;;
        p3o <- load P3_old index ;;
        store R3 index (p3 + multip * (p3 - p3o))%f32))) ;;
  ret F32.one.

(** Modelled from the spec: [copyIm], the helper that snapshots one buffer
    into another ("Snapshot Output into Output_prev and P_d into
    P_d_prev"); its definition is not in the source file.  It copies the
    [dimX*dimY*dimZ] samples of [A] to [U], element by element. *)
Definition copyIm (A U : block) (dimX dimY dimZ : Z) : M unit :=
  for_ 0 (dimX * dimY * dimZ) (fun j => a <- load A j ;; store U j a).

(** ** The driver *)

(** The scalar locals of [TV_FGP_CPU] that live across iterations. *)
Record locals := mkLocals {
  ll : Z;
  count : Z;
  tk : float32;
  tkp1 : float32;
  re : float32;
  re1 : float32
}.

(** [re] and [re1] are declared without initialiser and assigned before
    their first use; the model starts them at [0.0f]. *)
Definition locals0 : locals :=
  mkLocals 0 0 F32.one F32.one F32.zero F32.zero.

(** [for (...; n iterations left; ...) { body }] where the body may
    [break]: it returns [true] when it left the loop through [break]. *)
Fixpoint for_break {S} (n : nat) (body : S -> M (bool * S)) (s : S) : M S :=
  match n with
  | O => ret s
  | S n' =>
      r <- body s ;;
      if fst r then ret (snd r) else for_break n' body (snd r)
  end.

(** [if (nonneg == 1) for (j...) if (Output[j] < 0.0f) Output[j] = 0.0f;] *)
Definition clamp (Output : block) (nonneg : Z) (total : Z) : M unit :=
  if nonneg =? 1 then
    for_ 0 total (fun j =>
      o <- load Output j ;;
      if (o <? F32.zero)%f32 then store Output j F32.zero else ret tt)
  else ret tt.

(** [tkp1 = (1.0f + sqrt(1.0f + 4.0f*tk*tk))*0.5f]. *)
Definition next_tk (tk : float32) : float32 :=
  d2f ((f2d F32.one + F64.sqrt (f2d (F32.one + F32.four * tk * tk)%f32))
       * f2d F32.half)%f64.

(** The two sums of the stopping rule:
    [re += pow(Output[j] - Output_prev[j],2); re1 += pow(Output[j],2);] *)
Definition residual_sums (Output Output_prev : block) (total : Z)
  : M (float32 * float32) :=
  for_fold 0 total (fun j acc =>
      o <- load Output j ;;
      op <- load Output_prev j ;;
      let re := d2f (f2d (fst acc) + F64.pow2 (f2d (o - op)%f32))%f64 in
      o' <- load Output j ;;
      let re1 := d2f (f2d (snd acc) + F64.pow2 (f2d o'))%f64 in
      ret (re, re1))
    (F32.zero, F32.zero).

(** [re = sqrt(re)/sqrt(re1)]. *)
Definition relative_residual (re re1 : float32) : float32 :=
  d2f (F64.sqrt (f2d re) / F64.sqrt (f2d re1))%f64.

(** [if (re < epsil) count++;] *)
Definition bump (re epsil : float32) (count : Z) : Z :=
  if (re <? epsil)%f32 then count + 1 else count.

(** The buffers allocated by the 2D branch. *)
Record bufs2D := mkBufs2D {
  Output_prev : block; P1 : block; P2 : block;
  P1_prev : block; P2_prev : block; R1 : block; R2 : block
}.

Section Driver.
Variables (Input Output : block) (lambda : float32) (iter : Z)
          (epsil : float32) (methodTV nonneg printM dimX dimY dimZ : Z).

(** Lines 65-88: one iteration up to and including [count++]. *)
Definition step2D (b : bufs2D) (l : locals) : M locals :=
  Obj_func2D Input Output (R1 b) (R2 b) lambda dimX dimY ;;
  clamp Output nonneg (dimX * dimY) ;;
  Grad_func2D (P1 b) (P2 b) Output (R1 b) (R2 b) lambda dimX dimY ;;
  Proj_func2D (P1 b) (P2 b) methodTV dimX dimY ;;
  let tkp1' := next_tk (tk l) in
  Rupd_func2D (P1 b) (P1_prev b) (P2 b) (P2_prev b) (R1 b) (R2 b)
              tkp1' (tk l) dimX dimY ;;
  sums <- residual_sums Output (Output_prev b) (dimX * dimY) ;;
  let re' := relative_residual (fst sums) (snd sums) in
  ret (mkLocals (ll l) (bump re' epsil (count l)) (tk l) tkp1' re' (snd sums)).

(** Lines 92-95 and the [ll++] of the loop header. *)
Definition store2D (b : bufs2D) (l : locals) : M locals :=
  copyIm Output (Output_prev b) dimX dimY 1 ;;
  copyIm (P1 b) (P1_prev b) dimX dimY 1 ;;
  copyIm (P2 b) (P2_prev b) dimX dimY 1 ;;
  ret (mkLocals (ll l + 1) (count l) (tkp1 l) (tkp1 l) (re l) (re1 l)).

(** The loop body, with its [if (count > 4) break;]. *)
Definition body2D (b : bufs2D) (l : locals) : M (bool * locals) :=
  l1 <- step2D b l ;;
  if 4 <? count l1 then ret (true, l1)
  else l2 <- store2D b l1 ;; ret (false, l2).

(** The 2D branch of [TV_FGP_CPU] (lines 49-98); it yields the locals at
    loop exit together with the buffers it allocated. *)
Definition TV_FGP_2D : M (bufs2D * locals) :=
  let DimTotal := dimX * dimY in
  Output_prev <- malloc (DimTotal * 4) ;;
  P1 <- malloc (DimTotal * 4) ;;
  P2 <- malloc (DimTotal * 4) ;;
  P1_prev <- malloc (DimTotal * 4) ;;
  P2_prev <- malloc (DimTotal * 4) ;;
  R1 <- malloc (DimTotal * 4) ;;
  R2 <- malloc (DimTotal * 4) ;;
  let b := mkBufs2D Output_prev P1 P2 P1_prev P2_prev R1 R2 in
  l <- for_break (Z.to_nat iter) (body2D b) locals0 ;;
  (if printM =? 1 then printf_iter (ll l) else ret tt) ;;
  free Output_prev ;; free P1 ;; free P2 ;; free P1_prev ;; free P2_prev ;;
  free R1 ;; free R2 ;;
  ret (b, l).
End Driver.

(** The buffers allocated by the 3D branch. *)
Record bufs3D := mkBufs3D {
  Output_prev3 : block; P1_3 : block; P2_3 : block; P3_3 : block;
  P1_prev3 : block; P2_prev3 : block; P3_prev3 : block;
  R1_3 : block; R2_3 : block; R3_3 : block
}.

Section Driver3D.
Variables (Input Output : block) (lambda : float32) (iter : Z)
          (epsil : float32) (methodTV nonneg printM dimX dimY dimZ : Z).

(** Lines 120-144. *)
Definition step3D (b : bufs3D) (l : locals) : M locals :=
  Obj_func3D Input Output (R1_3 b) (R2_3 b) (R3_3 b) lambda dimX dimY dimZ ;;
  clamp Output nonneg (dimX * dimY * dimZ) ;;
  Grad_func3D (P1_3 b) (P2_3 b) (P3_3 b) Output (R1_3 b) (R2_3 b) (R3_3 b)
              lambda dimX dimY dimZ ;;
  Proj_func3D (P1_3 b) (P2_3 b) (P3_3 b) methodTV dimX dimY dimZ ;;
  let tkp1' := next_tk (tk l) in
  Rupd_func3D (P1_3 b) (P1_prev3 b) (P2_3 b) (P2_prev3 b) (P3_3 b) (P3_prev3 b)
              (R1_3 b) (R2_3 b) (R3_3 b) tkp1' (tk l) dimX dimY dimZ ;;
  sums <- residual_sums Output (Output_prev3 b) (dimX * dimY * dimZ) ;;
  let re' := relative_residual (fst sums) (snd sums) in
  ret (mkLocals (ll l) (bump re' epsil (count l)) (tk l) tkp1' re' (snd sums)).

(** Lines 148-152 and the [ll++] of the loop header. *)
Definition store3D (b : bufs3D) (l : locals) : M locals :=
  copyIm Output (Output_prev3 b) dimX dimY dimZ ;;
  copyIm (P1_3 b) (P1_prev3 b) dimX dimY dimZ ;;
  copyIm (P2_3 b) (P2_prev3 b) dimX dimY dimZ ;;
  copyIm (P3_3 b) (P3_prev3 b) dimX dimY dimZ ;;
  ret (mkLocals (ll l + 1) (count l) (tkp1 l) (tkp1 l) (re l) (re1 l)).

Definition body3D (b : bufs3D) (l : locals) : M (bool * locals) :=
  l1 <- step3D b l ;;
  if 4 <? count l1 then ret (true, l1)
  else l2 <- store3D b l1 ;; ret (false, l2).

(** The 3D branch of [TV_FGP_CPU] (lines 101-155). *)
Definition TV_FGP_3D : M (bufs3D * locals) :=
  let DimTotal := dimX * dimY * dimZ in
  Output_prev <- malloc (DimTotal * 4) ;;
  P1 <- malloc (DimTotal * 4) ;;
  P2 <- malloc (DimTotal * 4) ;;
  P3 <- malloc (DimTotal * 4) ;;
  P1_prev <- malloc (DimTotal * 4) ;;
  P2_prev <- malloc (DimTotal * 4) ;;
  P3_prev <- malloc (DimTotal * 4) ;;
  R1 <- malloc (DimTotal * 4) ;;
  R2 <- malloc (DimTotal * 4) ;;
  R3 <- malloc (DimTotal * 4) ;;
  let b := mkBufs3D Output_prev P1 P2 P3 P1_prev P2_prev P3_prev R1 R2 R3 in
  l <- for_break (Z.to_nat iter) (body3D b) locals0 ;;
  (if printM =? 1 then printf_iter (ll l) else ret tt) ;;
  free Output_prev ;; free P1 ;; free P2 ;; free P3 ;;
  free P1_prev ;; free P2_prev ;; free P3_prev ;;
  free R1 ;; free R2 ;; free R3 ;;
  ret (b, l).
End Driver3D.

(** [TV_FGP_CPU]: the 2D branch when [dimZ <= 1], the 3D branch otherwise;
    the value returned is [*Output]. *)
Definition TV_FGP_CPU (Input Output : block) (lambda : float32) (iter : Z)
    (epsil : float32) (methodTV nonneg printM dimX dimY dimZ : Z) : M float32 :=
  (if dimZ <=? 1 then
     TV_FGP_2D Input Output lambda iter epsil methodTV nonneg printM dimX dimY ;;
     ret tt
   else
     TV_FGP_3D Input Output lambda iter epsil methodTV nonneg printM
               dimX dimY dimZ ;;
     ret tt) ;;
  load Output 0.

(** ** Observing a run *)

(** The states (value and memory) at the end of each executed iteration
    of a [for_break] loop, in order. *)
Fixpoint trace_break {S} (n : nat) (body : S -> M (bool * S)) (s : S) (w : world)
  : list (bool * S * world) :=
  match n with
  | O => []
  | S n' =>
      let r := body s w in
      r :: (if fst (fst r) then [] else trace_break n' body (snd (fst r)) (snd r))
  end.

(** Buffers as lists, for concrete runs. *)
Definition mem_of_lists (bs : list (block * list float32)) (dflt : float32) : mem :=
  fun p k =>
    match find (fun e => Pos.eqb (fst e) p) bs with
    | Some e => nth (Z.to_nat k) (snd e) dflt
    | None => dflt
    end.

Definition read_buf (m : mem) (p : block) (n : nat) : list float32 :=
  map (fun k => m p (Z.of_nat k)) (seq 0 n).

(** * Vocabulary of the specification *)

(** ** Runs of the driver *)

(** The locals after lines 92-95 / 148-152. *)
Definition stored (l : locals) : locals :=
  mkLocals (ll l + 1) (count l) (tkp1 l) (tkp1 l) (re l) (re1 l).

(** The buffers of the driver: together with [Output], the only blocks an
    iteration may write. *)
Definition blocks2D (b : bufs2D) : list block :=
  [Output_prev b; P1 b; P2 b; P1_prev b; P2_prev b; R1 b; R2 b].

Definition blocks3D (b : bufs3D) : list block :=
  [Output_prev3 b; P1_3 b; P2_3 b; P3_3 b; P1_prev3 b; P2_prev3 b; P3_prev3 b;
   R1_3 b; R2_3 b; R3_3 b].

(** The blocks handed out by the seven (2D) or ten (3D) calls of [malloc]
    when [n] is the next unused block. *)
Definition fresh2D (n : block) : bufs2D :=
  (mkBufs2D n (n + 1) (n + 2) (n + 3) (n + 4) (n + 5) (n + 6))%positive.

Definition fresh3D (n : block) : bufs3D :=
  (mkBufs3D n (n + 1) (n + 2) (n + 3) (n + 4) (n + 5) (n + 6) (n + 7) (n + 8)
            (n + 9))%positive.

Definition allocated (k : positive) (w : world) : world :=
  mkWorld (heap w) (nextblock w + k)%positive (stdout w).

(** The diagnostic line, printed when [printM == 1]. *)
Definition report (printM : Z) (l : locals) (w : world) : world :=
  if printM =? 1 then mkWorld (heap w) (nextblock w) (stdout w ++ [ll l]) else w.

(** Number of samples of the grid the branch taken works on. *)
Definition total_samples (dimX dimY dimZ : Z) : Z :=
  if dimZ <=? 1 then dimX * dimY else dimX * dimY * dimZ.

Section Runs.
Variables (Input Output : block) (lambda : float32) (iter : Z)
        (epsil : float32) (methodTV nonneg dimX dimY dimZ : Z).

Definition loop2D (b : bufs2D) : locals -> M locals :=
  for_break (Z.to_nat iter)
            (body2D Input Output lambda epsil methodTV nonneg dimX dimY b).

Definition loop3D (b : bufs3D) : locals -> M locals :=
  for_break (Z.to_nat iter)
            (body3D Input Output lambda epsil methodTV nonneg dimX dimY dimZ b).

(** The iterations executed by the 2D / 3D loop started in [l], [w]. *)
Definition iterations2D (b : bufs2D) (l : locals) (w : world) :=
  trace_break (Z.to_nat iter)
              (body2D Input Output lambda epsil methodTV nonneg dimX dimY b) l w.

Definition iterations3D (b : bufs3D) (l : locals) (w : world) :=
  trace_break (Z.to_nat iter)
              (body3D Input Output lambda epsil methodTV nonneg dimX dimY dimZ b)
              l w.

(** The iterations executed by a call of [TV_FGP_CPU] from [w]: the state
    (break flag, locals, memory) at the end of each, in order. *)
Definition iterations_of_call (w : world) : list (bool * locals * world) :=
  if dimZ <=? 1 then
    iterations2D (fresh2D (nextblock w)) locals0 (allocated 7 w)
  else
    iterations3D (fresh3D (nextblock w)) locals0 (allocated 10 w).

(** The locals and the memory in which the loop of the call ends. *)
Definition loop_exit (w : world) : locals * world :=
  if dimZ <=? 1 then
    loop2D (fresh2D (nextblock w)) locals0 (allocated 7 w)
  else
    loop3D (fresh3D (nextblock w)) locals0 (allocated 10 w).

End Runs.

(** ** Concrete memories and runs *)

(** A small memory for concrete runs: [Input] is block 1, [Output] block 2,
    and every other cell (in particular every cell of the blocks that
    [malloc] will hand out) holds [garbage]. *)
Definition demo_world (garbage : float32) (input output : list float32) : world :=
  mkWorld (mem_of_lists [(1%positive, input); (2%positive, output)] garbage)
          3%positive [].

Definition five : float32 := F32.of_Z 5.
Definition two : float32 := F32.of_Z 2.

(** A 1x1 image holding 5.0, tolerance 2, cap 7, fresh memory all zero:
    every iteration is a hit and the fifth leaves the loop. *)
Definition early_stop_run : list (bool * locals * world) :=
  iterations_of_call 1 2 F32.one 7 two 0 0 1 1 1
                     (demo_world F32.zero [five] [F32.zero]).

(** A 1x1 image holding 0.0: the sum of squares [re1] is zero. *)
Definition zero_image_run : list (bool * locals * world) :=
  iterations_of_call 1 2 F32.one 1 two 0 0 1 1 1
                     (demo_world F32.zero [F32.zero] [F32.zero]).

(** ** The stopping counter along a run *)

(** [hit epsil r]: the iteration that ended in [r] found [re < epsil]. *)
Definition hit (epsil : float32) (r : bool * locals * world) : bool :=
  (re (snd (fst r)) <? epsil)%f32.

Definition hits (epsil : float32) (t : list (bool * locals * world)) : Z :=
  Z.of_nat (length (filter (hit epsil) t)).

(** The counter of the previous iteration, 0 before the first one. *)
Definition count_before (p : list (bool * locals * world)) : Z :=
  last (map (fun r => count (snd (fst r))) p) 0.

(** ** Frames: which blocks a computation may write *)

(** [frame bs w w']: from [w] to [w'] only cells of the blocks [bs] may
    have changed; nothing was allocated or printed. *)
Definition frame (bs : list block) (w w' : world) : Prop :=
  nextblock w' = nextblock w /\ stdout w' = stdout w /\
  forall b k, ~ In b bs -> heap w' b k = heap w b k.

Definition writes {A} (bs : list block) (c : M A) : Prop :=
  forall w, frame bs w (snd (c w)).

(** ** Classes of floating-point values *)

(** [sign_is s x]: [x] is a NaN or carries the sign bit [s]. *)
Definition sign_is (s : bool) (x : spec_float) : Prop :=
  match x with
  | S754_nan => True
  | S754_zero s' => s' = s
  | S754_infinity s' => s' = s
  | S754_finite s' _ _ => s' = s
  end.

Definition is_zero (x : spec_float) : Prop :=
  match x with S754_zero _ => True | _ => False end.

Definition is_nan (x : spec_float) : Prop :=
  match x with S754_nan => True | _ => False end.

Definition is_finite (x : spec_float) : bool :=
  match x with
  | S754_zero _ | S754_finite _ _ _ => true
  | _ => false
  end.

(** [x] is not negative: it is a NaN or [0 <= x]. *)
Definition nan_or_nonneg (x : float32) : Prop :=
  is_nan x \/ SFleb F32.zero x = true.

(** The rational number a finite float stands for (0 for the others). *)
Definition F2Q (x : spec_float) : Q :=
  match x with
  | S754_finite s m e =>
      (if s then -1 else 1) * inject_Z (Z.pos m) * Qpower (inject_Z 2) e
  | _ => 0
  end%Q.

(** The exact squared Euclidean norm of the components of a position. *)
Definition sq_norm (p : list float32) : Q :=
  fold_right (fun x acc => (F2Q x * F2Q x + acc)%Q) 0%Q p.

(** ** Loops that rewrite cells in place *)

(** The values the blocks [bs] hold at index [x]. *)
Definition vals (bs : list block) (w : world) (x : Z) : list float32 :=
  map (fun b => heap w b x) bs.

(** [acts_on bs T f c]: on the blocks [bs], [c] replaces the values at each
    index in [T] by their image under [f] and leaves the other indices
    alone. *)
Definition acts_on {A} (bs : list block) (T : Z -> Prop)
    (f : list float32 -> list float32) (c : M A) : Prop :=
  forall w,
    (forall x, T x -> vals bs (snd (c w)) x = f (vals bs w x)) /\
    (forall x, ~ T x -> vals bs (snd (c w)) x = vals bs w x).

(** The index of the grid position [(i, j)] / [(i, j, k)]. *)
Definition index2D (dimX i j : Z) : Z := j * dimX + i.

Definition index3D (dimX dimY i j k : Z) : Z :=
  (dimX * dimY) * k + j * dimX + i.

(** ** The projection of one grid position *)

(** The arithmetic the isotropic projection uses, so that the same
    function can be read in binary32 and in exact real arithmetic. *)
Class ProjArith (F : Type) := {
  pa_mul : F -> F -> F;
  (** [pow(p1,2) + pow(p2,2)], as stored in [denom] *)
  pa_sqsum2 : F -> F -> F;
  (** [pow(p1,2) + pow(p2,2) + pow(p3,2)] *)
  pa_sqsum3 : F -> F -> F -> F;
  (** [denom > 1.0f] *)
  pa_gt_one : F -> bool;
  (** [1.0f/sqrt(denom)] *)
  pa_rsqrt : F -> F
}.

(** Lines 202-207: the isotropic projection of a position of a 2D grid. *)
Definition proj_iso2 {F} `{ProjArith F} (p1 p2 : F) : F * F :=
  let denom := pa_sqsum2 p1 p2 in
  if pa_gt_one denom then
    let sq_denom := pa_rsqrt denom in
    (pa_mul p1 sq_denom, pa_mul p2 sq_denom)
  else (p1, p2).

(** Lines 291-297: the isotropic projection of a position of a 3D grid. *)
Definition proj_iso3 {F} `{ProjArith F} (p1 p2 p3 : F) : F * F * F :=
  let denom := pa_sqsum3 p1 p2 p3 in
  if pa_gt_one denom then
    let sq_denom := pa_rsqrt denom in
    (pa_mul p1 sq_denom, pa_mul p2 sq_denom, pa_mul p3 sq_denom)
  else (p1, p2, p3).

#[global] Instance binary32_arith : ProjArith float32 := {
  pa_mul := F32.mul;
  pa_sqsum2 := denom2D;
  pa_sqsum3 := denom3D;
  pa_gt_one := fun d => (d >? F32.one)%f32;
  pa_rsqrt := sq_denom_of
}.

#[global] Instance exact_arith : ProjArith R := {
  pa_mul := Rmult;
  pa_sqsum2 := fun p1 p2 => (p1 * p1 + p2 * p2)%R;
  pa_sqsum3 := fun p1 p2 p3 => (p1 * p1 + p2 * p2 + p3 * p3)%R;
  pa_gt_one := fun d => if Rlt_dec 1 d then true else false;
  pa_rsqrt := fun d => (1 / sqrt d)%R
}.

(** Lines 216-221: the anisotropic projection of one component. *)
Definition proj_aniso (p : float32) : float32 :=
  (p / at_least_one (fabsf p))%f32.

(** The projection of a 2D / 3D position, by variant. *)
Definition proj2D (methTV : Z) (p : list float32) : list float32 :=
  match p with
  | [p1; p2] =>
      if methTV =? 0 then let q := proj_iso2 p1 p2 in [fst q; snd q]
      else [proj_aniso p1; proj_aniso p2]
  | _ => p
  end.

Definition proj3D (methTV : Z) (p : list float32) : list float32 :=
  match p with
  | [p1; p2; p3] =>
      if methTV =? 0 then
        let q := proj_iso3 p1 p2 p3 in [fst (fst q); snd (fst q); snd q]
      else [proj_aniso p1; proj_aniso p2; proj_aniso p3]
  | _ => p
  end.

(** ** Constant images *)

(** Every cell of block [b] holds [+0]. *)
Definition zero_block (w : world) (b : block) : Prop :=
  forall k, heap w b k = F32.zero.

(** Block [b] holds [c] at every position of the [dimX] x [dimY] grid. *)
Definition const_on_grid (w : world) (b : block) (dimX dimY : Z) (c : float32)
  : Prop :=
  forall i j, 0 <= i < dimX -> 0 <= j < dimY -> heap w b (index2D dimX i j) = c.

(** The momentum coefficients [(tk - 1)/tkp1] of the first [n] iterations
    started at [tk = t] are all finite. *)
Fixpoint coefs_finite (n : nat) (t : float32) : bool :=
  match n with
  | O => true
  | S n' =>
      is_finite ((t - F32.one) / next_tk t)%f32 && coefs_finite n' (next_tk t)
  end.

(** The state between two iterations of a run on a constant image: the dual
    buffers and their snapshots hold zeros and [Input] holds [c] on the
    grid. *)
Definition duals_zero (b : bufs2D) (Input : block) (dimX dimY : Z)
    (c : float32) (w : world) : Prop :=
  zero_block w (P1 b) /\ zero_block w (P2 b) /\
  zero_block w (P1_prev b) /\ zero_block w (P2_prev b) /\
  zero_block w (R1 b) /\ zero_block w (R2 b) /\
  const_on_grid w Input dimX dimY c.

(** ** Footprints, cell by cell *)

(** [touches R c]: from [w] to the memory [c] ends in, only cells [(b, k)]
    with [R b k] may have changed; nothing was allocated or printed. *)
Definition touches {A} (R : block -> Z -> Prop) (c : M A) : Prop :=
  forall w,
    nextblock (snd (c w)) = nextblock w /\ stdout (snd (c w)) = stdout w /\
    forall b k, ~ R b k -> heap (snd (c w)) b k = heap w b k.

(** The first [total] cells of the blocks [bs]. *)
Definition cells (bs : list block) (total : Z) (b : block) (k : Z) : Prop :=
  In b bs /\ 0 <= k < total.

(** [fills dst T P c]: when the blocks outside [dst] hold [h0], [c] leaves
    every cell [x] in [T] of a block [b] of [dst] with a value [v] such that
    [P h0 b x v], and changes no other cell. *)
Definition fills {A} (dst : list block) (T : Z -> Prop)
    (P : mem -> block -> Z -> float32 -> Prop) (c : M A) : Prop :=
  forall w h0,
    (forall b x, ~ In b dst -> heap w b x = h0 b x) ->
    (forall b x, In b dst -> T x -> P h0 b x (heap (snd (c w)) b x)) /\
    (forall b x, ~ (In b dst /\ T x) -> heap (snd (c w)) b x = heap w b x).

(** ** The operators, position by position *)

(** Lines 167-171: the value [Obj_func2D] stores at position [(i, j)], read
    in the memory [h]. *)
Definition Obj2D_value (h : mem) (A R1 R2 : block) (lambda : float32)
    (dimX i j : Z) : float32 :=
  let index := index2D dimX i j in
  let val1 := if i =? 0 then F32.zero else h R1 (index2D dimX (i - 1) j) in
  let val2 := if j =? 0 then F32.zero else h R2 (index2D dimX i (j - 1)) in
  (h A index - lambda * (h R1 index + h R2 index - val1 - val2))%f32.

(** Lines 179-188: the values [Grad_func2D] stores in [P1] and [P2] at
    position [(i, j)]. *)
Definition Grad2D_value1 (h : mem) (D R1 : block) (lambda : float32)
    (dimX i j : Z) : float32 :=
  let multip := (F32.one / (F32.eight * lambda))%f32 in
  let index := index2D dimX i j in
  let val1 := if i =? dimX - 1 then F32.zero
              else (h D index - h D (index2D dimX (i + 1) j))%f32 in
  (h R1 index + multip * val1)%f32.

Definition Grad2D_value2 (h : mem) (D R2 : block) (lambda : float32)
    (dimX dimY i j : Z) : float32 :=
  let multip := (F32.one / (F32.eight * lambda))%f32 in
  let index := index2D dimX i j in
  let val2 := if j =? dimY - 1 then F32.zero
              else (h D index - h D (index2D dimX i (j + 1)))%f32 in
  (h R2 index + multip * val2)%f32.

(** Lines 230-236 and 324-332: the value [Rupd_func2D] / [Rupd_func3D]
    stores in an [R] buffer at index [x]. *)
Definition Rupd_value (h : mem) (P P_old : block) (tkp1 tk : float32) (x : Z)
  : float32 :=
  let multip := ((tk - F32.one) / tkp1)%f32 in
  (h P x + multip * (h P x - h P_old x))%f32.

(** Lines 251-256: the value [Obj_func3D] stores at position [(i, j, k)]. *)
Definition Obj3D_value (h : mem) (A R1 R2 R3 : block) (lambda : float32)
    (dimX dimY i j k : Z) : float32 :=
  let index := index3D dimX dimY i j k in
  let val1 := if i =? 0 then F32.zero
              else h R1 (index3D dimX dimY (i - 1) j k) in
  let val2 := if j =? 0 then F32.zero
              else h R2 (index3D dimX dimY i (j - 1) k) in
  let val3 := if k =? 0 then F32.zero
              else h R3 (index3D dimX dimY i j (k - 1)) in
  (h A index
   - lambda * (h R1 index + h R2 index + h R3 index - val1 - val2 - val3))%f32.

(** Lines 269-276: the values [Grad_func3D] stores in [P1], [P2] and [P3]
    at position [(i, j, k)]. *)
Definition Grad3D_value1 (h : mem) (D R1 : block) (lambda : float32)
    (dimX dimY i j k : Z) : float32 :=
  let multip := (F32.one / (F32.eight * lambda))%f32 in
  let index := index3D dimX dimY i j k in
  let val1 := if i =? dimX - 1 then F32.zero
              else (h D index - h D (index3D dimX dimY (i + 1) j k))%f32 in
  (h R1 index + multip * val1)%f32.

Definition Grad3D_value2 (h : mem) (D R2 : block) (lambda : float32)
    (dimX dimY i j k : Z) : float32 :=
  let multip := (F32.one / (F32.eight * lambda))%f32 in
  let index := index3D dimX dimY i j k in
  let val2 := if j =? dimY - 1 then F32.zero
              else (h D index - h D (index3D dimX dimY i (j + 1) k))%f32 in
  (h R2 index + multip * val2)%f32.

Definition Grad3D_value3 (h : mem) (D R3 : block) (lambda : float32)
    (dimX dimY dimZ i j k : Z) : float32 :=
  let multip := (F32.one / (F32.eight * lambda))%f32 in
  let index := index3D dimX dimY i j k in
  let val3 := if k =? dimZ - 1 then F32.zero
              else (h D index - h D (index3D dimX dimY i j (k + 1)))%f32 in
  (h R3 index + multip * val3)%f32.

(** ** More vocabulary for runs *)

(** The number of iterations of a run that ended without [break]. *)
Definition completed (t : list (bool * locals * world)) : Z :=
  Z.of_nat (length (filter (fun r => negb (fst (fst r))) t)).

(** Lines 68 and 123: what the non-negativity pass leaves in place of
    [o]. *)
Definition clamp_value (o : float32) : float32 :=
  if (o <? F32.zero)%f32 then F32.zero else o.

(** The upper edges of a 2D grid: the last column and the last row. *)
Definition upper_edge2D (dimX dimY i j : Z) : Prop :=
  0 <= i < dimX /\ 0 <= j < dimY /\ (i = dimX - 1 \/ j = dimY - 1).

(** [R1] holds a NaN along the last column and [R2] along the last row. *)
Definition nan_on_edges (dimX dimY : Z) (R1 R2 : block) (w : world) : Prop :=
  forall i j, 0 <= i < dimX -> 0 <= j < dimY ->
    (i = dimX - 1 -> heap w R1 (index2D dimX i j) = S754_nan)
    /\ (j = dimY - 1 -> heap w R2 (index2D dimX i j) = S754_nan).

(** [Output] holds a NaN along the upper edges. *)
Definition nan_on_upper_edge (Output : block) (dimX dimY : Z) (w : world)
  : Prop :=
  forall i j, upper_edge2D dimX dimY i j ->
    heap w Output (index2D dimX i j) = S754_nan.

(** ** What a computation reads *)

(** [agree S w1 w2]: the two memories hand out the same blocks and hold the
    same value in every cell [(b, k)] with [S b k]. *)
Definition agree (S : block -> Z -> Prop) (w1 w2 : world) : Prop :=
  nextblock w1 = nextblock w2 /\
  forall b k, S b k -> heap w1 b k = heap w2 b k.

(** [respects S c]: run from two memories that agree on [S], [c] yields the
    same value and memories that agree on [S]: it reads cells of [S] only. *)
Definition respects {A} (S : block -> Z -> Prop) (c : M A) : Prop :=
  forall w1 w2, agree S w1 w2 ->
    fst (c w1) = fst (c w2) /\ agree S (snd (c w1)) (snd (c w2)).

(** The first [total] cells of the blocks in [B]. *)
Definition within (B : block -> Prop) (total : Z) (b : block) (k : Z) : Prop :=
  B b /\ 0 <= k < total.

(** The blocks whose contents at entry a 2D call may depend on: all but
    [Output] and the buffers [P1], [P2] it allocates. *)
Definition read_at_entry2D (Output n : block) (b : block) : Prop :=
  b <> Output /\ b <> P1 (fresh2D n) /\ b <> P2 (fresh2D n).

(** The same for a 3D call. *)
Definition read_at_entry3D (Output n : block) (b : block) : Prop :=
  b <> Output /\ b <> P1_3 (fresh3D n) /\ b <> P2_3 (fresh3D n)
  /\ b <> P3_3 (fresh3D n).

Definition any_block (b : block) : Prop := True.

(** The blocks whose contents at entry a call may depend on. *)
Definition read_at_entry (Output n : block) (dimZ : Z) (b : block) : Prop :=
  if dimZ <=? 1 then read_at_entry2D Output n b else read_at_entry3D Output n b.

(** * Reasoning principles *)

(** ** The monad *)

Lemma bind_run {A B} (c : M A) (k : A -> M B) (w : world) :
  bind c k w = k (fst (c w)) (snd (c w)).
Proof. unfold bind. destruct (c w); reflexivity. Qed.

Lemma upd_same (m : mem) p i v : upd m p i v p i = v.
Proof. unfold upd. now rewrite Pos.eqb_refl, Z.eqb_refl. Qed.

Lemma upd_other_block (m : mem) p i v q k : q <> p -> upd m p i v q k = m q k.
Proof.
  intros Hq. unfold upd.
  destruct (Pos.eqb_spec q p); [contradiction | reflexivity].
Qed.

Lemma upd_other_index (m : mem) p i v q k : k <> i -> upd m p i v q k = m q k.
Proof.
  intros Hk. unfold upd.
  destruct (Z.eqb_spec k i); [contradiction |].
  now rewrite andb_false_r.
Qed.

(** ** Loop invariants *)

Lemma for_from_inv {A} (I : Z -> A -> world -> Prop) (body : Z -> A -> M A) :
  forall n i acc w,
    I i acc w ->
    (forall k a w', i <= k < i + Z.of_nat n -> I k a w' ->
                    I (k + 1) (fst (body k a w')) (snd (body k a w'))) ->
    I (i + Z.of_nat n) (fst (for_from n i body acc w))
                       (snd (for_from n i body acc w)).
Proof.
  induction n as [|n IH]; intros i acc w H0 Hstep.
  - simpl. now replace (i + 0) with i by lia.
  - cbn [for_from]. rewrite bind_run.
    replace (i + Z.of_nat (S n)) with ((i + 1) + Z.of_nat n) by lia.
    apply IH.
    + apply Hstep; [lia | assumption].
    + intros k a w' Hk. apply Hstep. lia.
Qed.

Lemma for_fold_inv {A} (I : Z -> A -> world -> Prop) (body : Z -> A -> M A)
    lo hi acc w :
  lo <= hi ->
  I lo acc w ->
  (forall k a w', lo <= k < hi -> I k a w' ->
                  I (k + 1) (fst (body k a w')) (snd (body k a w'))) ->
  I hi (fst (for_fold lo hi body acc w)) (snd (for_fold lo hi body acc w)).
Proof.
  intros Hle H0 Hstep. unfold for_fold.
  assert (Hhi : hi = lo + Z.of_nat (Z.to_nat (hi - lo))) by lia.
  generalize (for_from_inv I body (Z.to_nat (hi - lo)) lo acc w H0).
  rewrite <- Hhi. intros H. apply H.
  intros k a w' Hk. now apply Hstep.
Qed.

(** A loop whose range is empty does nothing. *)
Lemma for_fold_empty {A} (body : Z -> A -> M A) lo hi acc w :
  hi <= lo -> for_fold lo hi body acc w = (acc, w).
Proof.
  intros Hle. unfold for_fold.
  replace (Z.to_nat (hi - lo)) with O by lia. reflexivity.
Qed.

(** An invariant that does not mention the loop index holds after the loop
    whatever the bounds are. *)
Lemma for_fold_preserves {A} (I : A -> world -> Prop) (body : Z -> A -> M A)
    lo hi acc w :
  I acc w ->
  (forall k a w', lo <= k < hi -> I a w' ->
                  I (fst (body k a w')) (snd (body k a w'))) ->
  I (fst (for_fold lo hi body acc w)) (snd (for_fold lo hi body acc w)).
Proof.
  intros H0 Hstep.
  destruct (Z.le_gt_cases lo hi) as [Hle | Hgt].
  - apply (for_fold_inv (fun _ => I)); auto.
  - rewrite for_fold_empty by lia. exact H0.
Qed.

Lemma for_inv (I : Z -> world -> Prop) (body : Z -> M unit) lo hi w :
  lo <= hi ->
  I lo w ->
  (forall k w', lo <= k < hi -> I k w' -> I (k + 1) (snd (body k w'))) ->
  I hi (snd (for_ lo hi body w)).
Proof.
  intros Hle H0 Hstep. unfold for_.
  apply (for_fold_inv (fun k _ w' => I k w')); auto.
Qed.

Lemma for_preserves (I : world -> Prop) (body : Z -> M unit) lo hi w :
  I w ->
  (forall k w', lo <= k < hi -> I w' -> I (snd (body k w'))) ->
  I (snd (for_ lo hi body w)).
Proof.
  intros H0 Hstep. unfold for_.
  apply (for_fold_preserves (fun _ w' => I w')); auto.
Qed.

(** ** Frames: which blocks a computation may write *)

Lemma frame_refl bs w : frame bs w w.
Proof. repeat split. Qed.

Lemma frame_trans bs w1 w2 w3 :
  frame bs w1 w2 -> frame bs w2 w3 -> frame bs w1 w3.
Proof.
  intros (N1 & S1 & H1) (N2 & S2 & H2).
  split; [congruence | split; [congruence |]].
  intros b k Hb. rewrite H2, H1; auto.
Qed.

Lemma frame_incl bs bs' w w' : incl bs bs' -> frame bs w w' -> frame bs' w w'.
Proof.
  intros Hi (N & S & H). split; [exact N | split; [exact S |]].
  intros b k Hb. apply H. intro Hin. apply Hb, Hi, Hin.
Qed.

Lemma writes_ret {A} bs (a : A) : writes bs (ret a).
Proof. intro w. apply frame_refl. Qed.

Lemma writes_load bs p i : writes bs (load p i).
Proof. intro w. apply frame_refl. Qed.

Lemma writes_store bs p i v : In p bs -> writes bs (store p i v).
Proof.
  intros Hin w. split; [reflexivity | split; [reflexivity |]].
  intros b k Hb. cbn.
  apply upd_other_block. intros ->. contradiction.
Qed.

Lemma writes_bind {A B} bs (c : M A) (k : A -> M B) :
  writes bs c -> (forall a, writes bs (k a)) -> writes bs (bind c k).
Proof.
  intros Hc Hk w. rewrite bind_run.
  eapply frame_trans; [apply Hc | apply Hk].
Qed.

Lemma writes_for_fold {A} bs lo hi (body : Z -> A -> M A) acc :
  (forall k a, writes bs (body k a)) -> writes bs (for_fold lo hi body acc).
Proof.
  intros Hb w.
  apply (for_fold_preserves (fun _ w' => frame bs w w')).
  - apply frame_refl.
  - intros k a w' _ Hf. eapply frame_trans; [exact Hf | apply Hb].
Qed.

Lemma writes_for bs lo hi (body : Z -> M unit) :
  (forall k, writes bs (body k)) -> writes bs (for_ lo hi body).
Proof. intros Hb. apply writes_for_fold. intros k _. apply Hb. Qed.

Lemma writes_incl {A} bs bs' (c : M A) :
  incl bs bs' -> writes bs c -> writes bs' c.
Proof. intros Hi Hc w. eapply frame_incl; eauto. Qed.

(** Decompose a computation along its syntax. *)
Ltac writes_step :=
  match goal with
  | |- writes _ (bind _ _) => apply writes_bind; [| intro]
  | |- writes _ (for_ _ _ _) => apply writes_for; intro
  | |- writes _ (for_fold _ _ _ _) => apply writes_for_fold; intros
  | |- writes _ (ret _) => apply writes_ret
  | |- writes _ (load _ _) => apply writes_load
  | |- writes _ (free _) => apply writes_ret
  | |- writes _ (store _ _ _) => apply writes_store; simpl; tauto
  | |- writes _ (if ?c then _ else _) => destruct c
  | |- writes _ (let _ := _ in _) => cbv zeta
  end.
Ltac writes_tac := repeat writes_step.

Lemma Obj_func2D_writes A D R1 R2 lambda dimX dimY :
  writes [D] (Obj_func2D A D R1 R2 lambda dimX dimY).
Proof. unfold Obj_func2D. writes_tac. Qed.

Lemma Grad_func2D_writes P1 P2 D R1 R2 lambda dimX dimY :
  writes [P1; P2] (Grad_func2D P1 P2 D R1 R2 lambda dimX dimY).
Proof. unfold Grad_func2D. writes_tac. Qed.

Lemma Proj_func2D_writes P1 P2 methTV dimX dimY :
  writes [P1; P2] (Proj_func2D P1 P2 methTV dimX dimY).
Proof. unfold Proj_func2D. writes_tac. Qed.

Lemma Rupd_func2D_writes P1 P1o P2 P2o R1 R2 tkp1 tk dimX dimY :
  writes [R1; R2] (Rupd_func2D P1 P1o P2 P2o R1 R2 tkp1 tk dimX dimY).
Proof. unfold Rupd_func2D. writes_tac. Qed.

Lemma Obj_func3D_writes A D R1 R2 R3 lambda dimX dimY dimZ :
  writes [D] (Obj_func3D A D R1 R2 R3 lambda dimX dimY dimZ).
Proof. unfold Obj_func3D. writes_tac. Qed.

Lemma Grad_func3D_writes P1 P2 P3 D R1 R2 R3 lambda dimX dimY dimZ :
  writes [P1; P2; P3] (Grad_func3D P1 P2 P3 D R1 R2 R3 lambda dimX dimY dimZ).
Proof. unfold Grad_func3D. writes_tac. Qed.

Lemma Proj_func3D_writes P1 P2 P3 methTV dimX dimY dimZ :
  writes [P1; P2; P3] (Proj_func3D P1 P2 P3 methTV dimX dimY dimZ).
Proof. unfold Proj_func3D. writes_tac. Qed.

Lemma Rupd_func3D_writes P1 P1o P2 P2o P3 P3o R1 R2 R3 tkp1 tk dimX dimY dimZ :
  writes [R1; R2; R3]
         (Rupd_func3D P1 P1o P2 P2o P3 P3o R1 R2 R3 tkp1 tk dimX dimY dimZ).
Proof. unfold Rupd_func3D. writes_tac. Qed.

Lemma copyIm_writes A U dimX dimY dimZ : writes [U] (copyIm A U dimX dimY dimZ).
Proof. unfold copyIm. writes_tac. Qed.

Lemma clamp_writes Output nonneg total : writes [Output] (clamp Output nonneg total).
Proof. unfold clamp. writes_tac. Qed.

Lemma residual_sums_writes Output Output_prev total :
  writes [] (residual_sums Output Output_prev total).
Proof. unfold residual_sums. writes_tac. Qed.

(** ** Loops with [break] *)

Section ForBreak.
Context {S : Type}.
Variable body : S -> M (bool * S).

Lemma last_cons {A} (a d : A) (l : list A) : last (a :: l) d = last l a.
Proof.
  revert a d. induction l as [|b l IH]; intros a d; [reflexivity |].
  change (last (a :: b :: l) d) with (last (b :: l) d).
  now rewrite (IH b d), (IH b a).
Qed.

(** The loop ends in the state of its last executed iteration. *)
Lemma for_break_last n s w :
  for_break n body s w =
  (let r := last (trace_break n body s w) (false, s, w) in (snd (fst r), snd r)).
Proof.
  revert s w. induction n as [|n IH]; intros s w; [reflexivity |].
  cbn [for_break trace_break]. rewrite bind_run, last_cons.
  destruct (body s w) as [[brk s'] w'] eqn:E; cbn [fst snd].
  destruct brk; [reflexivity |]. apply IH.
Qed.

Lemma trace_break_length n s w : (length (trace_break n body s w) <= n)%nat.
Proof.
  revert s w. induction n as [|n IH]; intros s w; cbn; [lia |].
  destruct (fst (fst (body s w))); cbn; [lia |].
  specialize (IH (snd (fst (body s w))) (snd (body s w))). lia.
Qed.

Lemma trace_break_nil n s w : trace_break n body s w = [] -> n = O.
Proof. destruct n; [reflexivity | discriminate]. Qed.

(** What every iteration establishes holds at the end of each of them. *)
Lemma trace_break_Forall (P : bool * S * world -> Prop) n s w :
  (forall s' w', P (body s' w')) -> Forall P (trace_break n body s w).
Proof.
  intros HP. revert s w. induction n as [|n IH]; intros s w; cbn.
  - constructor.
  - constructor; [apply HP |].
    destruct (fst (fst (body s w))); [constructor | apply IH].
Qed.

(** Only the last executed iteration can have left through [break]. *)
Lemma trace_break_stops n s w p r q :
  trace_break n body s w = p ++ r :: q -> fst (fst r) = true -> q = [].
Proof.
  revert s w p. induction n as [|n IH]; intros s w p E Hb; cbn in E.
  - destruct p; discriminate.
  - destruct p as [|a p]; cbn in E; injection E as E1 E2.
    + subst r. rewrite Hb in E2. now symmetry.
    + destruct (fst (fst (body s w))).
      * destruct p; discriminate.
      * eapply IH; eauto.
Qed.

(** A loop that executes fewer iterations than its bound left through
    [break]. *)
Lemma trace_break_short n s w :
  (length (trace_break n body s w) < n)%nat ->
  exists p r, trace_break n body s w = p ++ [r] /\ fst (fst r) = true.
Proof.
  revert s w. induction n as [|n IH]; intros s w Hlen; cbn in *; [lia |].
  destruct (fst (fst (body s w))) eqn:Hb.
  - exists [], (body s w). split; [reflexivity | exact Hb].
  - cbn in Hlen.
    destruct (IH (snd (fst (body s w))) (snd (body s w))) as (p & r & E & Hr);
      [lia |].
    exists (body s w :: p), r. split; [| exact Hr]. cbn. now rewrite E.
Qed.

Lemma writes_for_break bs n s :
  (forall s', writes bs (body s')) -> writes bs (for_break n body s).
Proof.
  intros Hb. revert s. induction n as [|n IH]; intros s; cbn [for_break].
  - apply writes_ret.
  - apply writes_bind; [apply Hb |]. intros r.
    destruct (fst r); [apply writes_ret | apply IH].
Qed.
End ForBreak.

(** ** The stopping counter along a run *)

Lemma hits_app epsil t1 t2 : hits epsil (t1 ++ t2) = hits epsil t1 + hits epsil t2.
Proof. unfold hits. rewrite filter_app, length_app. lia. Qed.

Lemma hits_one epsil r : hits epsil [r] = if hit epsil r then 1 else 0.
Proof. unfold hits. cbn. now destruct (hit epsil r). Qed.

Section Counter.
Variable epsil : float32.
Variable body : locals -> M (bool * locals).

(** The two facts about a loop body the counting argument rests on:
    [if (re < epsil) count++] and [if (count > 4) break]. *)
Hypothesis body_count : forall l w,
  count (snd (fst (body l w))) =
  bump (re (snd (fst (body l w)))) epsil (count l).
Hypothesis body_break : forall l w,
  fst (fst (body l w)) = (4 <? count (snd (fst (body l w)))).

Lemma trace_count n l w p r q :
  trace_break n body l w = p ++ r :: q ->
  count (snd (fst r)) = count l + hits epsil (p ++ [r]).
Proof.
  revert l w p. induction n as [|n IH]; intros l w p E; cbn in E.
  - destruct p; discriminate.
  - destruct p as [|a p]; cbn in E; injection E as E1 E2.
    + subst r. cbn [app]. rewrite hits_one, body_count.
      unfold bump, hit. destruct F32.ltb; lia.
    + destruct (fst (fst (body l w))); [destruct p; discriminate |].
      rewrite (IH _ _ _ E2). subst a.
      change ((body l w :: p) ++ [r]) with ([body l w] ++ (p ++ [r])).
      rewrite (hits_app _ [body l w]), hits_one, body_count.
      unfold bump, hit. destruct F32.ltb; lia.
Qed.

Lemma trace_break_iff n l w r :
  In r (trace_break n body l w) -> fst (fst r) = (4 <? count (snd (fst r))).
Proof.
  revert l w. induction n as [|n IH]; intros l w Hin; cbn in Hin; [contradiction |].
  destruct Hin as [<- | Hin]; [apply body_break |].
  destruct (fst (fst (body l w))); [contradiction | eauto].
Qed.
End Counter.

(** ** The loop bodies of the driver *)

Section Bodies.
Variables (Input Output : block) (lambda : float32)
          (epsil : float32) (methodTV nonneg dimX dimY dimZ : Z).

Let step2 := step2D Input Output lambda epsil methodTV nonneg dimX dimY.
Let store2 := store2D Output dimX dimY.
Let body2 := body2D Input Output lambda epsil methodTV nonneg dimX dimY.
Let step3 := step3D Input Output lambda epsil methodTV nonneg dimX dimY dimZ.
Let store3 := store3D Output dimX dimY dimZ.
Let body3 := body3D Input Output lambda epsil methodTV nonneg dimX dimY dimZ.

Lemma step2D_count b l w :
  count (fst (step2 b l w)) = bump (re (fst (step2 b l w))) epsil (count l).
Proof. unfold step2, step2D. repeat rewrite bind_run. reflexivity. Qed.

Lemma step3D_count b l w :
  count (fst (step3 b l w)) = bump (re (fst (step3 b l w))) epsil (count l).
Proof. unfold step3, step3D. repeat rewrite bind_run. reflexivity. Qed.

Lemma store2D_locals b l w : fst (store2 b l w) = stored l.
Proof. unfold store2, store2D. repeat rewrite bind_run. reflexivity. Qed.

Lemma store3D_locals b l w : fst (store3 b l w) = stored l.
Proof. unfold store3, store3D. repeat rewrite bind_run. reflexivity. Qed.

(** The body is the step, then either [break] or the snapshot. *)
Lemma body2D_run b l w :
  body2 b l w =
  (let s1 := step2 b l w in
   if 4 <? count (fst s1) then (true, fst s1, snd s1)
   else (false, stored (fst s1), snd (store2 b (fst s1) (snd s1)))).
Proof.
  unfold body2, body2D. rewrite bind_run. fold step2. cbv zeta.
  destruct (4 <? count (fst (step2 b l w))); [reflexivity |].
  rewrite bind_run. fold store2. rewrite store2D_locals. reflexivity.
Qed.

Lemma body3D_run b l w :
  body3 b l w =
  (let s1 := step3 b l w in
   if 4 <? count (fst s1) then (true, fst s1, snd s1)
   else (false, stored (fst s1), snd (store3 b (fst s1) (snd s1)))).
Proof.
  unfold body3, body3D. rewrite bind_run. fold step3. cbv zeta.
  destruct (4 <? count (fst (step3 b l w))); [reflexivity |].
  rewrite bind_run. fold store3. rewrite store3D_locals. reflexivity.
Qed.

Lemma body2D_count b l w :
  count (snd (fst (body2 b l w))) =
  bump (re (snd (fst (body2 b l w)))) epsil (count l).
Proof.
  rewrite body2D_run. cbv zeta.
  destruct (4 <? count (fst (step2 b l w))); cbn; apply step2D_count.
Qed.

Lemma body3D_count b l w :
  count (snd (fst (body3 b l w))) =
  bump (re (snd (fst (body3 b l w)))) epsil (count l).
Proof.
  rewrite body3D_run. cbv zeta.
  destruct (4 <? count (fst (step3 b l w))); cbn; apply step3D_count.
Qed.

Lemma body2D_break b l w :
  fst (fst (body2 b l w)) = (4 <? count (snd (fst (body2 b l w)))).
Proof.
  rewrite body2D_run. cbv zeta.
  destruct (4 <? count (fst (step2 b l w))) eqn:E; cbn; now rewrite E.
Qed.

Lemma body3D_break b l w :
  fst (fst (body3 b l w)) = (4 <? count (snd (fst (body3 b l w)))).
Proof.
  rewrite body3D_run. cbv zeta.
  destruct (4 <? count (fst (step3 b l w))) eqn:E; cbn; now rewrite E.
Qed.

Ltac writes_call L :=
  eapply writes_incl; [| apply L]; intros x Hx; simpl in *; tauto.

Lemma step2D_writes b l : writes (Output :: blocks2D b) (step2 b l).
Proof.
  unfold step2, step2D.
  apply writes_bind; [writes_call Obj_func2D_writes | intros _].
  apply writes_bind; [writes_call clamp_writes | intros _].
  apply writes_bind; [writes_call Grad_func2D_writes | intros _].
  apply writes_bind; [writes_call Proj_func2D_writes | intros _].
  cbv zeta.
  apply writes_bind; [writes_call Rupd_func2D_writes | intros _].
  apply writes_bind; [writes_call residual_sums_writes | intros sums].
  apply writes_ret.
Qed.

Lemma store2D_writes b l : writes (Output :: blocks2D b) (store2 b l).
Proof.
  unfold store2, store2D.
  repeat (apply writes_bind; [writes_call copyIm_writes | intros _]).
  apply writes_ret.
Qed.

Lemma body2D_writes b l : writes (Output :: blocks2D b) (body2 b l).
Proof.
  unfold body2, body2D.
  apply writes_bind; [apply step2D_writes | intros l1].
  destruct (4 <? count l1); [apply writes_ret |].
  apply writes_bind; [apply store2D_writes | intros l2; apply writes_ret].
Qed.

Lemma step3D_writes b l : writes (Output :: blocks3D b) (step3 b l).
Proof.
  unfold step3, step3D.
  apply writes_bind; [writes_call Obj_func3D_writes | intros _].
  apply writes_bind; [writes_call clamp_writes | intros _].
  apply writes_bind; [writes_call Grad_func3D_writes | intros _].
  apply writes_bind; [writes_call Proj_func3D_writes | intros _].
  cbv zeta.
  apply writes_bind; [writes_call Rupd_func3D_writes | intros _].
  apply writes_bind; [writes_call residual_sums_writes | intros sums].
  apply writes_ret.
Qed.

Lemma store3D_writes b l : writes (Output :: blocks3D b) (store3 b l).
Proof.
  unfold store3, store3D.
  repeat (apply writes_bind; [writes_call copyIm_writes | intros _]).
  apply writes_ret.
Qed.

Lemma body3D_writes b l : writes (Output :: blocks3D b) (body3 b l).
Proof.
  unfold body3, body3D.
  apply writes_bind; [apply step3D_writes | intros l1].
  destruct (4 <? count l1); [apply writes_ret |].
  apply writes_bind; [apply store3D_writes | intros l2; apply writes_ret].
Qed.
End Bodies.

(** ** The run of [TV_FGP_CPU] *)

Section Run.
Variables (Input Output : block) (lambda : float32) (iter : Z)
          (epsil : float32) (methodTV nonneg printM dimX dimY dimZ : Z).

Local Abbreviation loop2 :=
  (loop2D Input Output lambda iter epsil methodTV nonneg dimX dimY).
Local Abbreviation loop3 :=
  (loop3D Input Output lambda iter epsil methodTV nonneg dimX dimY dimZ).

Lemma succ_add (n : positive) : Pos.succ n = (n + 1)%positive.
Proof. lia. Qed.

Lemma TV_FGP_2D_run w :
  TV_FGP_2D Input Output lambda iter epsil methodTV nonneg printM dimX dimY w =
  (let b := fresh2D (nextblock w) in
   let r := loop2 b locals0 (allocated 7 w) in
   (b, fst r, report printM (fst r) (snd r))).
Proof.
  unfold TV_FGP_2D, malloc, free, bind, ret. cbn [nextblock heap stdout].
  replace (Pos.succ (Pos.succ (Pos.succ (Pos.succ (Pos.succ (Pos.succ
            (Pos.succ (nextblock w))))))))
    with (nextblock w + 7)%positive by lia.
  rewrite !succ_add.
  replace (nextblock w + 1 + 1)%positive with (nextblock w + 2)%positive by lia.
  replace (nextblock w + 2 + 1)%positive with (nextblock w + 3)%positive by lia.
  replace (nextblock w + 3 + 1)%positive with (nextblock w + 4)%positive by lia.
  replace (nextblock w + 4 + 1)%positive with (nextblock w + 5)%positive by lia.
  replace (nextblock w + 5 + 1)%positive with (nextblock w + 6)%positive by lia.
  fold (fresh2D (nextblock w)). fold (loop2 (fresh2D (nextblock w))).
  fold (allocated 7 w). cbv zeta.
  destruct (loop2 (fresh2D (nextblock w)) locals0 (allocated 7 w)) as [l w'].
  unfold report, printf_iter. cbn [fst snd].
  destruct (printM =? 1); reflexivity.
Qed.

Lemma TV_FGP_3D_run w :
  TV_FGP_3D Input Output lambda iter epsil methodTV nonneg printM
            dimX dimY dimZ w =
  (let b := fresh3D (nextblock w) in
   let r := loop3 b locals0 (allocated 10 w) in
   (b, fst r, report printM (fst r) (snd r))).
Proof.
  unfold TV_FGP_3D, malloc, free, bind, ret. cbn [nextblock heap stdout].
  replace (Pos.succ (Pos.succ (Pos.succ (Pos.succ (Pos.succ (Pos.succ
            (Pos.succ (Pos.succ (Pos.succ (Pos.succ (nextblock w)))))))))))
    with (nextblock w + 10)%positive by lia.
  rewrite !succ_add.
  replace (nextblock w + 1 + 1)%positive with (nextblock w + 2)%positive by lia.
  replace (nextblock w + 2 + 1)%positive with (nextblock w + 3)%positive by lia.
  replace (nextblock w + 3 + 1)%positive with (nextblock w + 4)%positive by lia.
  replace (nextblock w + 4 + 1)%positive with (nextblock w + 5)%positive by lia.
  replace (nextblock w + 5 + 1)%positive with (nextblock w + 6)%positive by lia.
  replace (nextblock w + 6 + 1)%positive with (nextblock w + 7)%positive by lia.
  replace (nextblock w + 7 + 1)%positive with (nextblock w + 8)%positive by lia.
  replace (nextblock w + 8 + 1)%positive with (nextblock w + 9)%positive by lia.
  fold (fresh3D (nextblock w)). fold (loop3 (fresh3D (nextblock w))).
  fold (allocated 10 w). cbv zeta.
  destruct (loop3 (fresh3D (nextblock w)) locals0 (allocated 10 w)) as [l w'].
  unfold report, printf_iter. cbn [fst snd].
  destruct (printM =? 1); reflexivity.
Qed.

(** The whole call: the final memory is that of the branch taken, and the
    value returned is its [Output[0]]. *)
Lemma TV_FGP_CPU_run w :
  TV_FGP_CPU Input Output lambda iter epsil methodTV nonneg printM
             dimX dimY dimZ w =
  (let w' :=
     if dimZ <=? 1
     then snd (TV_FGP_2D Input Output lambda iter epsil methodTV nonneg printM
                         dimX dimY w)
     else snd (TV_FGP_3D Input Output lambda iter epsil methodTV nonneg printM
                         dimX dimY dimZ w) in
   (heap w' Output 0, w')).
Proof.
  unfold TV_FGP_CPU. rewrite bind_run. cbv zeta.
  destruct (dimZ <=? 1); rewrite bind_run; reflexivity.
Qed.

Lemma loop2D_writes b l :
  writes (Output :: blocks2D b) (loop2 b l).
Proof. apply writes_for_break. intros l'. apply body2D_writes. Qed.

Lemma loop3D_writes b l :
  writes (Output :: blocks3D b) (loop3 b l).
Proof. apply writes_for_break. intros l'. apply body3D_writes. Qed.

Lemma report_heap l w : heap (report printM l w) = heap w.
Proof. unfold report. now destruct (printM =? 1). Qed.
End Run.

(** * Floating-point facts *)

Section Signs.
Variables prec emax : Z.

Lemma binary_round_aux_sign s m e l :
  sign_is s (binary_round_aux prec emax s m e l).
Proof.
  unfold binary_round_aux.
  destruct (shr_fexp prec emax m e l) as [mrs' e'].
  destruct (shr_fexp prec emax _ e' loc_Exact) as [mrs'' e''].
  destruct (shr_m mrs''); cbn; auto.
  destruct (e'' <=? emax - prec); cbn; auto.
Qed.

Lemma binary_round_sign s m e : sign_is s (binary_round prec emax s m e).
Proof.
  unfold binary_round.
  destruct (shl_align m e _) as [mz ez]. apply binary_round_aux_sign.
Qed.

Lemma convert_sign s x : sign_is s x -> sign_is s (convert prec emax x).
Proof.
  destruct x as [s' | s' | | s' m e]; cbn; auto.
  intros ->. destruct s; cbn; apply binary_round_sign.
Qed.

Lemma SFmul_self_sign x : sign_is false (SFmul prec emax x x).
Proof.
  destruct x as [s | s | | s m e]; cbn; try apply xorb_nilpotent; auto.
  generalize (binary_round_aux_sign (xorb s s) (Z.pos (m * m)) (e + e) loc_Exact).
  now rewrite xorb_nilpotent.
Qed.

Lemma SFadd_sign x y :
  sign_is false x -> sign_is false y -> sign_is false (SFadd prec emax x y).
Proof.
  destruct x as [s | s | | s m e], y as [s' | s' | | s' m' e'];
    cbn; intros Hx Hy; subst; cbn; auto.
  apply binary_round_sign.
Qed.

Lemma SFsqrt_sign x : sign_is false x -> sign_is false (SFsqrt prec emax x).
Proof.
  destruct x as [s | s | | s m e]; cbn; intros Hx; subst; cbn; auto.
  destruct (SFsqrt_core_binary prec emax (Z.pos m) e) as [[mz ez] lz].
  apply binary_round_aux_sign.
Qed.

Lemma SFdiv_sign x y :
  sign_is false x -> sign_is false y -> sign_is false (SFdiv prec emax x y).
Proof.
  destruct x as [s | s | | s m e], y as [s' | s' | | s' m' e'];
    cbn; intros Hx Hy; subst; cbn; auto.
  destruct (SFdiv_core_binary prec emax (Z.pos m) e (Z.pos m') e')
    as [[mz ez] lz].
  apply (binary_round_aux_sign false).
Qed.

(** Dividing a non-negative value by [+0] gives [+inf] or a NaN. *)
Lemma SFdiv_by_zero x :
  sign_is false x ->
  SFdiv prec emax x (S754_zero false) = S754_infinity false \/
  SFdiv prec emax x (S754_zero false) = S754_nan.
Proof.
  destruct x as [s | s | | s m e]; cbn; intros Hx; subst; auto.
Qed.
End Signs.

(** A value that is not negative is never [<] a zero. *)
Lemma SFltb_zero_false x s : sign_is false x -> SFltb x (S754_zero s) = false.
Proof.
  destruct x as [s' | s' | | s' m e]; cbn; intros Hx; subst; reflexivity.
Qed.

(** [+inf] is not [<] anything. *)
Lemma SFltb_inf_false y : SFltb (S754_infinity false) y = false.
Proof. destruct y as [s | s | | s m e]; try destruct s; reflexivity. Qed.

(** [x < 0] fails exactly when [x] is a NaN or [0 <= x]. *)
Lemma not_ltb_zero x :
  SFltb x F32.zero = false -> is_nan x \/ SFleb F32.zero x = true.
Proof.
  destruct x as [s | s | | s m e]; cbn; auto; destruct s; cbn; auto; discriminate.
Qed.

(** The sums of squares of the stopping rule are not negative. *)
Lemma residual_sums_sign Output Output_prev total w :
  sign_is false (fst (fst (residual_sums Output Output_prev total w))) /\
  sign_is false (snd (fst (residual_sums Output Output_prev total w))).
Proof.
  unfold residual_sums.
  apply (for_fold_preserves
           (fun acc _ => sign_is false (fst acc) /\ sign_is false (snd acc))).
  - split; reflexivity.
  - intros k a w' _ [H1 H2]. unfold bind, load, ret. cbn [fst snd].
    split; apply convert_sign, SFadd_sign;
      try apply SFmul_self_sign; apply convert_sign; assumption.
Qed.

Lemma relative_residual_sign re re1 :
  sign_is false re -> sign_is false re1 ->
  sign_is false (relative_residual re re1).
Proof.
  intros H H1. unfold relative_residual.
  apply convert_sign, SFdiv_sign; apply SFsqrt_sign, convert_sign; assumption.
Qed.

(** With a zero denominator the quotient is [+inf] or a NaN. *)
Lemma relative_residual_zero_denominator re re1 :
  sign_is false re -> sign_is false re1 ->
  is_zero (F64.sqrt (f2d re1)) ->
  relative_residual re re1 = S754_infinity false \/
  relative_residual re re1 = S754_nan.
Proof.
  intros H H1 Hz. unfold relative_residual.
  assert (Hs : sign_is false (F64.sqrt (f2d re1)))
    by (apply SFsqrt_sign, convert_sign; exact H1).
  destruct (F64.sqrt (f2d re1)) as [s | | |]; try contradiction.
  cbn in Hs. subst s.
  destruct (SFdiv_by_zero F64.prec F64.emax (F64.sqrt (f2d re))) as [E | E];
    [apply SFsqrt_sign, convert_sign; exact H | |];
    unfold F64.div; rewrite E; auto.
Qed.

(** * The iterations of a call *)

Section Call.
Variables (Input Output : block) (lambda : float32) (iter : Z)
          (epsil : float32) (methodTV nonneg printM dimX dimY dimZ : Z).

Local Abbreviation its :=
  (iterations_of_call Input Output lambda iter epsil methodTV nonneg
                      dimX dimY dimZ).
Local Abbreviation exit :=
  (loop_exit Input Output lambda iter epsil methodTV nonneg dimX dimY dimZ).

Lemma loop_exit_last w :
  exit w =
  (let r := last (its w)
                 (false, locals0,
                  allocated (if dimZ <=? 1 then 7%positive else 10%positive) w) in
   (snd (fst r), snd r)).
Proof.
  unfold loop_exit, iterations_of_call, loop2D, loop3D, iterations2D,
    iterations3D.
  destruct (dimZ <=? 1); apply for_break_last.
Qed.

Lemma TV_FGP_CPU_exit w :
  TV_FGP_CPU Input Output lambda iter epsil methodTV nonneg printM
             dimX dimY dimZ w =
  (let w' := report printM (fst (exit w)) (snd (exit w)) in
   (heap w' Output 0, w')).
Proof.
  rewrite TV_FGP_CPU_run. unfold loop_exit.
  destruct (dimZ <=? 1); [rewrite TV_FGP_2D_run | rewrite TV_FGP_3D_run];
    reflexivity.
Qed.

Lemma iterations_of_call_length w :
  (length (its w) <= Z.to_nat iter)%nat.
Proof.
  unfold iterations_of_call, iterations2D, iterations3D.
  destruct (dimZ <=? 1); apply trace_break_length.
Qed.

(** The memory at loop exit differs from the one at entry at most on
    [Output] and on the blocks allocated by the call. *)
Lemma loop_exit_frame w b k :
  b <> Output -> (b < nextblock w)%positive ->
  heap (snd (exit w)) b k = heap w b k.
Proof.
  intros Hb Hlt. unfold loop_exit.
  destruct (dimZ <=? 1).
  - destruct (loop2D_writes Input Output lambda iter epsil methodTV nonneg
                dimX dimY (fresh2D (nextblock w)) locals0 (allocated 7 w))
      as (_ & _ & H).
    rewrite H; [reflexivity |].
    cbn. intros [E | [E | [E | [E | [E | [E | [E | [E | []]]]]]]]]; lia.
  - destruct (loop3D_writes Input Output lambda iter epsil methodTV nonneg
                dimX dimY dimZ (fresh3D (nextblock w)) locals0 (allocated 10 w))
      as (_ & _ & H).
    rewrite H; [reflexivity |].
    cbn.
    intros [E | [E | [E | [E | [E | [E | [E | [E | [E | [E | [E | []]]]]]]]]]]];
      lia.
Qed.
End Call.

(** * Properties of the specification *)

(** ** Frame properties *)


(** A loop of zero iterations: nothing is executed and nothing changes. *)
Lemma nonpositive_cap_run :
  forall (Input Output : block) lambda iter epsil methodTV nonneg printM
         dimX dimY dimZ (w : world),
    iter <= 0 ->
    let r := TV_FGP_CPU Input Output lambda iter epsil methodTV nonneg printM
                        dimX dimY dimZ w in
    iterations_of_call Input Output lambda iter epsil methodTV nonneg
                       dimX dimY dimZ w = []
    /\ (forall b k, heap (snd r) b k = heap w b k)
    /\ fst r = heap w Output 0.
Proof.
  intros Input Output lambda iter epsil methodTV nonneg printM dimX dimY dimZ w
         Hiter r.
  assert (Hn : Z.to_nat iter = O) by lia.
  assert (Hexit : loop_exit Input Output lambda iter epsil methodTV nonneg
                            dimX dimY dimZ w
                  = (locals0,
                     allocated (if dimZ <=? 1 then 7%positive else 10%positive) w)).
  { unfold loop_exit, loop2D, loop3D. rewrite Hn. now destruct (dimZ <=? 1). }
  subst r. rewrite TV_FGP_CPU_exit, Hexit. cbv zeta. cbn [fst snd].
  rewrite report_heap. cbn [allocated heap].
  repeat split.
  unfold iterations_of_call, iterations2D, iterations3D. rewrite Hn.
  now destruct (dimZ <=? 1).
Qed.

(** C10 (no iteration when the cap is not positive): with [iter <= 0] the
    loop body is never executed, no cell of the memory is written (so
    [Output] keeps the contents it had at entry) and the value returned is
    the first sample [Output] held at entry. *)
Theorem C10_nonpositive_cap_runs_nothing :
  forall (Input Output : block) lambda iter epsil methodTV nonneg printM
         dimX dimY dimZ (w : world),
    iter <= 0 ->
    let r := TV_FGP_CPU Input Output lambda iter epsil methodTV nonneg printM
                        dimX dimY dimZ w in
    iterations_of_call Input Output lambda iter epsil methodTV nonneg
                       dimX dimY dimZ w = []
    /\ (forall b k, heap (snd r) b k = heap w b k)
    /\ fst r = heap w Output 0.
Proof. exact nonpositive_cap_run. Qed.

(** ** The stopping rule *)

Section Residual.
Variables (Input Output : block) (lambda : float32)
          (epsil : float32) (methodTV nonneg dimX dimY dimZ : Z).

(** The residual an iteration stores in [re] is the quotient of the
    square roots of two sums of squares; [re1] keeps the second sum. *)
Lemma step2D_residual b l w :
  let l1 := fst (step2D Input Output lambda epsil methodTV nonneg dimX dimY
                        b l w) in
  exists sre, sign_is false sre /\ sign_is false (re1 l1) /\
              re l1 = relative_residual sre (re1 l1).
Proof.
  unfold step2D. repeat rewrite bind_run. cbn [fst re re1 ret].
  match goal with |- context [residual_sums ?o ?p ?t ?w'] =>
    destruct (residual_sums_sign o p t w') as [H1 H2];
    exists (fst (fst (residual_sums o p t w'))) end.
  auto.
Qed.

Lemma step3D_residual b l w :
  let l1 := fst (step3D Input Output lambda epsil methodTV nonneg dimX dimY
                        dimZ b l w) in
  exists sre, sign_is false sre /\ sign_is false (re1 l1) /\
              re l1 = relative_residual sre (re1 l1).
Proof.
  unfold step3D. repeat rewrite bind_run. cbn [fst re re1 ret].
  match goal with |- context [residual_sums ?o ?p ?t ?w'] =>
    destruct (residual_sums_sign o p t w') as [H1 H2];
    exists (fst (fst (residual_sums o p t w'))) end.
  auto.
Qed.

Lemma step2D_ll b l w :
  ll (fst (step2D Input Output lambda epsil methodTV nonneg dimX dimY b l w))
  = ll l.
Proof. unfold step2D. repeat rewrite bind_run. reflexivity. Qed.

Lemma step3D_ll b l w :
  ll (fst (step3D Input Output lambda epsil methodTV nonneg dimX dimY dimZ
                  b l w)) = ll l.
Proof. unfold step3D. repeat rewrite bind_run. reflexivity. Qed.

(** The same facts for the whole body: the snapshot changes neither
    [re], [re1] nor [count]. *)
Lemma body2D_residual b l w :
  let l' := snd (fst (body2D Input Output lambda epsil methodTV nonneg
                             dimX dimY b l w)) in
  exists sre, sign_is false sre /\ sign_is false (re1 l') /\
              re l' = relative_residual sre (re1 l').
Proof.
  rewrite body2D_run. cbv zeta.
  destruct (4 <? _); cbn [fst snd stored re re1]; apply step2D_residual.
Qed.

Lemma body3D_residual b l w :
  let l' := snd (fst (body3D Input Output lambda epsil methodTV nonneg
                             dimX dimY dimZ b l w)) in
  exists sre, sign_is false sre /\ sign_is false (re1 l') /\
              re l' = relative_residual sre (re1 l').
Proof.
  rewrite body3D_run. cbv zeta.
  destruct (4 <? _); cbn [fst snd stored re re1]; apply step3D_residual.
Qed.

Lemma body2D_ll b l w :
  let r := body2D Input Output lambda epsil methodTV nonneg dimX dimY b l w in
  ll (snd (fst r)) = if fst (fst r) then ll l else ll l + 1.
Proof.
  rewrite body2D_run. cbv zeta.
  destruct (4 <? _); cbn [fst snd stored ll]; now rewrite step2D_ll.
Qed.

Lemma body3D_ll b l w :
  let r := body3D Input Output lambda epsil methodTV nonneg dimX dimY dimZ
                  b l w in
  ll (snd (fst r)) = if fst (fst r) then ll l else ll l + 1.
Proof.
  rewrite body3D_run. cbv zeta.
  destruct (4 <? _); cbn [fst snd stored ll]; now rewrite step3D_ll.
Qed.
End Residual.

(** A residual that is not negative is never below a zero tolerance. *)
Lemma bump_zero_tolerance sre re1 s c :
  sign_is false sre -> sign_is false re1 ->
  bump (relative_residual sre re1) (S754_zero s) c = c.
Proof.
  intros H H1. unfold bump, F32.ltb.
  now rewrite SFltb_zero_false by (apply relative_residual_sign; assumption).
Qed.

(** With a zero denominator the counter is left alone, whatever the
    tolerance. *)
Lemma bump_zero_denominator sre re1 epsil c :
  sign_is false sre -> sign_is false re1 -> is_zero (F64.sqrt (f2d re1)) ->
  bump (relative_residual sre re1) epsil c = c.
Proof.
  intros H H1 Hz. unfold bump, F32.ltb.
  destruct (relative_residual_zero_denominator sre re1 H H1 Hz) as [E | E];
    rewrite E; [now rewrite SFltb_inf_false | reflexivity].
Qed.

(** A loop whose iterations never raise the counter: it runs to its bound,
    never breaks, and [ll] ends at the bound. *)
Section Quiet.
Variable body : locals -> M (bool * locals).
Hypothesis body_break : forall l w,
  fst (fst (body l w)) = (4 <? count (snd (fst (body l w)))).
Hypothesis body_quiet : forall l w, count (snd (fst (body l w))) = count l.
Hypothesis body_ll : forall l w,
  ll (snd (fst (body l w))) = if fst (fst (body l w)) then ll l else ll l + 1.

Lemma quiet_trace n l w :
  count l <= 4 ->
  length (trace_break n body l w) = n /\
  Forall (fun r => fst (fst r) = false /\ count (snd (fst r)) = count l)
         (trace_break n body l w).
Proof.
  revert l w. induction n as [|n IH]; intros l w Hc; cbn.
  - split; [reflexivity | constructor].
  - assert (Hb : fst (fst (body l w)) = false).
    { rewrite body_break, body_quiet. lia. }
    rewrite Hb.
    destruct (IH (snd (fst (body l w))) (snd (body l w))) as [Hlen Hall].
    { rewrite body_quiet. exact Hc. }
    split; [cbn; now rewrite Hlen |].
    constructor; [split; [exact Hb | apply body_quiet] |].
    rewrite body_quiet in Hall. exact Hall.
Qed.

Lemma quiet_exit n l w :
  count l <= 4 ->
  count (fst (for_break n body l w)) = count l /\
  ll (fst (for_break n body l w)) = ll l + Z.of_nat n.
Proof.
  revert l w. induction n as [|n IH]; intros l w Hc; cbn [for_break].
  - cbn. split; [reflexivity | lia].
  - rewrite bind_run.
    assert (Hb : fst (fst (body l w)) = false).
    { rewrite body_break, body_quiet. lia. }
    rewrite Hb.
    destruct (IH (snd (fst (body l w))) (snd (body l w))) as [Hcnt Hll].
    { rewrite body_quiet. exact Hc. }
    rewrite Hcnt, Hll, body_quiet, body_ll, Hb. split; [reflexivity | lia].
Qed.
End Quiet.

Section ZeroTolerance.
Variables (Input Output : block) (lambda : float32)
          (methodTV nonneg dimX dimY dimZ : Z) (s : bool).

Lemma body2D_quiet b l w :
  count (snd (fst (body2D Input Output lambda (S754_zero s) methodTV nonneg
                          dimX dimY b l w))) = count l.
Proof.
  rewrite body2D_count.
  destruct (body2D_residual Input Output lambda (S754_zero s) methodTV nonneg
              dimX dimY b l w) as (sre & H & H1 & E).
  rewrite E. now apply bump_zero_tolerance.
Qed.

Lemma body3D_quiet b l w :
  count (snd (fst (body3D Input Output lambda (S754_zero s) methodTV nonneg
                          dimX dimY dimZ b l w))) = count l.
Proof.
  rewrite body3D_count.
  destruct (body3D_residual Input Output lambda (S754_zero s) methodTV nonneg
              dimX dimY dimZ b l w) as (sre & H & H1 & E).
  rewrite E. now apply bump_zero_tolerance.
Qed.
End ZeroTolerance.


Lemma snoc_case {A} (l : list A) : l = [] \/ exists l' a, l = l' ++ [a].
Proof.
  induction l as [|a l _] using rev_ind; [now left | right; eauto].
Qed.

Section CounterOfCall.
Variable epsil : float32.
Variable body : locals -> M (bool * locals).
Hypothesis body_count : forall l w,
  count (snd (fst (body l w))) =
  bump (re (snd (fst (body l w)))) epsil (count l).
Hypothesis body_break : forall l w,
  fst (fst (body l w)) = (4 <? count (snd (fst (body l w)))).

(** Every iteration but the last ends with the counter at 4 or less. *)
Lemma trace_earlier_le n l w p r q r' :
  trace_break n body l w = p ++ r :: q -> In r' p ->
  count (snd (fst r')) <= 4.
Proof.
  intros E Hin. apply in_split in Hin. destruct Hin as (p1 & p2 & ->).
  rewrite <- app_assoc in E. cbn in E.
  assert (Hb : fst (fst r') = (4 <? count (snd (fst r')))).
  { apply (trace_break_iff body body_break n l w). rewrite E.
    apply in_or_app. right. left. reflexivity. }
  destruct (fst (fst r')) eqn:Hbr; [| lia].
  apply (trace_break_stops body n l w p1 r' (p2 ++ r :: q)) in E; [| exact Hbr].
  destruct p2; discriminate.
Qed.

(** The counter an iteration starts from is the one the previous
    iteration ended with. *)
Lemma trace_count_step n l w p r q :
  trace_break n body l w = p ++ r :: q ->
  count (snd (fst r)) =
  bump (re (snd (fst r))) epsil (count (snd (fst (last p (false, l, w))))).
Proof.
  intros E. rewrite (trace_count epsil body body_count n l w p r q E).
  rewrite hits_app, hits_one. unfold bump, hit.
  assert (Hp : count (snd (fst (last p (false, l, w)))) = count l + hits epsil p).
  { destruct (snoc_case p) as [-> | (p' & r' & ->)].
    - cbn. unfold hits. cbn. lia.
    - rewrite last_last.
      rewrite <- app_assoc in E. cbn in E.
      apply (trace_count epsil body body_count n l w p' r' (r :: q) E). }
  rewrite Hp. destruct F32.ltb; lia.
Qed.
End CounterOfCall.

Lemma count_before_snoc p r : count_before (p ++ [r]) = count (snd (fst r)).
Proof. unfold count_before. rewrite map_app. cbn [map]. apply last_last. Qed.

Lemma count_before_last p w :
  count (snd (fst (last p (false, locals0, w)))) = count_before p.
Proof.
  destruct (snoc_case p) as [-> | (p' & r' & ->)]; [reflexivity |].
  now rewrite count_before_snoc, last_last.
Qed.

Section CallFacts.
Variables (Input Output : block) (lambda : float32) (iter : Z)
          (epsil : float32) (methodTV nonneg dimX dimY dimZ : Z).

Let its := iterations_of_call Input Output lambda iter epsil methodTV nonneg
                              dimX dimY dimZ.

Lemma call_iteration w p r q :
  its w = p ++ r :: q ->
  count (snd (fst r)) = hits epsil (p ++ [r])
  /\ count (snd (fst r)) = bump (re (snd (fst r))) epsil (count_before p)
  /\ fst (fst r) = (4 <? count (snd (fst r)))
  /\ (fst (fst r) = true -> q = [])
  /\ (forall r', In r' p -> count (snd (fst r')) <= 4).
Proof.
  unfold its, iterations_of_call, iterations2D, iterations3D.
  destruct (dimZ <=? 1); intros E.
  - pose proof (body2D_count Input Output lambda epsil methodTV nonneg
                  dimX dimY (fresh2D (nextblock w))) as Hc.
    pose proof (body2D_break Input Output lambda epsil methodTV nonneg
                  dimX dimY (fresh2D (nextblock w))) as Hb.
    repeat split.
    + now rewrite (trace_count epsil _ Hc _ _ _ _ _ _ E).
    + rewrite (trace_count_step epsil _ Hc _ _ _ _ _ _ E).
      f_equal. apply count_before_last.
    + apply (trace_break_iff _ Hb (Z.to_nat iter) locals0 (allocated 7 w) r).
      rewrite E. apply in_or_app. right. now left.
    + intros Hbr. eapply trace_break_stops; eauto.
    + intros r' Hin. eapply (trace_earlier_le _ Hb); eauto.
  - pose proof (body3D_count Input Output lambda epsil methodTV nonneg
                  dimX dimY dimZ (fresh3D (nextblock w))) as Hc.
    pose proof (body3D_break Input Output lambda epsil methodTV nonneg
                  dimX dimY dimZ (fresh3D (nextblock w))) as Hb.
    repeat split.
    + now rewrite (trace_count epsil _ Hc _ _ _ _ _ _ E).
    + rewrite (trace_count_step epsil _ Hc _ _ _ _ _ _ E).
      f_equal. apply count_before_last.
    + apply (trace_break_iff _ Hb (Z.to_nat iter) locals0 (allocated 10 w) r).
      rewrite E. apply in_or_app. right. now left.
    + intros Hbr. eapply trace_break_stops; eauto.
    + intros r' Hin. eapply (trace_earlier_le _ Hb); eauto.
Qed.

(** Every iteration of a call leaves in [re] the quotient of the square
    roots of two sums of squares, the second of which is kept in [re1]. *)
Lemma call_residual w r :
  In r (its w) ->
  exists sre, sign_is false sre /\ sign_is false (re1 (snd (fst r))) /\
              re (snd (fst r)) = relative_residual sre (re1 (snd (fst r))).
Proof.
  unfold its, iterations_of_call, iterations2D, iterations3D.
  set (P := fun r : bool * locals * world =>
    exists sre, sign_is false sre /\ sign_is false (re1 (snd (fst r))) /\
                re (snd (fst r)) = relative_residual sre (re1 (snd (fst r)))).
  intros Hin. change (P r). revert Hin.
  destruct (dimZ <=? 1); intros Hin;
    (eapply (proj1 (Forall_forall P _)); [| exact Hin]);
    apply trace_break_Forall; intros l' w'.
  - apply body2D_residual.
  - apply body3D_residual.
Qed.

Lemma call_short w :
  (length (its w) < Z.to_nat iter)%nat ->
  exists p r, its w = p ++ [r] /\ fst (fst r) = true.
Proof.
  unfold its, iterations_of_call, iterations2D, iterations3D.
  destruct (dimZ <=? 1); apply trace_break_short.
Qed.
End CallFacts.


(** C8 (zero denominator): in every call, an iteration whose denominator
    [sqrt(re1)] is exactly zero does not count as a hit: the counter keeps
    the value it had before the iteration and the iteration does not leave
    the loop. *)
Theorem C8_zero_denominator_suppresses_check :
  forall (Input Output : block) lambda iter epsil methodTV nonneg
         dimX dimY dimZ (w : world) p r q,
    iterations_of_call Input Output lambda iter epsil methodTV nonneg
                       dimX dimY dimZ w = p ++ r :: q ->
    is_zero (F64.sqrt (f2d (re1 (snd (fst r))))) ->
    hit epsil r = false
    /\ count (snd (fst r)) = count_before p
    /\ fst (fst r) = false.
Proof.
  intros Input Output lambda iter epsil methodTV nonneg dimX dimY dimZ w p r q
         E Hz.
  destruct (call_iteration _ _ _ _ _ _ _ _ _ _ _ _ _ _ E)
    as (H1 & H2 & H3 & H4 & H5).
  destruct (call_residual Input Output lambda iter epsil methodTV nonneg
              dimX dimY dimZ w r) as (sre & Hs & Hs1 & Hre).
  { rewrite E. apply in_or_app. right. now left. }
  assert (Hc : count (snd (fst r)) = count_before p).
  { rewrite H2, Hre. now apply bump_zero_denominator. }
  assert (Hh : hit epsil r = false).
  { unfold hit. rewrite Hre.
    generalize (bump_zero_denominator sre _ epsil 0 Hs Hs1 Hz).
    unfold bump. destruct F32.ltb; [lia | reflexivity]. }
  repeat split; auto.
  rewrite H3, Hc.
  destruct (snoc_case p) as [-> | (p' & r' & ->)]; [reflexivity |].
  rewrite count_before_snoc.
  assert (count (snd (fst r')) <= 4) by (apply H5, in_or_app; right; now left).
  lia.
Qed.

(** *** Concrete runs *)


Lemma C8_witness :
  let r := hd (false, locals0, demo_world F32.zero [] []) zero_image_run in
  zero_image_run = [] ++ r :: []
  /\ is_zero (F64.sqrt (f2d (re1 (snd (fst r)))))
  /\ hit two r = false /\ count (snd (fst r)) = count_before []
  /\ fst (fst r) = false.
Proof.
  intros r.
  assert (E : zero_image_run = [] ++ r :: []) by (vm_compute; reflexivity).
  assert (Z0 : is_zero (F64.sqrt (f2d (re1 (snd (fst r)))))) by (vm_compute; exact I).
  split; [exact E | split; [exact Z0 |]].
  exact (C8_zero_denominator_suppresses_check 1 2 F32.one 1 two 0 0 1 1 1
           (demo_world F32.zero [F32.zero] [F32.zero]) [] r [] E Z0).
Defined.


Lemma C10_witness :
  0 <= 0 /\
  let r := TV_FGP_CPU 1 2 F32.one 0 F32.zero 0 1 1 2 2 1
                      (demo_world F32.one [five; five; five; five] [two]) in
  iterations_of_call 1 2 F32.one 0 F32.zero 0 1 2 2 1
                     (demo_world F32.one [five; five; five; five] [two]) = []
  /\ (forall b k, heap (snd r) b k
                  = heap (demo_world F32.one [five; five; five; five] [two]) b k)
  /\ fst r = heap (demo_world F32.one [five; five; five; five] [two]) 2%positive 0.
Proof.
  split; [lia |].
  apply C10_nonpositive_cap_runs_nothing. lia.
Defined.

(** ** Non-negativity *)

(** After the clamp no sample of the grid is [< 0]. *)
Lemma clamp_post Output total w k :
  0 <= k < total ->
  (heap (snd (clamp Output 1 total w)) Output k <? F32.zero)%f32 = false.
Proof.
  intros Hk. unfold clamp. cbn [Z.eqb Pos.eqb].
  assert (Ht : 0 <= total) by lia.
  revert k Hk.
  apply (for_inv (fun j w' => forall k, 0 <= k < j ->
                    (heap w' Output k <? F32.zero)%f32 = false));
    [exact Ht | lia |].
  intros j w' Hj IH k Hk. unfold bind, load.
  destruct (heap w' Output j <? F32.zero)%f32 eqn:Hlt; cbn [snd store ret heap].
  - destruct (Z.eq_dec k j) as [-> | Hne].
    + now rewrite upd_same.
    + rewrite upd_other_index by exact Hne. apply IH. lia.
  - destruct (Z.eq_dec k j) as [-> | Hne]; [exact Hlt | apply IH; lia].
Qed.

Section NonNegativity.
Variables (Input Output : block) (lambda : float32)
          (epsil : float32) (methodTV dimX dimY dimZ : Z).

Ltac writes_call L :=
  eapply writes_incl; [| apply L]; intros x Hx; simpl in *; tauto.

(** After the clamp, an iteration writes only buffers of the driver. *)
Lemma step2D_nonneg b l w k :
  ~ In Output (blocks2D b) -> 0 <= k < dimX * dimY ->
  (heap (snd (step2D Input Output lambda epsil methodTV 1 dimX dimY b l w))
        Output k <? F32.zero)%f32 = false.
Proof.
  intros Hout Hk. unfold step2D. rewrite bind_run, bind_run.
  match goal with |- context [snd (?c (snd (clamp ?o ?n ?t ?w1)))] =>
    assert (Hw : writes (blocks2D b) c); [| destruct (Hw (snd (clamp o n t w1)))
                                             as (_ & _ & H); rewrite H by exact Hout]
  end.
  - apply writes_bind; [writes_call Grad_func2D_writes | intros _].
    apply writes_bind; [writes_call Proj_func2D_writes | intros _].
    cbv zeta.
    apply writes_bind; [writes_call Rupd_func2D_writes | intros _].
    apply writes_bind; [writes_call residual_sums_writes | intros sums].
    apply writes_ret.
  - now apply clamp_post.
Qed.

Lemma store2D_writes_bufs b l : writes (blocks2D b) (store2D Output dimX dimY b l).
Proof.
  unfold store2D.
  repeat (apply writes_bind; [writes_call copyIm_writes | intros _]).
  apply writes_ret.
Qed.

Lemma body2D_nonneg b l w k :
  ~ In Output (blocks2D b) -> 0 <= k < dimX * dimY ->
  (heap (snd (body2D Input Output lambda epsil methodTV 1 dimX dimY b l w))
        Output k <? F32.zero)%f32 = false.
Proof.
  intros Hout Hk. rewrite body2D_run. cbv zeta.
  destruct (4 <? _); cbn [snd].
  - now apply step2D_nonneg.
  - destruct (store2D_writes_bufs b
                (fst (step2D Input Output lambda epsil methodTV 1 dimX dimY b l w))
                (snd (step2D Input Output lambda epsil methodTV 1 dimX dimY b l w)))
      as (_ & _ & H).
    rewrite H by exact Hout. now apply step2D_nonneg.
Qed.

Lemma step3D_nonneg b l w k :
  ~ In Output (blocks3D b) -> 0 <= k < dimX * dimY * dimZ ->
  (heap (snd (step3D Input Output lambda epsil methodTV 1 dimX dimY dimZ b l w))
        Output k <? F32.zero)%f32 = false.
Proof.
  intros Hout Hk. unfold step3D. rewrite bind_run, bind_run.
  match goal with |- context [snd (?c (snd (clamp ?o ?n ?t ?w1)))] =>
    assert (Hw : writes (blocks3D b) c); [| destruct (Hw (snd (clamp o n t w1)))
                                             as (_ & _ & H); rewrite H by exact Hout]
  end.
  - apply writes_bind; [writes_call Grad_func3D_writes | intros _].
    apply writes_bind; [writes_call Proj_func3D_writes | intros _].
    cbv zeta.
    apply writes_bind; [writes_call Rupd_func3D_writes | intros _].
    apply writes_bind; [writes_call residual_sums_writes | intros sums].
    apply writes_ret.
  - now apply clamp_post.
Qed.

Lemma store3D_writes_bufs b l :
  writes (blocks3D b) (store3D Output dimX dimY dimZ b l).
Proof.
  unfold store3D.
  repeat (apply writes_bind; [writes_call copyIm_writes | intros _]).
  apply writes_ret.
Qed.

Lemma body3D_nonneg b l w k :
  ~ In Output (blocks3D b) -> 0 <= k < dimX * dimY * dimZ ->
  (heap (snd (body3D Input Output lambda epsil methodTV 1 dimX dimY dimZ b l w))
        Output k <? F32.zero)%f32 = false.
Proof.
  intros Hout Hk. rewrite body3D_run. cbv zeta.
  destruct (4 <? _); cbn [snd].
  - now apply step3D_nonneg.
  - destruct (store3D_writes_bufs b
                (fst (step3D Input Output lambda epsil methodTV 1 dimX dimY dimZ
                             b l w))
                (snd (step3D Input Output lambda epsil methodTV 1 dimX dimY dimZ
                             b l w)))
      as (_ & _ & H).
    rewrite H by exact Hout. now apply step3D_nonneg.
Qed.
End NonNegativity.

Lemma fresh2D_not_in Output n :
  (Output < n)%positive -> ~ In Output (blocks2D (fresh2D n)).
Proof.
  intros Hlt. cbn. intros H.
  repeat (destruct H as [E | H]; [lia |]). exact H.
Qed.

Lemma fresh3D_not_in Output n :
  (Output < n)%positive -> ~ In Output (blocks3D (fresh3D n)).
Proof.
  intros Hlt. cbn. intros H.
  repeat (destruct H as [E | H]; [lia |]). exact H.
Qed.

(** At the end of every iteration of a call with the flag on, no sample of
    [Output] is [< 0]. *)
Lemma call_nonneg Input Output lambda iter epsil methodTV dimX dimY dimZ w :
  (Output < nextblock w)%positive ->
  Forall (fun r => forall k, 0 <= k < total_samples dimX dimY dimZ ->
                     (heap (snd r) Output k <? F32.zero)%f32 = false)
         (iterations_of_call Input Output lambda iter epsil methodTV 1
                             dimX dimY dimZ w).
Proof.
  intros Hlt. unfold iterations_of_call, iterations2D, iterations3D, total_samples.
  destruct (dimZ <=? 1); apply trace_break_Forall; intros l' w' k Hk.
  - apply body2D_nonneg; [now apply fresh2D_not_in | exact Hk].
  - apply body3D_nonneg; [now apply fresh3D_not_in | exact Hk].
Qed.


(** ** The projection operator *)

(** *** Loops that rewrite cells in place *)

(** A loop whose iterations act on pairwise disjoint index sets acts on
    their union. *)
Lemma acts_on_for bs (T : Z -> Z -> Prop) f lo hi (body : Z -> M unit) :
  (forall k k' x, lo <= k < hi -> lo <= k' < hi -> T k x -> T k' x -> k = k') ->
  (forall k, lo <= k < hi -> acts_on bs (T k) f (body k)) ->
  acts_on bs (fun x => exists k, lo <= k < hi /\ T k x) f (for_ lo hi body).
Proof.
  intros Hdisj Hbody w.
  destruct (Z.le_gt_cases lo hi) as [Hle | Hgt].
  2:{ unfold for_. rewrite for_fold_empty by lia. cbn [snd].
      split; [intros x (k & Hk & _); lia | reflexivity]. }
  assert (Hinv :
    (forall k x, lo <= k < hi -> T k x ->
                 vals bs (snd (for_ lo hi body w)) x = f (vals bs w x)) /\
    (forall x, (forall k, lo <= k < hi -> ~ T k x) ->
               vals bs (snd (for_ lo hi body w)) x = vals bs w x)).
  { apply (for_inv (fun j w' =>
        (forall k x, lo <= k < j -> T k x -> vals bs w' x = f (vals bs w x)) /\
        (forall x, (forall k, lo <= k < j -> ~ T k x) ->
                   vals bs w' x = vals bs w x))); [exact Hle | |].
    - split; [intros k x Hk; lia | reflexivity].
    - intros j w' Hj [IH1 IH2].
      destruct (Hbody j Hj w') as [B1 B2].
      split.
      + intros k x Hk HT.
        destruct (Z.eq_dec k j) as [-> | Hne].
        * rewrite (B1 x HT). f_equal. apply IH2.
          intros k' Hk' HT'. assert (k' = j) by (apply (Hdisj k' j x); auto; lia).
          lia.
        * rewrite B2.
          -- apply (IH1 k); [lia | exact HT].
          -- intros HT'. apply Hne. apply (Hdisj k j x); auto; lia.
      + intros x Hx. rewrite B2 by (apply Hx; lia).
        apply IH2. intros k Hk. apply Hx. lia. }
  destruct Hinv as [H1 H2]. split.
  - intros x (k & Hk & HT). now apply (H1 k).
  - intros x Hx. apply H2. intros k Hk HT. apply Hx. eauto.
Qed.

Lemma acts_on_ext {A} bs (T T' : Z -> Prop) f (c : M A) :
  (forall x, T x <-> T' x) -> acts_on bs T f c -> acts_on bs T' f c.
Proof.
  intros HT Hc w. destruct (Hc w) as [H1 H2]. split; intros x Hx.
  - apply H1, HT, Hx.
  - apply H2. intro. apply Hx, HT. assumption.
Qed.

(** *** The projection of one grid position *)

Lemma acts_on_then_ret {A B} bs T f (c : M A) (v : B) :
  acts_on bs T f c -> acts_on bs T f (c ;; ret v).
Proof. intros Hc w. rewrite bind_run. apply Hc. Qed.

Ltac upd_simpl :=
  repeat first
    [ rewrite upd_same
    | rewrite upd_other_block by congruence
    | rewrite upd_other_index by congruence ].

(** *** The loops of [Proj_func2D] and [Proj_func3D], position by position *)

Section Proj2D.
Variables (P1 P2 : block) (methTV dimX dimY : Z).
Hypothesis P1_P2 : P1 <> P2.

Lemma proj2D_iso_leaf x :
  (methTV =? 0) = true ->
  acts_on [P1; P2] (fun y => y = x) (proj2D methTV)
    (p1 <- load P1 x ;;
     p2 <- load P2 x ;;
     let denom := denom2D p1 p2 in
     if (denom >? F32.one)%f32 then
       let sq_denom := sq_denom_of denom in
       p1 <- load P1 x ;;
       store P1 x (p1 * sq_denom)%f32 ;;
       p2 <- load P2 x ;;
       store P2 x (p2 * sq_denom)%f32
     else ret tt).
Proof.
  intros E w. unfold bind, load. cbn [fst snd]. cbv zeta.
  split; intros y Hy; [subst y |];
    unfold vals, proj2D; cbn [map]; rewrite ?E;
    cbv [proj_iso2 binary32_arith pa_sqsum2 pa_gt_one pa_rsqrt pa_mul];
    destruct (denom2D (heap w P1 x) (heap w P2 x) >? F32.one)%f32;
    unfold store, ret; cbn [fst snd heap]; upd_simpl; reflexivity.
Qed.

Lemma proj2D_aniso_leaf x :
  (methTV =? 0) = false ->
  acts_on [P1; P2] (fun y => y = x) (proj2D methTV)
    (p1 <- load P1 x ;;
     let val1 := fabsf p1 in
     p2 <- load P2 x ;;
     let val2 := fabsf p2 in
     let val1 := at_least_one val1 in
     let val2 := at_least_one val2 in
     p1 <- load P1 x ;;
     store P1 x (p1 / val1)%f32 ;;
     p2 <- load P2 x ;;
     store P2 x (p2 / val2)%f32).
Proof.
  intros E w. unfold bind, load, store. cbn [fst snd heap]. cbv zeta.
  split; intros y Hy; [subst y |];
    unfold vals, proj2D, proj_aniso; cbn [map heap]; rewrite ?E;
    upd_simpl; reflexivity.
Qed.

Lemma Proj_func2D_acts :
  acts_on [P1; P2]
    (fun x => exists i, 0 <= i < dimX /\
              exists j, 0 <= j < dimY /\ x = index2D dimX i j)
    (proj2D methTV) (Proj_func2D P1 P2 methTV dimX dimY).
Proof.
  unfold Proj_func2D. apply acts_on_then_ret.
  destruct (methTV =? 0) eqn:E.
  - apply (acts_on_for [P1; P2]
             (fun i x => exists j, 0 <= j < dimY /\ x = index2D dimX i j)).
    + intros i i' x Hi Hi' (j & Hj & ->) (j' & Hj' & E'). unfold index2D in E'.
      assert (j = j') by nia. lia.
    + intros i Hi.
      apply (acts_on_for [P1; P2] (fun j x => x = index2D dimX i j)).
      * intros j j' x Hj Hj' -> E'. unfold index2D in E'. nia.
      * intros j Hj. cbv zeta. now apply proj2D_iso_leaf.
  - apply (acts_on_for [P1; P2]
             (fun i x => exists j, 0 <= j < dimY /\ x = index2D dimX i j)).
    + intros i i' x Hi Hi' (j & Hj & ->) (j' & Hj' & E'). unfold index2D in E'.
      assert (j = j') by nia. lia.
    + intros i Hi.
      apply (acts_on_for [P1; P2] (fun j x => x = index2D dimX i j)).
      * intros j j' x Hj Hj' -> E'. unfold index2D in E'. nia.
      * intros j Hj. cbv zeta. now apply proj2D_aniso_leaf.
Qed.

(** After [Proj_func2D] every grid position holds the projection of the
    pair it held before. *)
Lemma Proj_func2D_pointwise w i j :
  0 <= i < dimX -> 0 <= j < dimY ->
  vals [P1; P2] (snd (Proj_func2D P1 P2 methTV dimX dimY w)) (index2D dimX i j)
  = proj2D methTV (vals [P1; P2] w (index2D dimX i j)).
Proof.
  intros Hi Hj. destruct (Proj_func2D_acts w) as [H _]. apply H.
  exists i. split; [exact Hi |]. exists j. split; [exact Hj | reflexivity].
Qed.
End Proj2D.

Section Proj3D.
Variables (P1 P2 P3 : block) (methTV dimX dimY dimZ : Z).
Hypothesis P1_P2 : P1 <> P2.
Hypothesis P1_P3 : P1 <> P3.
Hypothesis P2_P3 : P2 <> P3.

Lemma proj3D_iso_leaf x :
  (methTV =? 0) = true ->
  acts_on [P1; P2; P3] (fun y => y = x) (proj3D methTV)
    (p1 <- load P1 x ;;
     p2 <- load P2 x ;;
     p3 <- load P3 x ;;
     let denom := denom3D p1 p2 p3 in
     if (denom >? F32.one)%f32 then
       let sq_denom := sq_denom_of denom in
       p1 <- load P1 x ;;
       store P1 x (p1 * sq_denom)%f32 ;;
       p2 <- load P2 x ;;
       store P2 x (p2 * sq_denom)%f32 ;;
       p3 <- load P3 x ;;
       store P3 x (p3 * sq_denom)%f32
     else ret tt).
Proof.
  intros E w. unfold bind, load. cbn [fst snd]. cbv zeta.
  split; intros y Hy; [subst y |];
    unfold vals, proj3D; cbn [map]; rewrite ?E;
    cbv [proj_iso3 binary32_arith pa_sqsum3 pa_gt_one pa_rsqrt pa_mul];
    destruct (denom3D (heap w P1 x) (heap w P2 x) (heap w P3 x) >? F32.one)%f32;
    unfold store, ret; cbn [fst snd heap]; upd_simpl; reflexivity.
Qed.

Lemma proj3D_aniso_leaf x :
  (methTV =? 0) = false ->
  acts_on [P1; P2; P3] (fun y => y = x) (proj3D methTV)
    (p1 <- load P1 x ;;
     let val1 := fabsf p1 in
     p2 <- load P2 x ;;
     let val2 := fabsf p2 in
     p3 <- load P3 x ;;
     let val3 := fabsf p3 in
     let val1 := at_least_one val1 in
     let val2 := at_least_one val2 in
     let val3 := at_least_one val3 in
     p1 <- load P1 x ;;
     store P1 x (p1 / val1)%f32 ;;
     p2 <- load P2 x ;;
     store P2 x (p2 / val2)%f32 ;;
     p3 <- load P3 x ;;
     store P3 x (p3 / val3)%f32).
Proof.
  intros E w. unfold bind, load, store. cbn [fst snd heap]. cbv zeta.
  split; intros y Hy; [subst y |];
    unfold vals, proj3D, proj_aniso; cbn [map heap]; rewrite ?E;
    upd_simpl; reflexivity.
Qed.

Lemma index3D_inj i j k i' j' k' :
  0 <= i < dimX -> 0 <= j < dimY -> 0 <= i' < dimX -> 0 <= j' < dimY ->
  index3D dimX dimY i j k = index3D dimX dimY i' j' k' -> i = i' /\ j = j' /\ k = k'.
Proof.
  unfold index3D. intros Hi Hj Hi' Hj' E.
  assert (E1 : dimX * (dimY * k + j) + i = dimX * (dimY * k' + j') + i') by lia.
  assert (E2 : dimY * k + j = dimY * k' + j') by nia.
  assert (E3 : k = k') by nia.
  subst k'. split; [nia | split; [nia | reflexivity]].
Qed.

Lemma Proj_func3D_acts :
  acts_on [P1; P2; P3]
    (fun x => exists i, 0 <= i < dimX /\ exists j, 0 <= j < dimY /\
              exists k, 0 <= k < dimZ /\ x = index3D dimX dimY i j k)
    (proj3D methTV) (Proj_func3D P1 P2 P3 methTV dimX dimY dimZ).
Proof.
  unfold Proj_func3D. apply acts_on_then_ret.
  destruct (methTV =? 0) eqn:E.
  - apply (acts_on_for [P1; P2; P3]
             (fun i x => exists j, 0 <= j < dimY /\
                         exists k, 0 <= k < dimZ /\ x = index3D dimX dimY i j k)).
    + intros i i' x Hi Hi' (j & Hj & k & Hk & ->) (j' & Hj' & k' & Hk' & E').
      now apply index3D_inj in E'.
    + intros i Hi.
      apply (acts_on_for [P1; P2; P3]
               (fun j x => exists k, 0 <= k < dimZ /\ x = index3D dimX dimY i j k)).
      * intros j j' x Hj Hj' (k & Hk & ->) (k' & Hk' & E').
        now apply index3D_inj in E'.
      * intros j Hj.
        apply (acts_on_for [P1; P2; P3] (fun k x => x = index3D dimX dimY i j k)).
        -- intros k k' x Hk Hk' -> E'. now apply index3D_inj in E'.
        -- intros k Hk. cbv zeta. now apply proj3D_iso_leaf.
  - apply (acts_on_for [P1; P2; P3]
             (fun i x => exists j, 0 <= j < dimY /\
                         exists k, 0 <= k < dimZ /\ x = index3D dimX dimY i j k)).
    + intros i i' x Hi Hi' (j & Hj & k & Hk & ->) (j' & Hj' & k' & Hk' & E').
      now apply index3D_inj in E'.
    + intros i Hi.
      apply (acts_on_for [P1; P2; P3]
               (fun j x => exists k, 0 <= k < dimZ /\ x = index3D dimX dimY i j k)).
      * intros j j' x Hj Hj' (k & Hk & ->) (k' & Hk' & E').
        now apply index3D_inj in E'.
      * intros j Hj.
        apply (acts_on_for [P1; P2; P3] (fun k x => x = index3D dimX dimY i j k)).
        -- intros k k' x Hk Hk' -> E'. now apply index3D_inj in E'.
        -- intros k Hk. cbv zeta. now apply proj3D_aniso_leaf.
Qed.

Lemma Proj_func3D_pointwise w i j k :
  0 <= i < dimX -> 0 <= j < dimY -> 0 <= k < dimZ ->
  vals [P1; P2; P3] (snd (Proj_func3D P1 P2 P3 methTV dimX dimY dimZ w))
       (index3D dimX dimY i j k)
  = proj3D methTV (vals [P1; P2; P3] w (index3D dimX dimY i j k)).
Proof.
  intros Hi Hj Hk. destruct (Proj_func3D_acts w) as [H _]. apply H.
  exists i. split; [exact Hi |]. exists j. split; [exact Hj |].
  exists k. split; [exact Hk | reflexivity].
Qed.
End Proj3D.

(** *** Binary32 facts about the anisotropic projection *)

Lemma div_eucl_exact a b q : 0 < b -> a = q * b -> Z.div_eucl a b = (q, 0).
Proof.
  intros Hb ->.
  pose proof (Z.div_mul q b ltac:(lia)) as Hd.
  pose proof (Z.mod_mul q b ltac:(lia)) as Hm.
  unfold Z.div, Z.modulo in Hd, Hm.
  destruct (Z.div_eucl (q * b) b) as [q' r']. cbn in Hd, Hm. now subst.
Qed.

Lemma new_location_exact n : new_location n 0 = loc_Exact.
Proof. unfold new_location. destruct (Z.even n); reflexivity. Qed.

(** Rounding leaves a canonical mantissa alone. *)
Lemma shr_fexp_canonical prec emax m e l :
  fexp prec emax (Zdigits2 m + e) = e ->
  shr_fexp prec emax m e l = (shr_record_of_loc m l, e).
Proof. intros H. unfold shr_fexp. rewrite H, Z.sub_diag. reflexivity. Qed.

Lemma binary_round_aux_canonical prec emax s m e :
  bounded prec emax m e = true ->
  binary_round_aux prec emax s (Z.pos m) e loc_Exact = S754_finite s m e.
Proof.
  unfold bounded, canonical_mantissa. intros H.
  apply andb_prop in H. destruct H as [Hc He].
  apply Z.eqb_eq in Hc.
  unfold binary_round_aux.
  rewrite (shr_fexp_canonical prec emax (Z.pos m) e loc_Exact) by exact Hc.
  cbn [shr_record_of_loc shr_m loc_of_shr_record round_nearest_even].
  rewrite (shr_fexp_canonical prec emax (Z.pos m) e loc_Exact) by exact Hc.
  cbn [shr_record_of_loc shr_m]. now rewrite He.
Qed.

(** [x / |x|] is [1] with the sign of [x]. *)
Lemma F32_div_self s m e :
  F32.div (S754_finite s m e) (S754_finite false m e)
  = S754_finite s 8388608 (-23).
Proof.
  unfold F32.div, SFdiv, SFdiv_core_binary. cbv zeta.
  replace (Zdigits2 (Z.pos m) + e - (Zdigits2 (Z.pos m) + e)) with 0 by lia.
  rewrite Z.sub_diag.
  change (Z.min (fexp F32.prec F32.emax 0) 0) with (-24).
  change (0 - -24) with 24.
  cbv iota beta.
  rewrite (div_eucl_exact (Z.shiftl (Z.pos m) 24) (Z.pos m) 16777216).
  - rewrite new_location_exact. destruct s; reflexivity.
  - lia.
  - rewrite Z.shiftl_mul_pow2 by lia. lia.
Qed.

(** [x / 1.0f] is [x], for a binary32 value [x]. *)
Lemma F32_div_one s m e :
  bounded F32.prec F32.emax m e = true ->
  F32.div (S754_finite s m e) F32.one = S754_finite s m e.
Proof.
  intros Hb. pose proof Hb as Hb'.
  unfold bounded, canonical_mantissa in Hb'.
  apply andb_prop in Hb'. destruct Hb' as [Hc He].
  apply Z.eqb_eq in Hc. apply Z.leb_le in He.
  unfold fexp, emin, F32.prec, F32.emax in Hc, He.
  unfold F32.div, F32.one, SFdiv, SFdiv_core_binary. cbv zeta.
  change (Zdigits2 (Z.pos m)) with (Z.pos (digits2_pos m)).
  change (Zdigits2 8388608) with 24.
  set (d := Z.pos (digits2_pos m)) in *.
  rewrite xorb_false_r.
  destruct (Z.eq_dec e (-149)) as [-> | Hne].
  - (* smallest exponent *)
    replace (Z.min (fexp F32.prec F32.emax (d + -149 - (24 + -23))) (-149 - -23))
      with (-149) by (unfold fexp, emin, F32.prec, F32.emax; lia).
    change (-149 - -23 - -149) with 23. cbv iota beta.
    rewrite (div_eucl_exact (Z.shiftl (Z.pos m) 23) 8388608 (Z.pos m));
      [| lia | rewrite Z.shiftl_mul_pow2 by lia; lia].
    rewrite new_location_exact. apply binary_round_aux_canonical. exact Hb.
  - assert (Hd : d = 24) by lia.
    replace (Z.min (fexp F32.prec F32.emax (d + e - (24 + -23))) (e - -23))
      with (e - 1) by (unfold fexp, emin, F32.prec, F32.emax; lia).
    replace (e - -23 - (e - 1)) with 24 by lia. cbv iota beta.
    rewrite (div_eucl_exact (Z.shiftl (Z.pos m) 24) 8388608 (Z.pos m~0));
      [| lia | rewrite Z.shiftl_mul_pow2 by lia; lia].
    rewrite new_location_exact.
    unfold binary_round_aux.
    assert (E1 : shr_fexp F32.prec F32.emax (Z.pos m~0) (e - 1) loc_Exact
                 = (Build_shr_record (Z.pos m) false false, e)).
    { unfold shr_fexp. cbn [Zdigits2 digits2_pos].
      rewrite Pos2Z.inj_succ. fold d.
      replace (fexp F32.prec F32.emax (Z.succ d + (e - 1)) - (e - 1)) with 1
        by (unfold fexp, emin, F32.prec, F32.emax; lia).
      cbn. f_equal. lia. }
    rewrite E1.
    cbn [shr_record_of_loc shr_m loc_of_shr_record round_nearest_even].
    rewrite (shr_fexp_canonical F32.prec F32.emax (Z.pos m) e loc_Exact).
    + cbn [shr_record_of_loc shr_m].
      replace (e <=? F32.emax - F32.prec) with true; [reflexivity |].
      symmetry. apply Z.leb_le. unfold F32.prec, F32.emax. lia.
    + cbn [Zdigits2]. fold d. unfold fexp, emin, F32.prec, F32.emax. lia.
Qed.

(** A finite component comes out of the anisotropic projection with
    magnitude at most 1, and unchanged if its magnitude was at most 1. *)
Lemma proj_aniso_finite x :
  F32.valid x = true -> is_finite x = true ->
  F32.leb (fabsf (proj_aniso x)) F32.one = true /\
  (F32.leb (fabsf x) F32.one = true -> proj_aniso x = x).
Proof.
  destruct x as [s | s | | s m e]; try discriminate; intros Hv _.
  - destruct s; split; reflexivity.
  - unfold proj_aniso, fabsf, at_least_one. cbn [SFabs].
    destruct (S754_finite false m e <? F32.one)%f32 eqn:L.
    + rewrite F32_div_one by exact Hv. split; [| reflexivity].
      cbn [SFabs]. revert L. unfold F32.ltb, F32.leb, SFltb, SFleb.
      destruct (SFcompare (S754_finite false m e) F32.one) as [[| |]|];
        intros; congruence.
    + rewrite F32_div_self. split; [reflexivity |].
      revert L. unfold F32.ltb, F32.leb, SFltb, SFleb, F32.one. cbn [SFcompare].
      destruct (e ?= -23) eqn:Ce; try discriminate.
      apply Z.compare_eq in Ce. subst e.
      destruct (Pos.compare_cont Eq m 8388608) eqn:Cm; try discriminate.
      apply Pos.compare_eq in Cm. now subst m.
Qed.

(** An infinite or NaN component comes out as a NaN. *)
Lemma proj_aniso_not_finite x : is_finite x = false -> proj_aniso x = S754_nan.
Proof.
  destruct x as [s | s | | s m e]; try discriminate; intros _; reflexivity.
Qed.

(** *** The isotropic projection in exact arithmetic *)

Lemma rsqrt_sqr (d : R) : (1 < d)%R -> (d * (1 / sqrt d * (1 / sqrt d)) = 1)%R.
Proof.
  intros Hd.
  assert (Hs : (0 < sqrt d)%R) by (apply sqrt_lt_R0; lra).
  assert (Hss : (sqrt d * sqrt d = d)%R) by (apply sqrt_sqrt; lra).
  rewrite <- Hss at 1. field. lra.
Qed.

Lemma proj_iso2_exact (p1 p2 : R) :
  let q := proj_iso2 p1 p2 in
  (fst q * fst q + snd q * snd q <= 1)%R.
Proof.
  cbv [proj_iso2 exact_arith pa_sqsum2 pa_gt_one pa_rsqrt pa_mul].
  destruct (Rlt_dec 1 (p1 * p1 + p2 * p2)) as [H | H]; cbn [fst snd]; [| lra].
  pose proof (rsqrt_sqr _ H) as E.
  set (s := (1 / sqrt (p1 * p1 + p2 * p2))%R) in *.
  replace (p1 * s * (p1 * s) + p2 * s * (p2 * s))%R
    with ((p1 * p1 + p2 * p2) * (s * s))%R by ring.
  lra.
Qed.

Lemma proj_iso3_exact (p1 p2 p3 : R) :
  let q := proj_iso3 p1 p2 p3 in
  (fst (fst q) * fst (fst q) + snd (fst q) * snd (fst q) + snd q * snd q <= 1)%R.
Proof.
  cbv [proj_iso3 exact_arith pa_sqsum3 pa_gt_one pa_rsqrt pa_mul].
  destruct (Rlt_dec 1 (p1 * p1 + p2 * p2 + p3 * p3)) as [H | H];
    cbn [fst snd]; [| lra].
  pose proof (rsqrt_sqr _ H) as E.
  set (s := (1 / sqrt (p1 * p1 + p2 * p2 + p3 * p3))%R) in *.
  replace (p1 * s * (p1 * s) + p2 * s * (p2 * s) + p3 * s * (p3 * s))%R
    with ((p1 * p1 + p2 * p2 + p3 * p3) * (s * s))%R by ring.
  lra.
Qed.

(** *** Exact values *)





(** ** Constant images

    With the duals at zero a constant image is a fixed point of every
    operator of the iteration. *)

Lemma mul_zero_r x :
  is_finite x = true -> exists s, (x * F32.zero)%f32 = S754_zero s.
Proof. destruct x as [s | s | | s m e]; try discriminate; intros _; cbn; eauto. Qed.

Lemma add_zero_l s : (F32.zero + S754_zero s)%f32 = F32.zero.
Proof. now destruct s. Qed.

Lemma sub_zero_r s m e s' :
  (S754_finite s m e - S754_zero s')%f32 = S754_finite s m e.
Proof. reflexivity. Qed.

Lemma sub_self s m e : (S754_finite s m e - S754_finite s m e)%f32 = F32.zero.
Proof.
  unfold F32.sub, SFsub. cbv zeta. rewrite Z.sub_diag. reflexivity.
Qed.

(** [R + multip * 0] is [+0] when [R] is [+0] and [multip] is finite. *)
Lemma add_mul_zero x :
  is_finite x = true -> (F32.zero + x * F32.zero)%f32 = F32.zero.
Proof. intros H. destruct (mul_zero_r x H) as [s ->]. apply add_zero_l. Qed.

Lemma for_inv_max (I : Z -> world -> Prop) (body : Z -> M unit) lo hi w :
  I lo w ->
  (forall k w', lo <= k < hi -> I k w' -> I (k + 1) (snd (body k w'))) ->
  I (Z.max lo hi) (snd (for_ lo hi body w)).
Proof.
  intros H0 Hstep. destruct (Z.le_gt_cases lo hi) as [Hle | Hgt].
  - rewrite Z.max_r by lia. now apply for_inv.
  - rewrite Z.max_l by lia. unfold for_. now rewrite for_fold_empty by lia.
Qed.

Lemma for_post (I : Z -> world -> Prop) (Q : world -> Prop)
    (body : Z -> M unit) lo hi w :
  I lo w ->
  (forall k w', lo <= k < hi -> I k w' -> I (k + 1) (snd (body k w'))) ->
  (forall w', I (Z.max lo hi) w' -> Q w') ->
  Q (snd (for_ lo hi body w)).
Proof. intros H0 Hstep HQ. apply HQ. now apply for_inv_max. Qed.

Ltac run_leaf :=
  cbv zeta; repeat rewrite bind_run;
  repeat match goal with
         | |- context [if ?b then ret _ else _] => destruct b
         end;
  cbn [load ret store fst snd heap].

Lemma zero_block_frame bs w w' b :
  frame bs w w' -> ~ In b bs -> zero_block w b -> zero_block w' b.
Proof. intros (_ & _ & H) Hb Hz k. rewrite H by exact Hb. apply Hz. Qed.

Lemma const_on_grid_frame bs w w' b dimX dimY c :
  frame bs w w' -> ~ In b bs ->
  const_on_grid w b dimX dimY c -> const_on_grid w' b dimX dimY c.
Proof. intros (_ & _ & H) Hb Hc i j Hi Hj. rewrite H by exact Hb. now apply Hc. Qed.

Lemma upd_const (h : mem) D x c y :
  h D y = c \/ y = x -> upd h D x c D y = c.
Proof.
  intros [H | ->]; [| apply upd_same].
  unfold upd. destruct (_ && _)%bool; [reflexivity | exact H].
Qed.

Lemma upd_zero (h : mem) p x b y :
  h b y = F32.zero -> upd h p x F32.zero b y = F32.zero.
Proof. intros H. unfold upd. destruct (_ && _)%bool; [reflexivity | exact H]. Qed.

Section Constant2D.
Variables (dimX dimY : Z) (c : float32).
Hypothesis c_finite : exists s m e, c = S754_finite s m e.

Lemma obj_value lambda :
  is_finite lambda = true ->
  (c - lambda * (F32.zero + F32.zero - F32.zero - F32.zero))%f32 = c.
Proof.
  intros Hl. destruct c_finite as (s & m & e & ->).
  change (F32.zero + F32.zero - F32.zero - F32.zero)%f32 with F32.zero.
  destruct (mul_zero_r lambda Hl) as [s' ->]. apply sub_zero_r.
Qed.

Lemma grad_value x :
  is_finite x = true -> (F32.zero + x * (c - c))%f32 = F32.zero.
Proof.
  intros Hx. destruct c_finite as (s & m & e & ->).
  rewrite sub_self. now apply add_mul_zero.
Qed.

Lemma Obj_func2D_constant A D R1 R2 lambda w :
  D <> A -> D <> R1 -> D <> R2 ->
  is_finite lambda = true ->
  zero_block w R1 -> zero_block w R2 -> const_on_grid w A dimX dimY c ->
  const_on_grid (snd (Obj_func2D A D R1 R2 lambda dimX dimY w)) D dimX dimY c.
Proof.
  intros HA H1 H2 Hl Z1 Z2 HcA.
  unfold Obj_func2D. rewrite bind_run. cbn [load snd].
  set (Ctx := fun w' : world =>
         zero_block w' R1 /\ zero_block w' R2 /\ const_on_grid w' A dimX dimY c).
  apply (for_post
           (fun i0 w' => Ctx w' /\
              forall i j, 0 <= i < i0 -> 0 <= j < dimY ->
                          heap w' D (index2D dimX i j) = c)
           (fun w' => const_on_grid w' D dimX dimY c)).
  - split; [repeat split; assumption | intros; lia].
  - intros i w1 Hi [Hctx Hdone].
    apply (for_post
             (fun j0 w' => Ctx w' /\
                (forall i' j, 0 <= i' < i -> 0 <= j < dimY ->
                              heap w' D (index2D dimX i' j) = c) /\
                (forall j, 0 <= j < j0 -> heap w' D (index2D dimX i j) = c))
             (fun w' => Ctx w' /\
                forall i' j, 0 <= i' < i + 1 -> 0 <= j < dimY ->
                             heap w' D (index2D dimX i' j) = c)).
    + split; [exact Hctx | split; [exact Hdone | intros; lia]].
    + intros j w2 Hj ((Z1' & Z2' & HcA') & Hprev & Hrow).
      run_leaf; rewrite ?Z1', ?Z2';
        change (j * dimX + i) with (index2D dimX i j);
        rewrite (HcA' i j Hi Hj), (obj_value lambda Hl);
        (split; [split; [| split] | split]).
      all: try (intros k; cbn [heap]; rewrite upd_other_block by congruence;
                first [apply Z1' | apply Z2']).
      all: try (intros x y Hx Hy; cbn [heap];
                rewrite upd_other_block by congruence; now apply HcA').
      all: try (intros i' j' Hi' Hj'; apply upd_const; left; now apply Hprev).
      all: intros j' Hj'; apply upd_const;
        destruct (Z.eq_dec j' j) as [-> | Hne];
        [now right | left; apply Hrow; lia].
    + intros w' (Hctx' & Hprev & Hrow). split; [exact Hctx' |].
      intros i' j Hi' Hj. destruct (Z.eq_dec i' i) as [-> | Hne].
      * apply Hrow. lia.
      * apply Hprev; lia.
  - intros w' [_ H] i j Hi Hj. apply H; lia.
Qed.

Lemma Grad_func2D_zero P1 P2 D R1 R2 lambda w :
  P1 <> D -> P2 <> D ->
  is_finite (F32.one / (F32.eight * lambda))%f32 = true ->
  zero_block w P1 -> zero_block w P2 -> zero_block w R1 -> zero_block w R2 ->
  const_on_grid w D dimX dimY c ->
  let w' := snd (Grad_func2D P1 P2 D R1 R2 lambda dimX dimY w) in
  zero_block w' P1 /\ zero_block w' P2.
Proof.
  intros H1 H2 Hm ZP1 ZP2 ZR1 ZR2 HcD w'. subst w'.
  unfold Grad_func2D. cbv zeta. rewrite bind_run. cbn [ret snd].
  set (J := fun w' : world =>
         zero_block w' P1 /\ zero_block w' P2 /\ zero_block w' R1 /\
         zero_block w' R2 /\ const_on_grid w' D dimX dimY c).
  enough (HJ : J (snd (for_ 0 dimX (fun i => for_ 0 dimY (fun j =>
      let index := j * dimX + i in
      d <- load D index ;;
      val1 <- (if i =? dimX - 1 then ret F32.zero
               else d1 <- load D (j * dimX + (i + 1)) ;; ret (d - d1)%f32) ;;
      val2 <- (if j =? dimY - 1 then ret F32.zero
               else d2 <- load D ((j + 1) * dimX + i) ;; ret (d - d2)%f32) ;;
      r1 <- load R1 index ;;
      store P1 index (r1 + (F32.one / (F32.eight * lambda)) * val1)%f32 ;;
      r2 <- load R2 index ;;
      store P2 index (r2 + (F32.one / (F32.eight * lambda)) * val2)%f32)) w)))
    by (destruct HJ as (? & ? & _); now split).
  apply for_preserves; [repeat split; assumption |].
  intros i w1 Hi HJ1. apply for_preserves; [exact HJ1 |].
  intros j w2 Hj (ZP1' & ZP2' & ZR1' & ZR2' & HcD').
  assert (Hadd0 : (F32.zero + F32.one / (F32.eight * lambda) * F32.zero)%f32
                  = F32.zero) by now apply add_mul_zero.
  assert (Hstore : forall x n s,
             J (mkWorld (upd (upd (heap w2) P1 x F32.zero) P2 x F32.zero) n s)).
  { intros x n s. repeat split.
    1-4: intros k; cbn [heap]; apply upd_zero, upd_zero; auto.
    intros a b Ha Hb. cbn [heap]. rewrite !upd_other_block by congruence.
    now apply HcD'. }
  cbv zeta. repeat rewrite bind_run.
  change (j * dimX + i) with (index2D dimX i j).
  destruct (i =? dimX - 1) eqn:Ei; destruct (j =? dimY - 1) eqn:Ej;
    repeat rewrite bind_run; cbn [load ret store fst snd heap];
    rewrite ?ZR1', ?(HcD' i j Hi Hj).
  all: try (change (j * dimX + (i + 1)) with (index2D dimX (i + 1) j);
            rewrite (HcD' (i + 1) j) by lia).
  all: try (change ((j + 1) * dimX + i) with (index2D dimX i (j + 1));
            rewrite (HcD' i (j + 1)) by lia).
  all: rewrite ?grad_value by exact Hm; rewrite ?Hadd0;
    rewrite (upd_zero (heap w2) P1 (index2D dimX i j) R2 (index2D dimX i j))
      by apply ZR2';
    rewrite ?grad_value by exact Hm; rewrite ?Hadd0; apply Hstore.
Qed.

Lemma Proj_func2D_zero P1 P2 methTV w :
  zero_block w P1 -> zero_block w P2 ->
  let w' := snd (Proj_func2D P1 P2 methTV dimX dimY w) in
  zero_block w' P1 /\ zero_block w' P2.
Proof.
  intros ZP1 ZP2 w'. subst w'.
  unfold Proj_func2D. rewrite bind_run. cbn [ret snd].
  set (J := fun w' : world => zero_block w' P1 /\ zero_block w' P2).
  assert (Hstore : forall w2 x n s, J w2 ->
             J (mkWorld (upd (upd (heap w2) P1 x F32.zero) P2 x F32.zero) n s)).
  { intros w2 x n s [Z1 Z2].
    split; intros k; cbn [heap]; apply upd_zero, upd_zero; auto. }
  destruct (methTV =? 0).
  - apply (for_preserves J); [now split |].
    intros i w1 Hi HJ1. apply for_preserves; [exact HJ1 |].
    intros j w2 Hj [Z1 Z2]. cbv zeta. repeat rewrite bind_run.
    cbn [load fst snd]. rewrite Z1, Z2.
    change (denom2D F32.zero F32.zero >? F32.one)%f32 with false.
    now split.
  - apply (for_preserves J); [now split |].
    intros i w1 Hi HJ1. apply for_preserves; [exact HJ1 |].
    intros j w2 Hj [Z1 Z2]. cbv zeta. repeat rewrite bind_run.
    cbn [load store fst snd heap]. rewrite Z1, Z2.
    change (F32.zero / at_least_one (fabsf F32.zero))%f32 with F32.zero.
    rewrite (upd_zero (heap w2) P1 (j * dimX + i) P2 (j * dimX + i)) by apply Z2.
    change (F32.zero / at_least_one (fabsf F32.zero))%f32 with F32.zero.
    apply Hstore. now split.
Qed.

Lemma Rupd_func2D_zero P1 P1o P2 P2o R1 R2 tkp1 tk w :
  is_finite ((tk - F32.one) / tkp1)%f32 = true ->
  zero_block w P1 -> zero_block w P1o -> zero_block w P2 -> zero_block w P2o ->
  zero_block w R1 -> zero_block w R2 ->
  let w' := snd (Rupd_func2D P1 P1o P2 P2o R1 R2 tkp1 tk dimX dimY w) in
  zero_block w' R1 /\ zero_block w' R2.
Proof.
  intros Hm Z1 Z1o Z2 Z2o ZR1 ZR2 w'. subst w'.
  unfold Rupd_func2D. cbv zeta. rewrite bind_run. cbn [ret snd].
  set (m := ((tk - F32.one) / tkp1)%f32) in *.
  set (J := fun w' : world =>
         zero_block w' P1 /\ zero_block w' P1o /\ zero_block w' P2 /\
         zero_block w' P2o /\ zero_block w' R1 /\ zero_block w' R2).
  enough (HJ : J (snd (for_ 0 dimX (fun i => for_ 0 dimY (fun j =>
      let index := j * dimX + i in
      p1 <- load P1 index ;;
      p1o <- load P1o index ;;
      store R1 index (p1 + m * (p1 - p1o))%f32 ;;
      p2 <- load P2 index ;;
      p2o <- load P2o index ;;
      store R2 index (p2 + m * (p2 - p2o))%f32)) w)))
    by (destruct HJ as (_ & _ & _ & _ & ? & ?); now split).
  assert (Hv : (F32.zero + m * (F32.zero - F32.zero))%f32 = F32.zero).
  { change (F32.zero - F32.zero)%f32 with F32.zero. now apply add_mul_zero. }
  apply for_preserves; [repeat split; assumption |].
  intros i w1 Hi HJ1. apply for_preserves; [exact HJ1 |].
  intros j w2 Hj (Z1' & Z1o' & Z2' & Z2o' & ZR1' & ZR2').
  cbv zeta. repeat rewrite bind_run. cbn [load store fst snd heap].
  rewrite Z1', Z1o', Hv.
  rewrite (upd_zero (heap w2) R1 (j * dimX + i) P2 (j * dimX + i)) by apply Z2'.
  rewrite (upd_zero (heap w2) R1 (j * dimX + i) P2o (j * dimX + i)) by apply Z2o'.
  rewrite Hv.
  repeat split; intros k; cbn [heap]; apply upd_zero, upd_zero; auto.
Qed.
End Constant2D.

(** Copying a buffer of zeros leaves every buffer of zeros as it is. *)
Lemma copyIm_zero A U dimX dimY dimZ w b :
  zero_block w A -> zero_block w b ->
  zero_block (snd (copyIm A U dimX dimY dimZ w)) b.
Proof.
  intros ZA Zb. unfold copyIm.
  apply (for_preserves (fun w' => zero_block w' A /\ zero_block w' b));
    [now split |].
  intros j w1 Hj [ZA' Zb']. rewrite bind_run. cbn [load store fst snd].
  rewrite ZA'. split; intros k; cbn [heap]; apply upd_zero; auto.
Qed.

Ltac not_in :=
  cbn; let H := fresh in
  intros H; repeat (destruct H as [H | H]; [lia |]); exact H.

Section ConstantRun.
Variables (Input Output : block) (lambda epsil : float32)
          (methodTV nonneg dimX dimY : Z) (c : float32) (n : block).
Hypothesis Input_old : (Input < n)%positive.
Hypothesis Output_old : (Output < n)%positive.
Hypothesis Input_Output : Input <> Output.
Hypothesis lambda_finite : is_finite lambda = true.
Hypothesis multip_finite :
  is_finite (F32.one / (F32.eight * lambda))%f32 = true.
Hypothesis nonneg_off : (nonneg =? 1) = false.
Hypothesis c_finite : exists s m e, c = S754_finite s m e.

Local Abbreviation inv := (duals_zero (fresh2D n) Input dimX dimY c).

Lemma step2D_constant l w :
  inv w ->
  is_finite ((tk l - F32.one) / next_tk (tk l))%f32 = true ->
  let r := step2D Input Output lambda epsil methodTV nonneg dimX dimY (fresh2D n) l w in
  inv (snd r) /\ const_on_grid (snd r) Output dimX dimY c /\
  tkp1 (fst r) = next_tk (tk l).
Proof.
  intros (ZP1 & ZP2 & ZP1o & ZP2o & ZR1 & ZR2 & HcI) Hcoef r. subst r.
  unfold step2D.
  cbn [P1 P2 P1_prev P2_prev R1 R2 Output_prev fresh2D] in *.
  rewrite bind_run.
  set (w1 := snd (Obj_func2D Input Output (n + 5) (n + 6) lambda dimX dimY w)).
  assert (F1 : frame [Output] w w1) by apply Obj_func2D_writes.
  assert (O1 : const_on_grid w1 Output dimX dimY c).
  { apply Obj_func2D_constant; auto; lia. }
  rewrite bind_run.
  assert (E2 : snd (clamp Output nonneg (dimX * dimY) w1) = w1).
  { unfold clamp. now rewrite nonneg_off. }
  rewrite E2.
  rewrite bind_run.
  set (w3 := snd (Grad_func2D (n + 1) (n + 2) Output (n + 5) (n + 6) lambda
                              dimX dimY w1)).
  assert (F3 : frame [(n + 1)%positive; (n + 2)%positive] w1 w3)
    by apply Grad_func2D_writes.
  assert (G3 : zero_block w3 (n + 1) /\ zero_block w3 (n + 2)).
  { apply (Grad_func2D_zero dimX dimY c c_finite); auto; try lia;
      eapply zero_block_frame; try exact F1; try assumption; not_in. }
  rewrite bind_run.
  set (w4 := snd (Proj_func2D (n + 1) (n + 2) methodTV dimX dimY w3)).
  assert (F4 : frame [(n + 1)%positive; (n + 2)%positive] w3 w4)
    by apply Proj_func2D_writes.
  assert (G4 : zero_block w4 (n + 1) /\ zero_block w4 (n + 2))
    by (apply Proj_func2D_zero; apply G3).
  cbv zeta. rewrite bind_run.
  set (w5 := snd (Rupd_func2D (n + 1) (n + 3) (n + 2) (n + 4) (n + 5) (n + 6)
                              (next_tk (tk l)) (tk l) dimX dimY w4)).
  assert (F5 : frame [(n + 5)%positive; (n + 6)%positive] w4 w5)
    by apply Rupd_func2D_writes.
  assert (F14 : frame [Output; (n + 1)%positive; (n + 2)%positive] w w4).
  { eapply frame_trans; [eapply frame_incl; [| exact F1] |
                         eapply frame_trans; eapply frame_incl;
                         [| exact F3 | | exact F4]];
      intros x Hx; cbn in *; tauto. }
  assert (G5 : zero_block w5 (n + 5) /\ zero_block w5 (n + 6)).
  { apply Rupd_func2D_zero; try exact Hcoef; try apply G4;
      eapply zero_block_frame; try exact F14; try assumption; not_in. }
  rewrite bind_run.
  set (w6 := snd (residual_sums Output n (dimX * dimY) w5)).
  assert (F6 : frame [] w5 w6) by apply residual_sums_writes.
  cbn [ret fst snd tkp1].
  assert (F46 : frame [(n + 5)%positive; (n + 6)%positive] w4 w6).
  { eapply frame_trans; [exact F5 | eapply frame_incl; [| exact F6]].
    intros x []. }
  assert (F16 : frame [Output; (n + 1)%positive; (n + 2)%positive;
                       (n + 5)%positive; (n + 6)%positive] w w6).
  { eapply frame_trans; eapply frame_incl; [| exact F14 | | exact F46];
      intros x Hx; cbn in *; tauto. }
  assert (F6' : frame [(n + 5)%positive; (n + 6)%positive] w5 w6).
  { eapply frame_incl; [| exact F6]. intros x []. }
  split; [| split; [| reflexivity]].
  - repeat split.
    + eapply zero_block_frame; [exact F46 | not_in | apply G4].
    + eapply zero_block_frame; [exact F46 | not_in | apply G4].
    + eapply zero_block_frame; [exact F16 | not_in | exact ZP1o].
    + eapply zero_block_frame; [exact F16 | not_in | exact ZP2o].
    + eapply zero_block_frame; [exact F6 | not_in | apply G5].
    + eapply zero_block_frame; [exact F6 | not_in | apply G5].
    + eapply const_on_grid_frame; [exact F16 | not_in | exact HcI].
  - eapply const_on_grid_frame; [exact F46 | not_in |].
    eapply const_on_grid_frame; [exact F4 | not_in |].
    eapply const_on_grid_frame; [exact F3 | not_in | exact O1].
Qed.

Local Abbreviation iteration :=
  (body2D Input Output lambda epsil methodTV nonneg dimX dimY (fresh2D n)).

Lemma body2D_constant l w :
  inv w ->
  is_finite ((tk l - F32.one) / next_tk (tk l))%f32 = true ->
  let r := iteration l w in
  inv (snd r) /\ const_on_grid (snd r) Output dimX dimY c /\
  (fst (fst r) = false -> tk (snd (fst r)) = next_tk (tk l)).
Proof.
  intros Hz Hcoef r. subst r. unfold body2D. rewrite bind_run.
  destruct (step2D_constant l w Hz Hcoef) as (Hz1 & Hc1 & Ht).
  set (r1 := step2D Input Output lambda epsil methodTV nonneg dimX dimY (fresh2D n) l w)
    in *.
  destruct (4 <? count (fst r1)).
  - cbn [ret fst snd]. split; [exact Hz1 | split; [exact Hc1 | discriminate]].
  - rewrite bind_run. unfold store2D. repeat rewrite bind_run.
    cbn [ret fst snd tk].
    split; [| split; [| intros _; exact Ht]].
    + destruct Hz1 as (ZP1 & ZP2 & ZP1o & ZP2o & ZR1 & ZR2 & HcI).
      cbn [P1 P2 P1_prev P2_prev R1 R2 Output_prev fresh2D] in *.
      repeat rewrite bind_run.
      set (w1 := snd (copyIm Output n dimX dimY 1 (snd r1))).
      assert (F1 : frame [n] (snd r1) w1) by apply copyIm_writes.
      assert (Z1 : forall x, x <> n -> zero_block (snd r1) x -> zero_block w1 x).
      { intros x Hx. apply (zero_block_frame _ _ _ _ F1).
        intros [E | []]. now apply Hx. }
      set (w2 := snd (copyIm (n + 1) (n + 3) dimX dimY 1 w1)).
      assert (F2 : frame [(n + 3)%positive] w1 w2) by apply copyIm_writes.
      assert (Z2 : forall x, zero_block w1 x -> zero_block w2 x).
      { intros x. apply copyIm_zero. apply Z1; [lia | exact ZP1]. }
      set (w3 := snd (copyIm (n + 2) (n + 4) dimX dimY 1 w2)).
      assert (F3 : frame [(n + 4)%positive] w2 w3) by apply copyIm_writes.
      assert (Z3 : forall x, zero_block w2 x -> zero_block w3 x).
      { intros x. apply copyIm_zero. apply Z2, Z1; [lia | exact ZP2]. }
      unfold duals_zero.
      cbn [P1 P2 P1_prev P2_prev R1 R2 Output_prev fresh2D].
      repeat (split; [apply Z3, Z2, Z1; [lia | assumption] |]).
      eapply const_on_grid_frame; [exact F3 | not_in |].
      eapply const_on_grid_frame; [exact F2 | not_in |].
      eapply const_on_grid_frame; [exact F1 | not_in | exact HcI].
    + cbn [P1 P2 P1_prev P2_prev R1 R2 Output_prev fresh2D].
      repeat rewrite bind_run.
      eapply const_on_grid_frame; [apply copyIm_writes | not_in |].
      eapply const_on_grid_frame; [apply copyIm_writes | not_in |].
      eapply const_on_grid_frame; [apply copyIm_writes | not_in | exact Hc1].
Qed.

Lemma trace_constant k : forall l w,
  inv w -> coefs_finite k (tk l) = true ->
  Forall (fun r => const_on_grid (snd r) Output dimX dimY c)
         (trace_break k iteration l w).
Proof.
  induction k as [| k IH]; intros l w Hz Hcoef; [constructor |].
  cbn [coefs_finite] in Hcoef. apply andb_prop in Hcoef as [Hc1 Hc2].
  destruct (body2D_constant l w Hz Hc1) as (Hz' & Hc' & Ht).
  cbn [trace_break]. cbv zeta. constructor; [exact Hc' |].
  destruct (fst (fst (iteration l w))) eqn:E; [constructor |].
  apply IH; [exact Hz' |]. rewrite Ht by reflexivity. exact Hc2.
Qed.
End ConstantRun.

(** ** Concrete runs against the claims the code does not meet *)



(** C1, the failing run: a 1x1 image holding 5.0, [lambda = 1], one
    iteration, non-negativity off, the cells of the freshly allocated
    buffers holding 1.0.  The first [Obj_func2D] reads [R1[0] = R2[0] = 1]
    and writes [5 - 1*(1 + 1 - 0 - 0) = 3] to [Output]. *)
Theorem C1_constant_input_with_stale_duals :
  let w := demo_world F32.one [five] [F32.zero] in
  let r := TV_FGP_CPU 1 2 F32.one 1 F32.zero 0 0 0 1 1 1 w in
  heap (snd r) 2%positive 0 = F32.of_Z 3 /\ fst r = F32.of_Z 3
  /\ F32.of_Z 3 <> five.
Proof. repeat split; vm_compute; congruence. Qed.

(** The same call when the fresh memory happens to hold zeros, on a 2x2
    image and ten iterations: [Output] is 5.0 everywhere. *)
Lemma constant_input_with_zeroed_duals :
  let w := demo_world F32.zero [five; five; five; five] [] in
  let r := TV_FGP_CPU 1 2 F32.one 10 F32.zero 0 0 0 2 2 1 w in
  read_buf (heap (snd r)) 2 4 = [five; five; five; five].
Proof. vm_compute. reflexivity. Qed.

(** In general: a constant 2D image comes back unchanged, after every
    iteration and at termination, when the memory handed out by [malloc]
    holds zeros, the non-negativity switch is off, and [lambda],
    [1/(8 lambda)] and the momentum coefficients are finite. *)
Lemma constant_input_zeroed_memory Input Output lambda iter epsil methodTV
    nonneg printM dimX dimY dimZ c w :
  dimZ <= 1 -> 1 <= iter ->
  (Input < nextblock w)%positive -> (Output < nextblock w)%positive ->
  Input <> Output ->
  is_finite lambda = true ->
  is_finite (F32.one / (F32.eight * lambda))%f32 = true ->
  nonneg <> 1 ->
  (exists s m e, c = S754_finite s m e) ->
  coefs_finite (Z.to_nat iter) F32.one = true ->
  (forall b, (nextblock w <= b)%positive -> zero_block w b) ->
  const_on_grid w Input dimX dimY c ->
  Forall (fun r => const_on_grid (snd r) Output dimX dimY c)
         (iterations_of_call Input Output lambda iter epsil methodTV nonneg
                             dimX dimY dimZ w)
  /\ const_on_grid
       (snd (TV_FGP_CPU Input Output lambda iter epsil methodTV nonneg printM
                        dimX dimY dimZ w)) Output dimX dimY c.
Proof.
  intros HdimZ Hiter HI HO HIO Hl Hm Hnn Hc Hcoef Hzero Hin.
  assert (H : Forall (fun r => const_on_grid (snd r) Output dimX dimY c)
                (iterations_of_call Input Output lambda iter epsil methodTV
                                    nonneg dimX dimY dimZ w)).
  { unfold iterations_of_call, iterations2D.
    apply Z.leb_le in HdimZ. rewrite HdimZ.
    apply trace_constant; auto.
    - now apply Z.eqb_neq.
    - repeat split; try (intros k; apply Hzero; cbn; lia).
      exact Hin. }
  split; [exact H |].
  rewrite TV_FGP_CPU_exit. cbv zeta. cbn [snd].
  intros i j Hi Hj. rewrite report_heap. revert i j Hi Hj.
  change (const_on_grid
            (snd (loop_exit Input Output lambda iter epsil methodTV nonneg
                            dimX dimY dimZ w)) Output dimX dimY c).
  rewrite loop_exit_last. cbv zeta. cbn [snd].
  set (d := (false, locals0, allocated _ w)).
  destruct (iterations_of_call Input Output lambda iter epsil methodTV nonneg
              dimX dimY dimZ w) as [| r p] eqn:E.
  - exfalso. unfold iterations_of_call, iterations2D in E.
    apply Z.leb_le in HdimZ. rewrite HdimZ in E.
    apply trace_break_nil in E. lia.
  - rewrite Forall_forall in H. apply H.
    destruct (exists_last (l := r :: p) ltac:(discriminate)) as (q & a & Eq).
    rewrite Eq. rewrite last_last. apply in_or_app. right. now left.
Qed.

(** The hypotheses of [constant_input_zeroed_memory] hold of the 2x2 run
    above, and of any cap up to 1000 iterations. *)
Lemma constant_input_zeroed_memory_example :
  let w := demo_world F32.zero [five; five; five; five] [] in
  coefs_finite 1000 F32.one = true /\
  const_on_grid
    (snd (TV_FGP_CPU 1 2 F32.one 10 F32.zero 0 0 0 2 2 1 w)) 2 2 2 five.
Proof.
  intros w. split; [vm_compute; reflexivity |].
  apply (constant_input_zeroed_memory 1 2 F32.one 10 F32.zero 0 0 0 2 2 1
           five w); try lia; try reflexivity.
  - now exists false, 10485760%positive, (-21).
  - intros b Hb k. cbn in Hb. unfold w, demo_world, mem_of_lists.
    cbn [heap find fst].
    destruct (Pos.eqb_spec 1 b) as [E | _]; [lia |].
    destruct (Pos.eqb_spec 2 b) as [E | _]; [lia | reflexivity].
  - intros i j Hi Hj.
    assert (Ei : i = 0 \/ i = 1) by lia. assert (Ej : j = 0 \/ j = 1) by lia.
    destruct Ei as [-> | ->], Ej as [-> | ->]; reflexivity.
Qed.

(** C5, the failing run: the dual buffers [R1], [R2] ([R1], [R2], [R3] in
    3D) the first iteration reads are the blocks [malloc] handed out, with
    the contents the memory had there - here 1.0, not zero.  (A cap of 0
    shows the state in which the first iteration would start.) *)
Theorem C5_duals_hold_what_malloc_left :
  let w := demo_world F32.one [five] [F32.zero] in
  (let r := TV_FGP_2D 1 2 F32.one 0 F32.zero 0 0 0 1 1 w in
   let b := fst (fst r) in
   heap (snd r) (R1 b) 0 = F32.one /\ heap (snd r) (R2 b) 0 = F32.one)
  /\
  (let r := TV_FGP_3D 1 2 F32.one 0 F32.zero 0 0 0 1 1 2 w in
   let b := fst (fst r) in
   heap (snd r) (R1_3 b) 0 = F32.one /\ heap (snd r) (R2_3 b) 0 = F32.one /\
   heap (snd r) (R3_3 b) 0 = F32.one).
Proof. repeat split; vm_compute; reflexivity. Qed.

(** In general the loop starts in the memory of the caller: the contents of
    the blocks handed out by [malloc] are not set by the call. *)
Lemma duals_not_initialised Input Output lambda iter epsil methodTV nonneg
    printM dimX dimY w :
  TV_FGP_2D Input Output lambda iter epsil methodTV nonneg printM dimX dimY w
  = (let b := fresh2D (nextblock w) in
     let r := loop2D Input Output lambda iter epsil methodTV nonneg dimX dimY b
                     locals0 (allocated 7 w) in
     (b, fst r, report printM (fst r) (snd r)))
  /\ heap (allocated 7 w) = heap w.
Proof. split; [apply TV_FGP_2D_run | reflexivity]. Qed.




(** * Further properties of the kernel *)

(** ** Footprints, cell by cell *)

Lemma touches_ret {A} R (a : A) : touches R (ret a).
Proof. intros w. repeat split. Qed.

Lemma touches_load R p i : touches R (load p i).
Proof. intros w. repeat split. Qed.

Lemma touches_store (R : block -> Z -> Prop) p i v :
  R p i -> touches R (store p i v).
Proof.
  intros HR w. cbn. split; [reflexivity | split; [reflexivity |]].
  intros b k Hn. unfold upd.
  destruct (Pos.eqb_spec b p) as [-> | ?]; [| reflexivity].
  destruct (Z.eqb_spec k i) as [-> | ?]; [contradiction | reflexivity].
Qed.

Lemma touches_bind {A B} R (c : M A) (k : A -> M B) :
  touches R c -> (forall a, touches R (k a)) -> touches R (bind c k).
Proof.
  intros Hc Hk w. rewrite bind_run.
  destruct (Hc w) as (n1 & s1 & h1).
  destruct (Hk (fst (c w)) (snd (c w))) as (n2 & s2 & h2).
  split; [congruence | split; [congruence |]].
  intros b x Hn. rewrite h2 by exact Hn. now apply h1.
Qed.

Lemma touches_for_fold {A} R lo hi (body : Z -> A -> M A) acc :
  (forall k a, lo <= k < hi -> touches R (body k a)) ->
  touches R (for_fold lo hi body acc).
Proof.
  intros Hbody w.
  apply (for_fold_preserves
           (fun (_ : A) w' =>
              nextblock w' = nextblock w /\ stdout w' = stdout w /\
              forall b k, ~ R b k -> heap w' b k = heap w b k)).
  - repeat split.
  - intros k a w' Hk (n1 & s1 & h1).
    destruct (Hbody k a Hk w') as (n2 & s2 & h2).
    split; [congruence | split; [congruence |]].
    intros b x Hn. rewrite h2 by exact Hn. now apply h1.
Qed.

Lemma touches_for R lo hi (body : Z -> M unit) :
  (forall k, lo <= k < hi -> touches R (body k)) -> touches R (for_ lo hi body).
Proof. intros H. apply touches_for_fold. intros k _. apply H. Qed.

Lemma touches_incl {A} (R R' : block -> Z -> Prop) (c : M A) :
  (forall b k, R b k -> R' b k) -> touches R c -> touches R' c.
Proof.
  intros Hi Hc w. destruct (Hc w) as (n1 & s1 & h1).
  split; [exact n1 | split; [exact s1 |]].
  intros b k Hn. apply h1. intros HR. apply Hn, Hi, HR.
Qed.

Lemma touches_for_break {S} R n (body : S -> M (bool * S)) s :
  (forall s', touches R (body s')) -> touches R (for_break n body s).
Proof.
  intros Hbody. revert s. induction n as [| n IH]; intros s.
  - apply touches_ret.
  - cbn [for_break]. apply touches_bind; [apply Hbody |].
    intros r. destruct (fst r); [apply touches_ret | apply IH].
Qed.

(** In range positions have in range indices. *)
Lemma index2D_range dimX dimY i j :
  0 <= i < dimX -> 0 <= j < dimY -> 0 <= index2D dimX i j < dimX * dimY.
Proof. unfold index2D. nia. Qed.

Lemma index3D_range dimX dimY dimZ i j k :
  0 <= i < dimX -> 0 <= j < dimY -> 0 <= k < dimZ ->
  0 <= index3D dimX dimY i j k < dimX * dimY * dimZ.
Proof.
  intros Hi Hj Hk. unfold index3D.
  assert (H2 : 0 <= j * dimX + i < dimX * dimY) by nia.
  assert (H3 : 0 <= dimX * dimY * k) by nia.
  assert (H4 : dimX * dimY * (k + 1) <= dimX * dimY * dimZ) by nia.
  lia.
Qed.

Lemma index2D_inj dimX i j i' j' :
  0 <= i < dimX -> 0 <= i' < dimX ->
  index2D dimX i j = index2D dimX i' j' -> i = i' /\ j = j'.
Proof. unfold index2D. intros Hi Hi' E. assert (j = j') by nia. split; nia. Qed.

(** ** Loops that fill a grid *)

Lemma fills_for dst (T : Z -> Z -> Prop) P lo hi (body : Z -> M unit) :
  (forall k k' x, lo <= k < hi -> lo <= k' < hi -> T k x -> T k' x -> k = k') ->
  (forall k, lo <= k < hi -> fills dst (T k) P (body k)) ->
  fills dst (fun x => exists k, lo <= k < hi /\ T k x) P (for_ lo hi body).
Proof.
  intros Hdisj Hbody w h0 Hsrc.
  destruct (Z.le_gt_cases lo hi) as [Hle | Hgt].
  2:{ unfold for_. rewrite for_fold_empty by lia. cbn [snd].
      split; [intros b x _ (k & Hk & _); lia | reflexivity]. }
  assert (Hinv :
    (forall b x, In b dst -> (exists k, lo <= k < hi /\ T k x) ->
                 P h0 b x (heap (snd (for_ lo hi body w)) b x)) /\
    (forall b x, ~ (In b dst /\ exists k, lo <= k < hi /\ T k x) ->
                 heap (snd (for_ lo hi body w)) b x = heap w b x)).
  { apply (for_inv (fun m w' =>
        (forall b x, In b dst -> (exists k, lo <= k < m /\ T k x) ->
                     P h0 b x (heap w' b x)) /\
        (forall b x, ~ (In b dst /\ exists k, lo <= k < m /\ T k x) ->
                     heap w' b x = heap w b x))); [exact Hle | |].
    - split; [intros b x _ (k & Hk & _); lia | reflexivity].
    - intros m w' Hm [IH1 IH2].
      assert (Hsrc' : forall b x, ~ In b dst -> heap w' b x = h0 b x).
      { intros b x Hb. rewrite IH2 by tauto. now apply Hsrc. }
      destruct (Hbody m Hm w' h0 Hsrc') as [B1 B2].
      split.
      + intros b x Hb (k & Hk & HT).
        destruct (Z.eq_dec k m) as [-> | Hne]; [now apply B1 |].
        rewrite B2.
        * apply IH1; [exact Hb | exists k; split; [lia | exact HT]].
        * intros [_ HT']. apply Hne. apply (Hdisj k m x); auto; lia.
      + intros b x Hn. rewrite B2.
        * apply IH2. intros [Hb (k & Hk & HT)]. apply Hn.
          split; [exact Hb | exists k; split; [lia | exact HT]].
        * intros [Hb HT]. apply Hn. split; [exact Hb | exists m; split; [lia | exact HT]]. }
  exact Hinv.
Qed.

Lemma fills_weaken {A} dst T (P P' : mem -> block -> Z -> float32 -> Prop)
    (c : M A) :
  (forall h b x v, In b dst -> T x -> P h b x v -> P' h b x v) ->
  fills dst T P c -> fills dst T P' c.
Proof.
  intros HP Hc w h0 Hsrc. destruct (Hc w h0 Hsrc) as [H1 H2].
  split; [| exact H2]. intros b x Hb HT. apply HP; auto.
Qed.

Lemma fills_ext {A} dst (T T' : Z -> Prop) P (c : M A) :
  (forall x, T x <-> T' x) -> fills dst T P c -> fills dst T' P c.
Proof.
  intros HT Hc w h0 Hsrc. destruct (Hc w h0 Hsrc) as [H1 H2]. split.
  - intros b x Hb Hx. apply H1; [exact Hb | now apply HT].
  - intros b x Hn. apply H2. intros [Hb Hx]. apply Hn. split; [exact Hb | now apply HT].
Qed.

Lemma fills_then {A B} dst T P (c : M A) (k : A -> M B) :
  (forall a w, snd (k a w) = w) -> fills dst T P c -> fills dst T P (bind c k).
Proof.
  intros Hk Hc w h0 Hsrc. rewrite bind_run, Hk. now apply Hc.
Qed.

Ltac not_in_dst := cbn; (intuition congruence).

Section Pointwise2D.
Variables (dimX dimY : Z).

(** The positions of the grid, as indices. *)
Local Abbreviation row i := (fun x => exists j, 0 <= j < dimY /\ x = index2D dimX i j).
Local Abbreviation grid :=
  (fun x => exists i, 0 <= i < dimX /\ exists j, 0 <= j < dimY /\ x = index2D dimX i j).

Lemma row_disjoint i i' x :
  0 <= i < dimX -> 0 <= i' < dimX -> row i x -> row i' x -> i = i'.
Proof.
  intros Hi Hi' (j & Hj & ->) (j' & Hj' & E).
  now destruct (index2D_inj dimX i j i' j' Hi Hi' E).
Qed.

Lemma cell_disjoint i j j' x :
  0 <= i < dimX -> x = index2D dimX i j -> x = index2D dimX i j' -> j = j'.
Proof.
  intros Hi -> E. now destruct (index2D_inj dimX i j i j' Hi Hi E).
Qed.

(** A doubly nested loop whose body fills the cell of its position fills
    the grid. *)
Lemma fills_grid2D dst (V : mem -> block -> Z -> Z -> float32)
    (body : Z -> Z -> M unit) :
  (forall i j, 0 <= i < dimX -> 0 <= j < dimY ->
     fills dst (fun x => x = index2D dimX i j)
           (fun h b x v => v = V h b i j) (body i j)) ->
  fills dst grid
        (fun h b x v => forall i j, 0 <= i < dimX -> 0 <= j < dimY ->
                                    x = index2D dimX i j -> v = V h b i j)
        (for_ 0 dimX (fun i => for_ 0 dimY (fun j => body i j))).
Proof.
  intros Hleaf.
  apply (fills_for dst (fun i x => row i x)).
  - intros i i' x Hi Hi'. now apply row_disjoint.
  - intros i Hi.
    apply (fills_for dst (fun j x => x = index2D dimX i j)).
    + intros j j' x _ _. now apply cell_disjoint.
    + intros j Hj. eapply fills_weaken; [| apply Hleaf; assumption].
      cbn beta. intros h b x v _ -> -> i' j' Hi' Hj' E.
      destruct (index2D_inj dimX i j i' j' Hi Hi' E) as [-> ->]. reflexivity.
Qed.
End Pointwise2D.

(** ** The operators on 2D grids *)

Section Operators2D.
Variables (dimX dimY : Z).

Lemma upd_outside (h : mem) (dst : list block) p i v b x :
  In p dst -> ~ (In b dst /\ x = i) -> upd h p i v b x = h b x.
Proof.
  intros Hp Hn. unfold upd.
  destruct (Pos.eqb_spec b p) as [-> | ?]; [| reflexivity].
  destruct (Z.eqb_spec x i) as [-> | ?]; [| reflexivity].
  exfalso. apply Hn. now split.
Qed.

Lemma Obj_func2D_fills A D R1 R2 lambda :
  D <> A -> D <> R1 -> D <> R2 ->
  fills [D]
    (fun x => exists i, 0 <= i < dimX /\
              exists j, 0 <= j < dimY /\ x = index2D dimX i j)
    (fun h b x v => forall i j, 0 <= i < dimX -> 0 <= j < dimY ->
       x = index2D dimX i j -> v = Obj2D_value h A R1 R2 lambda dimX i j)
    (Obj_func2D A D R1 R2 lambda dimX dimY).
Proof.
  intros HA H1 H2. unfold Obj_func2D.
  apply fills_then; [reflexivity |].
  apply (fills_grid2D dimX dimY [D]
           (fun h _ i j => Obj2D_value h A R1 R2 lambda dimX i j)).
  intros i j Hi Hj. unfold Obj2D_value, index2D.
  intros w h0 Hsrc. cbv zeta. repeat rewrite bind_run.
  destruct (i =? 0); destruct (j =? 0);
    cbn [load ret store fst snd heap];
    (split;
     [ intros b x [<- | []] ->; rewrite upd_same;
       rewrite !Hsrc by not_in_dst; reflexivity
     | intros b x Hn; apply (upd_outside _ [D]); [now left | exact Hn] ]).
Qed.

Lemma Grad_func2D_fills P1 P2 D R1 R2 lambda :
  P1 <> P2 -> P1 <> D -> P1 <> R1 -> P1 <> R2 ->
  P2 <> D -> P2 <> R1 -> P2 <> R2 ->
  fills [P1; P2]
    (fun x => exists i, 0 <= i < dimX /\
              exists j, 0 <= j < dimY /\ x = index2D dimX i j)
    (fun h b x v => forall i j, 0 <= i < dimX -> 0 <= j < dimY ->
       x = index2D dimX i j ->
       v = if Pos.eqb b P1 then Grad2D_value1 h D R1 lambda dimX i j
           else Grad2D_value2 h D R2 lambda dimX dimY i j)
    (Grad_func2D P1 P2 D R1 R2 lambda dimX dimY).
Proof.
  intros H12 H1D H11 H1R2 H2D H2R1 H22. unfold Grad_func2D. cbv zeta.
  apply fills_then; [reflexivity |].
  apply (fills_grid2D dimX dimY [P1; P2]
           (fun h b i j =>
              if Pos.eqb b P1 then Grad2D_value1 h D R1 lambda dimX i j
              else Grad2D_value2 h D R2 lambda dimX dimY i j)).
  intros i j Hi Hj. unfold Grad2D_value1, Grad2D_value2, index2D.
  intros w h0 Hsrc. cbv zeta. repeat rewrite bind_run.
  destruct (i =? dimX - 1); destruct (j =? dimY - 1);
    repeat rewrite bind_run; cbn [load ret store fst snd heap];
    rewrite (upd_other_block (heap w) P1 _ _ R2) by congruence;
    (split;
     [ intros b x [<- | [<- | []]] ->;
       [ rewrite upd_other_block by congruence; rewrite upd_same, Pos.eqb_refl
       | rewrite upd_same;
         replace (Pos.eqb P2 P1) with false
           by (symmetry; apply Pos.eqb_neq; congruence) ];
       rewrite !Hsrc by not_in_dst; reflexivity
     | intros b x Hn;
       rewrite (upd_outside _ [P1; P2]) by (cbn; tauto);
       apply (upd_outside _ [P1; P2]); [cbn; tauto | exact Hn] ]).
Qed.

Lemma Rupd_func2D_fills P1 P1_old P2 P2_old R1 R2 tkp1 tk :
  R1 <> R2 -> R1 <> P1 -> R1 <> P1_old -> R1 <> P2 -> R1 <> P2_old ->
  R2 <> P1 -> R2 <> P1_old -> R2 <> P2 -> R2 <> P2_old ->
  fills [R1; R2]
    (fun x => exists i, 0 <= i < dimX /\
              exists j, 0 <= j < dimY /\ x = index2D dimX i j)
    (fun h b x v => forall i j, 0 <= i < dimX -> 0 <= j < dimY ->
       x = index2D dimX i j ->
       v = if Pos.eqb b R1 then Rupd_value h P1 P1_old tkp1 tk x
           else Rupd_value h P2 P2_old tkp1 tk x)
    (Rupd_func2D P1 P1_old P2 P2_old R1 R2 tkp1 tk dimX dimY).
Proof.
  intros H12 H1a H1b H1c H1d H2a H2b H2c H2d. unfold Rupd_func2D. cbv zeta.
  apply fills_then; [reflexivity |].
  eapply fills_weaken;
    [| apply (fills_grid2D dimX dimY [R1; R2]
                (fun h b i j =>
                   if Pos.eqb b R1
                   then Rupd_value h P1 P1_old tkp1 tk (index2D dimX i j)
                   else Rupd_value h P2 P2_old tkp1 tk (index2D dimX i j)))].
  { cbn beta. intros h b x v _ _ Hv i j Hi Hj E.
    rewrite (Hv i j Hi Hj E), E. reflexivity. }
  intros i j Hi Hj. unfold Rupd_value, index2D.
  intros w h0 Hsrc. cbv zeta. repeat rewrite bind_run.
  cbn [load ret store fst snd heap].
  rewrite (upd_other_block (heap w) R1 _ _ P2) by congruence.
  rewrite (upd_other_block (heap w) R1 _ _ P2_old) by congruence.
  split.
  - intros b x [<- | [<- | []]] ->;
      [ rewrite upd_other_block by congruence; rewrite upd_same, Pos.eqb_refl
      | rewrite upd_same;
        replace (Pos.eqb R2 R1) with false
          by (symmetry; apply Pos.eqb_neq; congruence) ];
      rewrite !Hsrc by not_in_dst; reflexivity.
  - intros b x Hn.
    rewrite (upd_outside _ [R1; R2]) by (cbn; tauto).
    apply (upd_outside _ [R1; R2]); [cbn; tauto | exact Hn].
Qed.
End Operators2D.

(** ** The operators on 3D grids *)

Lemma index3D_injective dimX dimY i j k i' j' k' :
  0 <= i < dimX -> 0 <= j < dimY -> 0 <= i' < dimX -> 0 <= j' < dimY ->
  index3D dimX dimY i j k = index3D dimX dimY i' j' k' ->
  i = i' /\ j = j' /\ k = k'.
Proof.
  unfold index3D. intros Hi Hj Hi' Hj' E.
  assert (H2 : 0 <= j * dimX + i < dimX * dimY) by nia.
  assert (H2' : 0 <= j' * dimX + i' < dimX * dimY) by nia.
  assert (Hk : k = k') by nia. subst k'.
  assert (Hj2 : j = j') by nia. subst j'.
  repeat split; lia.
Qed.

Section Pointwise3D.
Variables (dimX dimY dimZ : Z).

Lemma fills_grid3D dst (V : mem -> block -> Z -> Z -> Z -> float32)
    (body : Z -> Z -> Z -> M unit) :
  (forall i j k, 0 <= i < dimX -> 0 <= j < dimY -> 0 <= k < dimZ ->
     fills dst (fun x => x = index3D dimX dimY i j k)
           (fun h b x v => v = V h b i j k) (body i j k)) ->
  fills dst
        (fun x => exists i, 0 <= i < dimX /\ exists j, 0 <= j < dimY /\
                  exists k, 0 <= k < dimZ /\ x = index3D dimX dimY i j k)
        (fun h b x v => forall i j k,
           0 <= i < dimX -> 0 <= j < dimY -> 0 <= k < dimZ ->
           x = index3D dimX dimY i j k -> v = V h b i j k)
        (for_ 0 dimX (fun i => for_ 0 dimY (fun j =>
           for_ 0 dimZ (fun k => body i j k)))).
Proof.
  intros Hleaf.
  apply (fills_for dst
           (fun i x => exists j, 0 <= j < dimY /\
                       exists k, 0 <= k < dimZ /\ x = index3D dimX dimY i j k)).
  - intros i i' x Hi Hi' (j & Hj & k & Hk & ->) (j' & Hj' & k' & Hk' & E).
    now destruct (index3D_injective dimX dimY i j k i' j' k' Hi Hj Hi' Hj' E).
  - intros i Hi.
    apply (fills_for dst
             (fun j x => exists k, 0 <= k < dimZ /\ x = index3D dimX dimY i j k)).
    + intros j j' x Hj Hj' (k & Hk & ->) (k' & Hk' & E).
      now destruct (index3D_injective dimX dimY i j k i j' k' Hi Hj Hi Hj' E)
        as (_ & ? & _).
    + intros j Hj.
      apply (fills_for dst (fun k x => x = index3D dimX dimY i j k)).
      * intros k k' x _ _ -> E.
        now destruct (index3D_injective dimX dimY i j k i j k' Hi Hj Hi Hj E)
          as (_ & _ & ?).
      * intros k Hk. eapply fills_weaken; [| apply Hleaf; assumption].
        cbn beta. intros h b x v _ -> -> i' j' k' Hi' Hj' Hk' E.
        destruct (index3D_injective dimX dimY i j k i' j' k' Hi Hj Hi' Hj' E)
          as (-> & -> & ->).
        reflexivity.
Qed.
End Pointwise3D.

Section Operators3D.
Variables (dimX dimY dimZ : Z).

Local Abbreviation grid3 :=
  (fun x => exists i, 0 <= i < dimX /\ exists j, 0 <= j < dimY /\
            exists k, 0 <= k < dimZ /\ x = index3D dimX dimY i j k).

Lemma Obj_func3D_fills A D R1 R2 R3 lambda :
  D <> A -> D <> R1 -> D <> R2 -> D <> R3 ->
  fills [D] grid3
    (fun h b x v => forall i j k,
       0 <= i < dimX -> 0 <= j < dimY -> 0 <= k < dimZ ->
       x = index3D dimX dimY i j k ->
       v = Obj3D_value h A R1 R2 R3 lambda dimX dimY i j k)
    (Obj_func3D A D R1 R2 R3 lambda dimX dimY dimZ).
Proof.
  intros HA H1 H2 H3. unfold Obj_func3D.
  apply fills_then; [reflexivity |].
  apply (fills_grid3D dimX dimY dimZ [D]
           (fun h _ i j k => Obj3D_value h A R1 R2 R3 lambda dimX dimY i j k)).
  intros i j k Hi Hj Hk. unfold Obj3D_value, index3D.
  intros w h0 Hsrc. cbv zeta. repeat rewrite bind_run.
  destruct (i =? 0); destruct (j =? 0); destruct (k =? 0);
    cbn [load ret store fst snd heap];
    (split;
     [ intros b x [<- | []] ->; rewrite upd_same;
       rewrite !Hsrc by not_in_dst; reflexivity
     | intros b x Hn; apply (upd_outside _ [D]); [now left | exact Hn] ]).
Qed.

Lemma Grad_func3D_fills P1 P2 P3 D R1 R2 R3 lambda :
  P1 <> P2 -> P1 <> P3 -> P2 <> P3 ->
  ~ In D [P1; P2; P3] -> ~ In R1 [P1; P2; P3] ->
  ~ In R2 [P1; P2; P3] -> ~ In R3 [P1; P2; P3] ->
  fills [P1; P2; P3] grid3
    (fun h b x v => forall i j k,
       0 <= i < dimX -> 0 <= j < dimY -> 0 <= k < dimZ ->
       x = index3D dimX dimY i j k ->
       v = if Pos.eqb b P1 then Grad3D_value1 h D R1 lambda dimX dimY i j k
           else if Pos.eqb b P2
                then Grad3D_value2 h D R2 lambda dimX dimY i j k
                else Grad3D_value3 h D R3 lambda dimX dimY dimZ i j k)
    (Grad_func3D P1 P2 P3 D R1 R2 R3 lambda dimX dimY dimZ).
Proof.
  intros H12 H13 H23 HD HR1 HR2 HR3. unfold Grad_func3D. cbv zeta.
  apply fills_then; [reflexivity |].
  apply (fills_grid3D dimX dimY dimZ [P1; P2; P3]
           (fun h b i j k =>
              if Pos.eqb b P1 then Grad3D_value1 h D R1 lambda dimX dimY i j k
              else if Pos.eqb b P2
                   then Grad3D_value2 h D R2 lambda dimX dimY i j k
                   else Grad3D_value3 h D R3 lambda dimX dimY dimZ i j k)).
  intros i j k Hi Hj Hk.
  unfold Grad3D_value1, Grad3D_value2, Grad3D_value3, index3D.
  assert (E21 : Pos.eqb P2 P1 = false) by (apply Pos.eqb_neq; congruence).
  assert (E31 : Pos.eqb P3 P1 = false) by (apply Pos.eqb_neq; congruence).
  assert (E32 : Pos.eqb P3 P2 = false) by (apply Pos.eqb_neq; congruence).
  cbn in HD, HR1, HR2, HR3.
  intros w h0 Hsrc. cbv zeta. repeat rewrite bind_run.
  destruct (i =? dimX - 1); destruct (j =? dimY - 1); destruct (k =? dimZ - 1);
    repeat rewrite bind_run; cbn [load ret store fst snd heap];
    rewrite (upd_other_block (heap w) P1 _ _ R2) by (intuition congruence);
    rewrite (upd_other_block _ P2 _ _ R3) by (intuition congruence);
    rewrite (upd_other_block (heap w) P1 _ _ R3) by (intuition congruence);
    (split;
     [ intros b x [<- | [<- | [<- | []]]] ->;
       [ do 2 (rewrite upd_other_block by congruence);
         rewrite upd_same, Pos.eqb_refl
       | rewrite upd_other_block by congruence;
         rewrite upd_same, E21, Pos.eqb_refl
       | rewrite upd_same, E31, E32 ];
       rewrite !Hsrc by (cbn; intuition congruence); reflexivity
     | intros b x Hn;
       do 2 (rewrite (upd_outside _ [P1; P2; P3]) by (cbn; tauto));
       apply (upd_outside _ [P1; P2; P3]); [cbn; tauto | exact Hn] ]).
Qed.

Lemma Rupd_func3D_fills P1 P1_old P2 P2_old P3 P3_old R1 R2 R3 tkp1 tk :
  R1 <> R2 -> R1 <> R3 -> R2 <> R3 ->
  ~ In P1 [R1; R2; R3] -> ~ In P1_old [R1; R2; R3] ->
  ~ In P2 [R1; R2; R3] -> ~ In P2_old [R1; R2; R3] ->
  ~ In P3 [R1; R2; R3] -> ~ In P3_old [R1; R2; R3] ->
  fills [R1; R2; R3] grid3
    (fun h b x v => forall i j k,
       0 <= i < dimX -> 0 <= j < dimY -> 0 <= k < dimZ ->
       x = index3D dimX dimY i j k ->
       v = if Pos.eqb b R1 then Rupd_value h P1 P1_old tkp1 tk x
           else if Pos.eqb b R2 then Rupd_value h P2 P2_old tkp1 tk x
                else Rupd_value h P3 P3_old tkp1 tk x)
    (Rupd_func3D P1 P1_old P2 P2_old P3 P3_old R1 R2 R3 tkp1 tk
                 dimX dimY dimZ).
Proof.
  intros H12 H13 H23 Ha Hb Hc Hd He Hf. unfold Rupd_func3D. cbv zeta.
  apply fills_then; [reflexivity |].
  eapply fills_weaken;
    [| apply (fills_grid3D dimX dimY dimZ [R1; R2; R3]
                (fun h b i j k =>
                   let x := index3D dimX dimY i j k in
                   if Pos.eqb b R1 then Rupd_value h P1 P1_old tkp1 tk x
                   else if Pos.eqb b R2 then Rupd_value h P2 P2_old tkp1 tk x
                        else Rupd_value h P3 P3_old tkp1 tk x))].
  { cbn beta zeta. intros h b x v _ _ Hv i j k Hi Hj Hk E.
    rewrite (Hv i j k Hi Hj Hk E), E. reflexivity. }
  intros i j k Hi Hj Hk. unfold Rupd_value, index3D.
  assert (E21 : Pos.eqb R2 R1 = false) by (apply Pos.eqb_neq; congruence).
  assert (E31 : Pos.eqb R3 R1 = false) by (apply Pos.eqb_neq; congruence).
  assert (E32 : Pos.eqb R3 R2 = false) by (apply Pos.eqb_neq; congruence).
  cbn in Ha, Hb, Hc, Hd, He, Hf.
  intros w h0 Hsrc. cbv zeta. repeat rewrite bind_run.
  cbn [load ret store fst snd heap].
  rewrite (upd_other_block (heap w) R1 _ _ P2) by (intuition congruence).
  rewrite (upd_other_block (heap w) R1 _ _ P2_old) by (intuition congruence).
  rewrite (upd_other_block _ R2 _ _ P3) by (intuition congruence).
  rewrite (upd_other_block _ R2 _ _ P3_old) by (intuition congruence).
  rewrite (upd_other_block (heap w) R1 _ _ P3) by (intuition congruence).
  rewrite (upd_other_block (heap w) R1 _ _ P3_old) by (intuition congruence).
  split.
  - intros b x [<- | [<- | [<- | []]]] ->;
      [ do 2 (rewrite upd_other_block by congruence);
        rewrite upd_same, Pos.eqb_refl
      | rewrite upd_other_block by congruence;
        rewrite upd_same, E21, Pos.eqb_refl
      | rewrite upd_same, E31, E32 ];
      rewrite !Hsrc by (cbn; intuition congruence); reflexivity.
  - intros b x Hn.
    do 2 (rewrite (upd_outside _ [R1; R2; R3]) by (cbn; tauto)).
    apply (upd_outside _ [R1; R2; R3]); [cbn; tauto | exact Hn].
Qed.
End Operators3D.

(** *** Position by position *)

Lemma Obj_func2D_at A D R1 R2 lambda dimX dimY w i j :
  D <> A -> D <> R1 -> D <> R2 -> 0 <= i < dimX -> 0 <= j < dimY ->
  heap (snd (Obj_func2D A D R1 R2 lambda dimX dimY w)) D (index2D dimX i j)
  = Obj2D_value (heap w) A R1 R2 lambda dimX i j.
Proof.
  intros HA H1 H2 Hi Hj.
  destruct (Obj_func2D_fills dimX dimY A D R1 R2 lambda HA H1 H2 w (heap w))
    as [H _]; [reflexivity |].
  apply (H D (index2D dimX i j)); auto; [now left | eauto].
Qed.

Lemma Obj_func3D_at A D R1 R2 R3 lambda dimX dimY dimZ w i j k :
  D <> A -> D <> R1 -> D <> R2 -> D <> R3 ->
  0 <= i < dimX -> 0 <= j < dimY -> 0 <= k < dimZ ->
  heap (snd (Obj_func3D A D R1 R2 R3 lambda dimX dimY dimZ w)) D
       (index3D dimX dimY i j k)
  = Obj3D_value (heap w) A R1 R2 R3 lambda dimX dimY i j k.
Proof.
  intros HA H1 H2 H3 Hi Hj Hk.
  destruct (Obj_func3D_fills dimX dimY dimZ A D R1 R2 R3 lambda HA H1 H2 H3
              w (heap w)) as [H _]; [reflexivity |].
  apply (H D (index3D dimX dimY i j k)); auto; [now left | eauto 7].
Qed.

Lemma Grad_func2D_at P1 P2 D R1 R2 lambda dimX dimY w i j :
  P1 <> P2 -> ~ In D [P1; P2] -> ~ In R1 [P1; P2] -> ~ In R2 [P1; P2] ->
  0 <= i < dimX -> 0 <= j < dimY ->
  let w' := snd (Grad_func2D P1 P2 D R1 R2 lambda dimX dimY w) in
  heap w' P1 (index2D dimX i j) = Grad2D_value1 (heap w) D R1 lambda dimX i j
  /\ heap w' P2 (index2D dimX i j)
     = Grad2D_value2 (heap w) D R2 lambda dimX dimY i j.
Proof.
  intros H12 HD HR1 HR2 Hi Hj w'. subst w'. cbn in HD, HR1, HR2.
  pose proof (Grad_func2D_fills dimX dimY P1 P2 D R1 R2 lambda H12
                ltac:(intuition congruence) ltac:(intuition congruence)
                ltac:(intuition congruence) ltac:(intuition congruence)
                ltac:(intuition congruence) ltac:(intuition congruence)) as F.
  destruct (F w (heap w)) as [H _]; [reflexivity |].
  split.
  - rewrite (H P1 (index2D dimX i j)) with (i := i) (j := j);
      auto; [now rewrite Pos.eqb_refl | now left | eauto].
  - rewrite (H P2 (index2D dimX i j)) with (i := i) (j := j);
      auto; [| right; now left | eauto].
    replace (Pos.eqb P2 P1) with false
      by (symmetry; apply Pos.eqb_neq; congruence).
    reflexivity.
Qed.

Lemma Grad_func3D_at P1 P2 P3 D R1 R2 R3 lambda dimX dimY dimZ w i j k :
  P1 <> P2 -> P1 <> P3 -> P2 <> P3 ->
  ~ In D [P1; P2; P3] -> ~ In R1 [P1; P2; P3] ->
  ~ In R2 [P1; P2; P3] -> ~ In R3 [P1; P2; P3] ->
  0 <= i < dimX -> 0 <= j < dimY -> 0 <= k < dimZ ->
  let w' := snd (Grad_func3D P1 P2 P3 D R1 R2 R3 lambda dimX dimY dimZ w) in
  let x := index3D dimX dimY i j k in
  heap w' P1 x = Grad3D_value1 (heap w) D R1 lambda dimX dimY i j k
  /\ heap w' P2 x = Grad3D_value2 (heap w) D R2 lambda dimX dimY i j k
  /\ heap w' P3 x = Grad3D_value3 (heap w) D R3 lambda dimX dimY dimZ i j k.
Proof.
  intros H12 H13 H23 HD HR1 HR2 HR3 Hi Hj Hk w' x. subst w' x.
  pose proof (Grad_func3D_fills dimX dimY dimZ P1 P2 P3 D R1 R2 R3 lambda
                H12 H13 H23 HD HR1 HR2 HR3) as F.
  destruct (F w (heap w)) as [H _]; [reflexivity |].
  assert (E21 : Pos.eqb P2 P1 = false) by (apply Pos.eqb_neq; congruence).
  assert (E31 : Pos.eqb P3 P1 = false) by (apply Pos.eqb_neq; congruence).
  assert (E32 : Pos.eqb P3 P2 = false) by (apply Pos.eqb_neq; congruence).
  assert (G : exists i0, 0 <= i0 < dimX /\ exists j0, 0 <= j0 < dimY /\
              exists k0, 0 <= k0 < dimZ /\
              index3D dimX dimY i j k = index3D dimX dimY i0 j0 k0) by eauto 7.
  split; [| split].
  - rewrite (H P1 _ ltac:(cbn; tauto) G i j k Hi Hj Hk eq_refl).
    now rewrite Pos.eqb_refl.
  - rewrite (H P2 _ ltac:(cbn; tauto) G i j k Hi Hj Hk eq_refl).
    now rewrite E21, Pos.eqb_refl.
  - rewrite (H P3 _ ltac:(cbn; tauto) G i j k Hi Hj Hk eq_refl).
    now rewrite E31, E32.
Qed.

Lemma Rupd_func2D_at P1 P1_old P2 P2_old R1 R2 tkp1 tk dimX dimY w i j :
  R1 <> R2 -> ~ In P1 [R1; R2] -> ~ In P1_old [R1; R2] ->
  ~ In P2 [R1; R2] -> ~ In P2_old [R1; R2] ->
  0 <= i < dimX -> 0 <= j < dimY ->
  let w' := snd (Rupd_func2D P1 P1_old P2 P2_old R1 R2 tkp1 tk dimX dimY w) in
  let x := index2D dimX i j in
  heap w' R1 x = Rupd_value (heap w) P1 P1_old tkp1 tk x
  /\ heap w' R2 x = Rupd_value (heap w) P2 P2_old tkp1 tk x.
Proof.
  intros H12 Ha Hb Hc Hd Hi Hj w' x. subst w' x. cbn in Ha, Hb, Hc, Hd.
  pose proof (Rupd_func2D_fills dimX dimY P1 P1_old P2 P2_old R1 R2 tkp1 tk H12
                ltac:(intuition congruence) ltac:(intuition congruence)
                ltac:(intuition congruence) ltac:(intuition congruence)
                ltac:(intuition congruence) ltac:(intuition congruence)
                ltac:(intuition congruence) ltac:(intuition congruence)) as F.
  destruct (F w (heap w)) as [H _]; [reflexivity |].
  assert (G : exists i0, 0 <= i0 < dimX /\ exists j0, 0 <= j0 < dimY /\
              index2D dimX i j = index2D dimX i0 j0) by eauto.
  split.
  - rewrite (H R1 _ ltac:(cbn; tauto) G i j Hi Hj eq_refl).
    now rewrite Pos.eqb_refl.
  - rewrite (H R2 _ ltac:(cbn; tauto) G i j Hi Hj eq_refl).
    replace (Pos.eqb R2 R1) with false
      by (symmetry; apply Pos.eqb_neq; congruence).
    reflexivity.
Qed.

Lemma Rupd_func3D_at P1 P1_old P2 P2_old P3 P3_old R1 R2 R3 tkp1 tk
    dimX dimY dimZ w i j k :
  R1 <> R2 -> R1 <> R3 -> R2 <> R3 ->
  ~ In P1 [R1; R2; R3] -> ~ In P1_old [R1; R2; R3] ->
  ~ In P2 [R1; R2; R3] -> ~ In P2_old [R1; R2; R3] ->
  ~ In P3 [R1; R2; R3] -> ~ In P3_old [R1; R2; R3] ->
  0 <= i < dimX -> 0 <= j < dimY -> 0 <= k < dimZ ->
  let w' := snd (Rupd_func3D P1 P1_old P2 P2_old P3 P3_old R1 R2 R3 tkp1 tk
                             dimX dimY dimZ w) in
  let x := index3D dimX dimY i j k in
  heap w' R1 x = Rupd_value (heap w) P1 P1_old tkp1 tk x
  /\ heap w' R2 x = Rupd_value (heap w) P2 P2_old tkp1 tk x
  /\ heap w' R3 x = Rupd_value (heap w) P3 P3_old tkp1 tk x.
Proof.
  intros H12 H13 H23 Ha Hb Hc Hd He Hf Hi Hj Hk w' x. subst w' x.
  pose proof (Rupd_func3D_fills dimX dimY dimZ P1 P1_old P2 P2_old P3 P3_old
                R1 R2 R3 tkp1 tk H12 H13 H23 Ha Hb Hc Hd He Hf) as F.
  destruct (F w (heap w)) as [H _]; [reflexivity |].
  assert (E21 : Pos.eqb R2 R1 = false) by (apply Pos.eqb_neq; congruence).
  assert (E31 : Pos.eqb R3 R1 = false) by (apply Pos.eqb_neq; congruence).
  assert (E32 : Pos.eqb R3 R2 = false) by (apply Pos.eqb_neq; congruence).
  assert (G : exists i0, 0 <= i0 < dimX /\ exists j0, 0 <= j0 < dimY /\
              exists k0, 0 <= k0 < dimZ /\
              index3D dimX dimY i j k = index3D dimX dimY i0 j0 k0) by eauto 7.
  split; [| split].
  - rewrite (H R1 _ ltac:(cbn; tauto) G i j k Hi Hj Hk eq_refl).
    now rewrite Pos.eqb_refl.
  - rewrite (H R2 _ ltac:(cbn; tauto) G i j k Hi Hj Hk eq_refl).
    now rewrite E21, Pos.eqb_refl.
  - rewrite (H R3 _ ltac:(cbn; tauto) G i j k Hi Hj Hk eq_refl).
    now rewrite E31, E32.
Qed.

(** ** In bounds *)

Ltac touches_step :=
  match goal with
  | |- touches _ (bind _ _) => apply touches_bind; [| intro]
  | |- touches _ (for_ _ _ _) => apply touches_for; intros ? ?
  | |- touches _ (for_fold _ _ _ _) => apply touches_for_fold; intros ? ? ?
  | |- touches _ (ret _) => apply touches_ret
  | |- touches _ (load _ _) => apply touches_load
  | |- touches _ (free _) => apply touches_ret
  | |- touches _ (store _ _ _) =>
      apply touches_store; split;
      [ simpl; tauto
      | first [ lia
              | eapply index2D_range; eassumption
              | eapply index3D_range; eassumption ] ]
  | |- touches _ (if ?c then _ else _) => destruct c
  | |- touches _ (let _ := _ in _) => cbv zeta
  end.
Ltac touches_tac := repeat touches_step.

Lemma Obj_func2D_touches A D R1 R2 lambda dimX dimY :
  touches (cells [D] (dimX * dimY)) (Obj_func2D A D R1 R2 lambda dimX dimY).
Proof. unfold Obj_func2D. touches_tac. Qed.

Lemma Grad_func2D_touches P1 P2 D R1 R2 lambda dimX dimY :
  touches (cells [P1; P2] (dimX * dimY))
          (Grad_func2D P1 P2 D R1 R2 lambda dimX dimY).
Proof. unfold Grad_func2D. touches_tac. Qed.

Lemma Proj_func2D_touches P1 P2 methTV dimX dimY :
  touches (cells [P1; P2] (dimX * dimY)) (Proj_func2D P1 P2 methTV dimX dimY).
Proof. unfold Proj_func2D. touches_tac. Qed.

Lemma Rupd_func2D_touches P1 P1o P2 P2o R1 R2 tkp1 tk dimX dimY :
  touches (cells [R1; R2] (dimX * dimY))
          (Rupd_func2D P1 P1o P2 P2o R1 R2 tkp1 tk dimX dimY).
Proof. unfold Rupd_func2D. touches_tac. Qed.

Lemma Obj_func3D_touches A D R1 R2 R3 lambda dimX dimY dimZ :
  touches (cells [D] (dimX * dimY * dimZ))
          (Obj_func3D A D R1 R2 R3 lambda dimX dimY dimZ).
Proof. unfold Obj_func3D. touches_tac. Qed.

Lemma Grad_func3D_touches P1 P2 P3 D R1 R2 R3 lambda dimX dimY dimZ :
  touches (cells [P1; P2; P3] (dimX * dimY * dimZ))
          (Grad_func3D P1 P2 P3 D R1 R2 R3 lambda dimX dimY dimZ).
Proof. unfold Grad_func3D. touches_tac. Qed.

Lemma Proj_func3D_touches P1 P2 P3 methTV dimX dimY dimZ :
  touches (cells [P1; P2; P3] (dimX * dimY * dimZ))
          (Proj_func3D P1 P2 P3 methTV dimX dimY dimZ).
Proof. unfold Proj_func3D. touches_tac. Qed.

Lemma Rupd_func3D_touches P1 P1o P2 P2o P3 P3o R1 R2 R3 tkp1 tk dimX dimY dimZ :
  touches (cells [R1; R2; R3] (dimX * dimY * dimZ))
          (Rupd_func3D P1 P1o P2 P2o P3 P3o R1 R2 R3 tkp1 tk dimX dimY dimZ).
Proof. unfold Rupd_func3D. touches_tac. Qed.

Lemma clamp_touches Output nonneg total :
  touches (cells [Output] total) (clamp Output nonneg total).
Proof. unfold clamp. touches_tac. Qed.

Lemma residual_sums_touches R Output Output_prev total :
  touches R (residual_sums Output Output_prev total).
Proof. unfold residual_sums. touches_tac. Qed.

Lemma copyIm_touches A U dimX dimY dimZ :
  touches (cells [U] (dimX * dimY * dimZ)) (copyIm A U dimX dimY dimZ).
Proof. unfold copyIm. touches_tac. Qed.

Ltac touches_call L :=
  eapply touches_incl; [| apply L];
  let b := fresh "b" in let k := fresh "k" in let H := fresh in
  intros b k H; destruct H; split; [simpl in *; tauto | lia].

Section BodiesInBounds.
Variables (Input Output : block) (lambda : float32)
          (epsil : float32) (methodTV nonneg dimX dimY dimZ : Z).

Lemma step2D_touches b l :
  touches (cells (Output :: blocks2D b) (dimX * dimY))
          (step2D Input Output lambda epsil methodTV nonneg dimX dimY b l).
Proof.
  unfold step2D.
  apply touches_bind; [touches_call Obj_func2D_touches | intros _].
  apply touches_bind; [touches_call clamp_touches | intros _].
  apply touches_bind; [touches_call Grad_func2D_touches | intros _].
  apply touches_bind; [touches_call Proj_func2D_touches | intros _].
  cbv zeta.
  apply touches_bind; [touches_call Rupd_func2D_touches | intros _].
  apply touches_bind; [apply residual_sums_touches | intros sums].
  apply touches_ret.
Qed.

Lemma store2D_touches b l :
  touches (cells (Output :: blocks2D b) (dimX * dimY))
          (store2D Output dimX dimY b l).
Proof.
  unfold store2D.
  repeat (apply touches_bind; [touches_call copyIm_touches | intros _]).
  apply touches_ret.
Qed.

Lemma body2D_touches b l :
  touches (cells (Output :: blocks2D b) (dimX * dimY))
          (body2D Input Output lambda epsil methodTV nonneg dimX dimY b l).
Proof.
  unfold body2D.
  apply touches_bind; [apply step2D_touches | intros l1].
  destruct (4 <? count l1); [apply touches_ret |].
  apply touches_bind; [apply store2D_touches | intros l2; apply touches_ret].
Qed.

Lemma step3D_touches b l :
  touches (cells (Output :: blocks3D b) (dimX * dimY * dimZ))
          (step3D Input Output lambda epsil methodTV nonneg dimX dimY dimZ b l).
Proof.
  unfold step3D.
  apply touches_bind; [touches_call Obj_func3D_touches | intros _].
  apply touches_bind; [touches_call clamp_touches | intros _].
  apply touches_bind; [touches_call Grad_func3D_touches | intros _].
  apply touches_bind; [touches_call Proj_func3D_touches | intros _].
  cbv zeta.
  apply touches_bind; [touches_call Rupd_func3D_touches | intros _].
  apply touches_bind; [apply residual_sums_touches | intros sums].
  apply touches_ret.
Qed.

Lemma store3D_touches b l :
  touches (cells (Output :: blocks3D b) (dimX * dimY * dimZ))
          (store3D Output dimX dimY dimZ b l).
Proof.
  unfold store3D.
  repeat (apply touches_bind; [touches_call copyIm_touches | intros _]).
  apply touches_ret.
Qed.

Lemma body3D_touches b l :
  touches (cells (Output :: blocks3D b) (dimX * dimY * dimZ))
          (body3D Input Output lambda epsil methodTV nonneg dimX dimY dimZ b l).
Proof.
  unfold body3D.
  apply touches_bind; [apply step3D_touches | intros l1].
  destruct (4 <? count l1); [apply touches_ret |].
  apply touches_bind; [apply store3D_touches | intros l2; apply touches_ret].
Qed.
End BodiesInBounds.

(** The memory at loop exit differs from the memory at entry only in the
    first [total_samples] cells of [Output] and of the blocks the call
    allocated. *)
Lemma loop_exit_cells Input Output lambda iter epsil methodTV nonneg
    dimX dimY dimZ w b k :
  ~ ((b = Output \/ (nextblock w <= b)%positive)
     /\ 0 <= k < total_samples dimX dimY dimZ) ->
  heap (snd (loop_exit Input Output lambda iter epsil methodTV nonneg
                       dimX dimY dimZ w)) b k = heap w b k.
Proof.
  intros Hn. unfold loop_exit, total_samples in *.
  destruct (dimZ <=? 1).
  - destruct (touches_for_break
                (cells (Output :: blocks2D (fresh2D (nextblock w)))
                       (dimX * dimY))
                (Z.to_nat iter)
                (body2D Input Output lambda epsil methodTV nonneg dimX dimY
                        (fresh2D (nextblock w))) locals0
                (fun l => body2D_touches _ _ _ _ _ _ _ _ _ l)
                (allocated 7 w)) as (_ & _ & H).
    unfold loop2D. rewrite H; [reflexivity |].
    intros [Hin Hk]. apply Hn. split; [| exact Hk].
    cbn in Hin.
    repeat (destruct Hin as [E | Hin]; [first [now left | right; lia] |]).
    destruct Hin.
  - destruct (touches_for_break
                (cells (Output :: blocks3D (fresh3D (nextblock w)))
                       (dimX * dimY * dimZ))
                (Z.to_nat iter)
                (body3D Input Output lambda epsil methodTV nonneg dimX dimY dimZ
                        (fresh3D (nextblock w))) locals0
                (fun l => body3D_touches _ _ _ _ _ _ _ _ _ _ l)
                (allocated 10 w)) as (_ & _ & H).
    unfold loop3D. rewrite H; [reflexivity |].
    intros [Hin Hk]. apply Hn. split; [| exact Hk].
    cbn in Hin.
    repeat (destruct Hin as [E | Hin]; [first [now left | right; lia] |]).
    destruct Hin.
Qed.

(** ** Calls that never count *)

(** A call whose iterations leave the counter alone runs to the cap. *)
Lemma quiet_call Input Output lambda iter epsil methodTV nonneg
    dimX dimY dimZ w :
  ((dimZ <=? 1) = true -> forall l w',
     count (snd (fst (body2D Input Output lambda epsil methodTV nonneg
                             dimX dimY (fresh2D (nextblock w)) l w')))
     = count l) ->
  ((dimZ <=? 1) = false -> forall l w',
     count (snd (fst (body3D Input Output lambda epsil methodTV nonneg
                             dimX dimY dimZ (fresh3D (nextblock w)) l w')))
     = count l) ->
  let its := iterations_of_call Input Output lambda iter epsil methodTV nonneg
                                dimX dimY dimZ w in
  let l := fst (loop_exit Input Output lambda iter epsil methodTV nonneg
                          dimX dimY dimZ w) in
  length its = Z.to_nat iter
  /\ Forall (fun r => fst (fst r) = false /\ count (snd (fst r)) = 0) its
  /\ count l = 0
  /\ ll l = Z.max 0 iter.
Proof.
  intros Q2 Q3 its l. subst its l.
  unfold iterations_of_call, loop_exit, iterations2D, iterations3D, loop2D, loop3D.
  destruct (dimZ <=? 1).
  - specialize (Q2 eq_refl).
    pose proof (quiet_trace _
        (body2D_break Input Output lambda epsil methodTV nonneg dimX dimY
                      (fresh2D (nextblock w))) Q2
        (Z.to_nat iter) locals0 (allocated 7 w)) as Ht.
    pose proof (quiet_exit _
        (body2D_break Input Output lambda epsil methodTV nonneg dimX dimY
                      (fresh2D (nextblock w))) Q2
        (body2D_ll Input Output lambda epsil methodTV nonneg dimX dimY
                   (fresh2D (nextblock w)))
        (Z.to_nat iter) locals0 (allocated 7 w)) as He.
    cbn [locals0 count ll] in Ht, He.
    destruct Ht as [Hlen Hall]; [lia |]. destruct He as [Hc Hl]; [lia |].
    repeat split; try assumption. rewrite Hl. lia.
  - specialize (Q3 eq_refl).
    pose proof (quiet_trace _
        (body3D_break Input Output lambda epsil methodTV nonneg dimX dimY
                      dimZ (fresh3D (nextblock w))) Q3
        (Z.to_nat iter) locals0 (allocated 10 w)) as Ht.
    pose proof (quiet_exit _
        (body3D_break Input Output lambda epsil methodTV nonneg dimX dimY
                      dimZ (fresh3D (nextblock w))) Q3
        (body3D_ll Input Output lambda epsil methodTV nonneg dimX dimY
                   dimZ (fresh3D (nextblock w)))
        (Z.to_nat iter) locals0 (allocated 10 w)) as He.
    cbn [locals0 count ll] in Ht, He.
    destruct Ht as [Hlen Hall]; [lia |]. destruct He as [Hc Hl]; [lia |].
    repeat split; try assumption. rewrite Hl. lia.
Qed.

(** A value that is not negative is not below a tolerance that is not
    positive. *)
Lemma SFltb_not_positive x e :
  sign_is false x -> SFltb F32.zero e = false -> SFltb x e = false.
Proof.
  destruct x as [s | s | | s m ex]; destruct e as [s' | s' | | s' m' e'];
    cbn; intros Hx He; subst; try reflexivity;
    destruct s'; try reflexivity; discriminate.
Qed.

Lemma bump_not_positive sre re1 epsil c :
  sign_is false sre -> sign_is false re1 ->
  (F32.zero <? epsil)%f32 = false ->
  bump (relative_residual sre re1) epsil c = c.
Proof.
  intros H H1 He. unfold bump, F32.ltb.
  now rewrite SFltb_not_positive by
    (try apply relative_residual_sign; assumption).
Qed.

(** The stdout of the world the loop ends in. *)
Lemma loop_exit_stdout Input Output lambda iter epsil methodTV nonneg
    dimX dimY dimZ w :
  stdout (snd (loop_exit Input Output lambda iter epsil methodTV nonneg
                         dimX dimY dimZ w)) = stdout w.
Proof.
  unfold loop_exit. destruct (dimZ <=? 1).
  - destruct (loop2D_writes Input Output lambda iter epsil methodTV nonneg
                dimX dimY (fresh2D (nextblock w)) locals0 (allocated 7 w))
      as (_ & H & _). exact H.
  - destruct (loop3D_writes Input Output lambda iter epsil methodTV nonneg
                dimX dimY dimZ (fresh3D (nextblock w)) locals0 (allocated 10 w))
      as (_ & H & _). exact H.
Qed.

Lemma report_stdout printM l w :
  stdout (report printM l w)
  = stdout w ++ (if printM =? 1 then [ll l] else []).
Proof.
  unfold report. destruct (printM =? 1); cbn; [reflexivity |].
  now rewrite app_nil_r.
Qed.

Section Completed.
Variable body : locals -> M (bool * locals).
Hypothesis body_ll : forall l w,
  ll (snd (fst (body l w))) = if fst (fst (body l w)) then ll l else ll l + 1.

Lemma for_break_ll n : forall l w,
  ll (fst (for_break n body l w)) = ll l + completed (trace_break n body l w).
Proof.
  unfold completed.
  induction n as [| n IH]; intros l w; cbn [for_break trace_break].
  - cbn. lia.
  - rewrite bind_run. cbv zeta. cbn [filter].
    pose proof (body_ll l w) as Hll.
    destruct (fst (fst (body l w))); cbn [negb].
    + cbn. rewrite Hll. lia.
    + rewrite IH, Hll. cbn [length]. lia.
Qed.
End Completed.

Lemma loop_exit_ll Input Output lambda iter epsil methodTV nonneg
    dimX dimY dimZ w :
  ll (fst (loop_exit Input Output lambda iter epsil methodTV nonneg
                     dimX dimY dimZ w))
  = completed (iterations_of_call Input Output lambda iter epsil methodTV
                                  nonneg dimX dimY dimZ w).
Proof.
  unfold loop_exit, iterations_of_call, loop2D, loop3D, iterations2D,
    iterations3D.
  destruct (dimZ <=? 1).
  - rewrite (for_break_ll _ (body2D_ll Input Output lambda epsil methodTV nonneg
                                       dimX dimY (fresh2D (nextblock w)))).
    reflexivity.
  - rewrite (for_break_ll _ (body3D_ll Input Output lambda epsil methodTV nonneg
                                       dimX dimY dimZ (fresh3D (nextblock w)))).
    reflexivity.
Qed.

Lemma hits_le_length epsil t : hits epsil t <= Z.of_nat (length t).
Proof.
  unfold hits. apply inj_le. induction t as [| r t IH]; cbn; [lia |].
  destruct (hit epsil r); cbn; lia.
Qed.

(** ** Empty grids *)

Lemma relative_residual_zero_zero :
  relative_residual F32.zero F32.zero = S754_nan.
Proof. reflexivity. Qed.

Lemma bump_nan epsil c : bump S754_nan epsil c = c.
Proof. reflexivity. Qed.

Section EmptyGrid.
Variables (Input Output : block) (lambda : float32)
          (epsil : float32) (methodTV nonneg dimX dimY dimZ : Z).

Lemma step2D_empty b l w :
  dimX * dimY <= 0 ->
  count (fst (step2D Input Output lambda epsil methodTV nonneg dimX dimY b l w))
  = count l.
Proof.
  intros He. unfold step2D. cbv zeta. repeat rewrite bind_run.
  cbn [count fst]. unfold residual_sums.
  rewrite for_fold_empty by lia. cbn [fst snd].
  now rewrite relative_residual_zero_zero, bump_nan.
Qed.

Lemma step3D_empty b l w :
  dimX * dimY * dimZ <= 0 ->
  count (fst (step3D Input Output lambda epsil methodTV nonneg dimX dimY dimZ
                     b l w)) = count l.
Proof.
  intros He. unfold step3D. cbv zeta. repeat rewrite bind_run.
  cbn [count fst]. unfold residual_sums.
  rewrite for_fold_empty by lia. cbn [fst snd].
  now rewrite relative_residual_zero_zero, bump_nan.
Qed.

Lemma body2D_empty b l w :
  dimX * dimY <= 0 ->
  count (snd (fst (body2D Input Output lambda epsil methodTV nonneg dimX dimY
                          b l w))) = count l.
Proof.
  intros He. rewrite body2D_run. cbv zeta.
  destruct (4 <? _); cbn [fst snd stored count]; now apply step2D_empty.
Qed.

Lemma body3D_empty b l w :
  dimX * dimY * dimZ <= 0 ->
  count (snd (fst (body3D Input Output lambda epsil methodTV nonneg
                          dimX dimY dimZ b l w))) = count l.
Proof.
  intros He. rewrite body3D_run. cbv zeta.
  destruct (4 <? _); cbn [fst snd stored count]; now apply step3D_empty.
Qed.

Lemma body2D_not_positive b l w :
  (F32.zero <? epsil)%f32 = false ->
  count (snd (fst (body2D Input Output lambda epsil methodTV nonneg
                          dimX dimY b l w))) = count l.
Proof.
  intros He. rewrite body2D_count.
  destruct (body2D_residual Input Output lambda epsil methodTV nonneg
              dimX dimY b l w) as (sre & H & H1 & E).
  rewrite E. now apply bump_not_positive.
Qed.

Lemma body3D_not_positive b l w :
  (F32.zero <? epsil)%f32 = false ->
  count (snd (fst (body3D Input Output lambda epsil methodTV nonneg
                          dimX dimY dimZ b l w))) = count l.
Proof.
  intros He. rewrite body3D_count.
  destruct (body3D_residual Input Output lambda epsil methodTV nonneg
              dimX dimY dimZ b l w) as (sre & H & H1 & E).
  rewrite E. now apply bump_not_positive.
Qed.
End EmptyGrid.

Lemma at_least_five Input Output lambda iter epsil methodTV nonneg
    dimX dimY dimZ w :
  (Z.to_nat (Z.min iter 5)
   <= length (iterations_of_call Input Output lambda iter epsil methodTV
                                 nonneg dimX dimY dimZ w))%nat.
Proof.
  set (its := iterations_of_call Input Output lambda iter epsil methodTV
                                 nonneg dimX dimY dimZ w).
  destruct (Nat.lt_ge_cases (length its) (Z.to_nat iter)) as [Hlt | Hge];
    [| lia].
  destruct (call_short _ _ _ _ _ _ _ _ _ _ w Hlt) as (p & r & E & Hb).
  destruct (call_iteration Input Output lambda iter epsil methodTV nonneg
              dimX dimY dimZ w p r [] E) as (Hc & _ & Hbr & _).
  rewrite Hb in Hbr. symmetry in Hbr. apply Z.ltb_lt in Hbr.
  pose proof (hits_le_length epsil (p ++ [r])) as Hle.
  fold its in E. rewrite E. lia.
Qed.

(** ** NaN propagation *)

Lemma add_nan_l y : (S754_nan + y)%f32 = S754_nan.
Proof. now destruct y. Qed.

Lemma add_nan_r x : (x + S754_nan)%f32 = S754_nan.
Proof. now destruct x. Qed.

Lemma sub_nan_l y : (S754_nan - y)%f32 = S754_nan.
Proof. now destruct y. Qed.

Lemma sub_nan_r x : (x - S754_nan)%f32 = S754_nan.
Proof. now destruct x. Qed.

Lemma mul_nan_r x : (x * S754_nan)%f32 = S754_nan.
Proof. now destruct x. Qed.

(** With [lambda = 0] the step size [1/(8 lambda)] is infinite, and its
    product with a zero difference is a NaN. *)
Lemma step_size_zero_lambda lambda :
  is_zero lambda ->
  (F32.one / (F32.eight * lambda) * F32.zero)%f32 = S754_nan.
Proof. destruct lambda as [[|] | | |]; intros []; reflexivity. Qed.

Lemma Grad2D_value1_zero_lambda h D R1 lambda dimX j :
  is_zero lambda -> Grad2D_value1 h D R1 lambda dimX (dimX - 1) j = S754_nan.
Proof.
  intros Hl. unfold Grad2D_value1. cbv zeta. rewrite Z.eqb_refl.
  rewrite step_size_zero_lambda by exact Hl. apply add_nan_r.
Qed.

Lemma Grad2D_value2_zero_lambda h D R2 lambda dimX dimY i :
  is_zero lambda ->
  Grad2D_value2 h D R2 lambda dimX dimY i (dimY - 1) = S754_nan.
Proof.
  intros Hl. unfold Grad2D_value2. cbv zeta. rewrite Z.eqb_refl.
  rewrite step_size_zero_lambda by exact Hl. apply add_nan_r.
Qed.

Lemma Grad3D_value1_zero_lambda h D R1 lambda dimX dimY j k :
  is_zero lambda ->
  Grad3D_value1 h D R1 lambda dimX dimY (dimX - 1) j k = S754_nan.
Proof.
  intros Hl. unfold Grad3D_value1. cbv zeta. rewrite Z.eqb_refl.
  rewrite step_size_zero_lambda by exact Hl. apply add_nan_r.
Qed.

Lemma Grad3D_value2_zero_lambda h D R2 lambda dimX dimY i k :
  is_zero lambda ->
  Grad3D_value2 h D R2 lambda dimX dimY i (dimY - 1) k = S754_nan.
Proof.
  intros Hl. unfold Grad3D_value2. cbv zeta. rewrite Z.eqb_refl.
  rewrite step_size_zero_lambda by exact Hl. apply add_nan_r.
Qed.

Lemma Grad3D_value3_zero_lambda h D R3 lambda dimX dimY dimZ i j :
  is_zero lambda ->
  Grad3D_value3 h D R3 lambda dimX dimY dimZ i j (dimZ - 1) = S754_nan.
Proof.
  intros Hl. unfold Grad3D_value3. cbv zeta. rewrite Z.eqb_refl.
  rewrite step_size_zero_lambda by exact Hl. apply add_nan_r.
Qed.

(** A NaN dual makes the value [Obj_func2D] stores a NaN. *)
Lemma Obj2D_value_nan h A R1 R2 lambda dimX i j :
  h R1 (index2D dimX i j) = S754_nan \/ h R2 (index2D dimX i j) = S754_nan ->
  Obj2D_value h A R1 R2 lambda dimX i j = S754_nan.
Proof.
  intros H. unfold Obj2D_value. cbv zeta.
  assert (E : (h R1 (index2D dimX i j) + h R2 (index2D dimX i j))%f32
              = S754_nan).
  { destruct H as [-> | ->]; [apply add_nan_l | apply add_nan_r]. }
  rewrite E, !sub_nan_l, mul_nan_r. apply sub_nan_r.
Qed.

(** The projection keeps a NaN component. *)
Lemma denom2D_nan_l p2 : denom2D S754_nan p2 = S754_nan.
Proof.
  unfold denom2D. change (F64.pow2 (f2d S754_nan)) with S754_nan.
  now destruct (F64.pow2 (f2d p2)).
Qed.

Lemma denom2D_nan_r p1 : denom2D p1 S754_nan = S754_nan.
Proof.
  unfold denom2D. change (F64.pow2 (f2d S754_nan)) with S754_nan.
  now destruct (F64.pow2 (f2d p1)).
Qed.

Lemma proj2D_nan_l methTV p2 :
  nth 0 (proj2D methTV [S754_nan; p2]) F32.zero = S754_nan.
Proof.
  unfold proj2D. destruct (methTV =? 0); [| reflexivity].
  unfold proj_iso2. cbn [pa_sqsum2 pa_gt_one binary32_arith].
  now rewrite denom2D_nan_l.
Qed.

Lemma proj2D_nan_r methTV p1 :
  nth 1 (proj2D methTV [p1; S754_nan]) F32.zero = S754_nan.
Proof.
  unfold proj2D. destruct (methTV =? 0); [| reflexivity].
  unfold proj_iso2. cbn [pa_sqsum2 pa_gt_one binary32_arith].
  now rewrite denom2D_nan_r.
Qed.

Lemma Rupd_value_nan h P P_old tkp1 tk x :
  h P x = S754_nan -> Rupd_value h P P_old tkp1 tk x = S754_nan.
Proof. intros E. unfold Rupd_value. cbv zeta. rewrite E. apply add_nan_l. Qed.

(** ** The non-negativity pass, cell by cell *)

Lemma clamp_at Output nonneg total w k :
  heap (snd (clamp Output nonneg total w)) Output k
  = if (nonneg =? 1) && (0 <=? k) && (k <? total)
    then clamp_value (heap w Output k) else heap w Output k.
Proof.
  unfold clamp. destruct (nonneg =? 1); [| reflexivity]. cbn [andb].
  destruct (Z.le_gt_cases 0 total) as [Ht | Ht].
  2:{ unfold for_. rewrite for_fold_empty by lia. cbn [snd].
      destruct (0 <=? k) eqn:E1; [| reflexivity].
      destruct (k <? total) eqn:E2; [| reflexivity].
      apply Z.leb_le in E1. apply Z.ltb_lt in E2. lia. }
  apply (for_inv (fun j w' => forall k,
            heap w' Output k
            = if (0 <=? k) && (k <? j) then clamp_value (heap w Output k)
              else heap w Output k)) with (k := k); [exact Ht | |].
  - intros k'. destruct (0 <=? k') eqn:E1; [| reflexivity].
    destruct (k' <? 0) eqn:E2; [| reflexivity].
    apply Z.leb_le in E1. apply Z.ltb_lt in E2. lia.
  - intros j w' Hj IH k'. rewrite bind_run. cbn [load fst snd].
    assert (Ej : heap w' Output j = heap w Output j).
    { rewrite IH. replace (j <? j) with false by (symmetry; apply Z.ltb_ge; lia).
      now rewrite andb_false_r. }
    destruct (Z.eq_dec k' j) as [-> | Hne].
    + replace (0 <=? j) with true by (symmetry; apply Z.leb_le; lia).
      replace (j <? j + 1) with true by (symmetry; apply Z.ltb_lt; lia).
      cbn [andb]. unfold clamp_value. rewrite <- Ej.
      destruct (heap w' Output j <? F32.zero)%f32; cbn [store ret snd heap];
        [apply upd_same | reflexivity].
    + assert (E : heap (snd ((if (heap w' Output j <? F32.zero)%f32
                              then store Output j F32.zero else ret tt) w'))
                       Output k' = heap w' Output k').
      { destruct (heap w' Output j <? F32.zero)%f32; cbn [store ret snd heap];
          [now apply upd_other_index | reflexivity]. }
      rewrite E, IH.
      replace (k' <? j + 1) with (k' <? j); [reflexivity |].
      destruct (k' <? j) eqn:E1; symmetry.
      * apply Z.ltb_lt in E1. apply Z.ltb_lt. lia.
      * apply Z.ltb_ge in E1. apply Z.ltb_ge. lia.
Qed.

Lemma clamp_nan Output nonneg total w k :
  heap w Output k = S754_nan ->
  heap (snd (clamp Output nonneg total w)) Output k = S754_nan.
Proof.
  intros E. rewrite clamp_at, E. now destruct (_ && _ && _).
Qed.

(** ** A zero regularisation parameter *)

Lemma Grad_func2D_zero_lambda P1 P2 D R1 R2 lambda dimX dimY w :
  is_zero lambda ->
  P1 <> P2 -> ~ In D [P1; P2] -> ~ In R1 [P1; P2] -> ~ In R2 [P1; P2] ->
  let w' := snd (Grad_func2D P1 P2 D R1 R2 lambda dimX dimY w) in
  (forall j, 0 < dimX -> 0 <= j < dimY ->
             heap w' P1 (index2D dimX (dimX - 1) j) = S754_nan)
  /\ (forall i, 0 <= i < dimX -> 0 < dimY ->
                heap w' P2 (index2D dimX i (dimY - 1)) = S754_nan).
Proof.
  intros Hl H12 HD H1 H2 w'. subst w'. split.
  - intros j Hx Hj.
    destruct (Grad_func2D_at P1 P2 D R1 R2 lambda dimX dimY w (dimX - 1) j)
      as [E _]; auto; [lia |].
    rewrite E. now apply Grad2D_value1_zero_lambda.
  - intros i Hi Hy.
    destruct (Grad_func2D_at P1 P2 D R1 R2 lambda dimX dimY w i (dimY - 1))
      as [_ E]; auto; [lia |].
    rewrite E. now apply Grad2D_value2_zero_lambda.
Qed.

Lemma Grad_func3D_zero_lambda P1 P2 P3 D R1 R2 R3 lambda dimX dimY dimZ w :
  is_zero lambda ->
  P1 <> P2 -> P1 <> P3 -> P2 <> P3 ->
  ~ In D [P1; P2; P3] -> ~ In R1 [P1; P2; P3] ->
  ~ In R2 [P1; P2; P3] -> ~ In R3 [P1; P2; P3] ->
  let w' := snd (Grad_func3D P1 P2 P3 D R1 R2 R3 lambda dimX dimY dimZ w) in
  forall i j k, 0 <= i < dimX -> 0 <= j < dimY -> 0 <= k < dimZ ->
    (i = dimX - 1 -> heap w' P1 (index3D dimX dimY i j k) = S754_nan)
    /\ (j = dimY - 1 -> heap w' P2 (index3D dimX dimY i j k) = S754_nan)
    /\ (k = dimZ - 1 -> heap w' P3 (index3D dimX dimY i j k) = S754_nan).
Proof.
  intros Hl H12 H13 H23 HD H1 H2 H3 w' i j k Hi Hj Hk. subst w'.
  destruct (Grad_func3D_at P1 P2 P3 D R1 R2 R3 lambda dimX dimY dimZ w i j k)
    as (E1 & E2 & E3); auto.
  rewrite E1, E2, E3.
  split; [| split]; intros ->.
  - now apply Grad3D_value1_zero_lambda.
  - now apply Grad3D_value2_zero_lambda.
  - now apply Grad3D_value3_zero_lambda.
Qed.

Section ZeroLambda2D.
Variables (Input Output : block) (lambda epsil : float32)
          (methodTV nonneg dimX dimY : Z) (n : block).
Hypothesis lambda_zero : is_zero lambda.
Hypothesis Input_old : (Input < n)%positive.
Hypothesis Output_old : (Output < n)%positive.
Hypothesis Input_Output : Input <> Output.

Local Abbreviation bufs := (fresh2D n).
Local Abbreviation step :=
  (step2D Input Output lambda epsil methodTV nonneg dimX dimY (fresh2D n)).
Local Abbreviation iteration :=
  (body2D Input Output lambda epsil methodTV nonneg dimX dimY (fresh2D n)).

Local Abbreviation duals_nan :=
  (nan_on_edges dimX dimY (n + 5)%positive (n + 6)%positive).
Local Abbreviation output_nan := (nan_on_upper_edge Output dimX dimY).

(** Whatever the memory, an iteration ends with NaNs in the duals. *)
Lemma step2D_duals_nan l w : duals_nan (snd (step l w)).
Proof.
  unfold step2D. cbn [P1 P2 P1_prev P2_prev R1 R2 Output_prev fresh2D].
  rewrite bind_run.
  set (w1 := snd (Obj_func2D Input Output (n + 5) (n + 6) lambda dimX dimY w)).
  rewrite bind_run.
  set (w2 := snd (clamp Output nonneg (dimX * dimY) w1)).
  rewrite bind_run.
  set (w3 := snd (Grad_func2D (n + 1) (n + 2) Output (n + 5) (n + 6) lambda
                              dimX dimY w2)).
  rewrite bind_run.
  set (w4 := snd (Proj_func2D (n + 1) (n + 2) methodTV dimX dimY w3)).
  cbv zeta. rewrite bind_run.
  set (w5 := snd (Rupd_func2D (n + 1) (n + 3) (n + 2) (n + 4) (n + 5) (n + 6)
                              (next_tk (tk l)) (tk l) dimX dimY w4)).
  rewrite bind_run. cbn [ret snd].
  assert (F6 : frame [] w5 (snd (residual_sums Output n (dimX * dimY) w5)))
    by apply residual_sums_writes.
  destruct F6 as (_ & _ & F6).
  intros i j Hi Hj. rewrite !F6 by (intros []).
  destruct (Grad_func2D_zero_lambda (n + 1) (n + 2) Output (n + 5) (n + 6)
              lambda dimX dimY w2 lambda_zero) as [G1 G2];
    try not_in; [lia |].
  fold w3 in G1, G2.
  pose proof (Proj_func2D_pointwise (n + 1) (n + 2) methodTV dimX dimY
                ltac:(lia) w3 i j Hi Hj) as HP.
  fold w4 in HP. unfold vals in HP. cbn [map] in HP.
  destruct (Rupd_func2D_at (n + 1) (n + 3) (n + 2) (n + 4) (n + 5) (n + 6)
              (next_tk (tk l)) (tk l) dimX dimY w4 i j) as [E1 E2];
    try not_in; try assumption; [lia |].
  fold w5 in E1, E2. rewrite E1, E2.
  split; intros ->.
  - apply Rupd_value_nan.
    rewrite G1 in HP by lia.
    assert (E : heap w4 (n + 1)%positive (index2D dimX (dimX - 1) j)
                = nth 0 [heap w4 (n + 1)%positive (index2D dimX (dimX - 1) j);
                         heap w4 (n + 2)%positive (index2D dimX (dimX - 1) j)]
                      F32.zero) by reflexivity.
    rewrite E, HP. apply proj2D_nan_l.
  - apply Rupd_value_nan.
    rewrite G2 in HP by lia.
    assert (E : heap w4 (n + 2)%positive (index2D dimX i (dimY - 1))
                = nth 1 [heap w4 (n + 1)%positive (index2D dimX i (dimY - 1));
                         heap w4 (n + 2)%positive (index2D dimX i (dimY - 1))]
                      F32.zero) by reflexivity.
    rewrite E, HP. apply proj2D_nan_r.
Qed.

(** Started with NaNs in the duals, an iteration ends with NaNs in
    [Output]. *)
Lemma step2D_output_nan l w : duals_nan w -> output_nan (snd (step l w)).
Proof.
  intros HN. unfold step2D.
  cbn [P1 P2 P1_prev P2_prev R1 R2 Output_prev fresh2D].
  rewrite bind_run.
  set (w1 := snd (Obj_func2D Input Output (n + 5) (n + 6) lambda dimX dimY w)).
  rewrite bind_run.
  set (w2 := snd (clamp Output nonneg (dimX * dimY) w1)).
  rewrite bind_run.
  set (w3 := snd (Grad_func2D (n + 1) (n + 2) Output (n + 5) (n + 6) lambda
                              dimX dimY w2)).
  assert (F3 : frame [(n + 1)%positive; (n + 2)%positive] w2 w3)
    by apply Grad_func2D_writes.
  rewrite bind_run.
  set (w4 := snd (Proj_func2D (n + 1) (n + 2) methodTV dimX dimY w3)).
  assert (F4 : frame [(n + 1)%positive; (n + 2)%positive] w3 w4)
    by apply Proj_func2D_writes.
  cbv zeta. rewrite bind_run.
  set (w5 := snd (Rupd_func2D (n + 1) (n + 3) (n + 2) (n + 4) (n + 5) (n + 6)
                              (next_tk (tk l)) (tk l) dimX dimY w4)).
  assert (F5 : frame [(n + 5)%positive; (n + 6)%positive] w4 w5)
    by apply Rupd_func2D_writes.
  rewrite bind_run. cbn [ret snd].
  assert (F6 : frame [] w5 (snd (residual_sums Output n (dimX * dimY) w5)))
    by apply residual_sums_writes.
  destruct F3 as (_ & _ & F3). destruct F4 as (_ & _ & F4).
  destruct F5 as (_ & _ & F5). destruct F6 as (_ & _ & F6).
  intros i j (Hi & Hj & Hedge).
  rewrite F6 by (intros []).
  rewrite F5 by not_in. rewrite F4 by not_in.
  rewrite F3 by not_in.
  apply clamp_nan. unfold w1.
  rewrite (Obj_func2D_at Input Output (n + 5) (n + 6) lambda dimX dimY w i j)
    by (first [assumption | lia | congruence]).
  apply Obj2D_value_nan.
  destruct (HN i j Hi Hj) as [N1 N2].
  destruct Hedge as [E | E]; [left; now apply N1 | right; now apply N2].
Qed.

Lemma store2D_writes_snapshots l :
  writes [n; (n + 3)%positive; (n + 4)%positive]
         (store2D Output dimX dimY (fresh2D n) l).
Proof.
  unfold store2D. cbn [P1 P2 P1_prev P2_prev R1 R2 Output_prev fresh2D].
  repeat (apply writes_bind;
          [ eapply writes_incl; [| apply copyIm_writes];
            intros x Hx; simpl in *; tauto
          | intros _ ]).
  apply writes_ret.
Qed.

Lemma body2D_duals_nan l w : duals_nan (snd (iteration l w)).
Proof.
  rewrite body2D_run. cbv zeta.
  destruct (4 <? _); cbn [snd]; [apply step2D_duals_nan |].
  destruct (store2D_writes_snapshots (fst (step l w)) (snd (step l w)))
    as (_ & _ & F).
  intros i j Hi Hj. rewrite !F by not_in.
  now apply step2D_duals_nan.
Qed.

Lemma body2D_output_nan l w :
  duals_nan w -> output_nan (snd (iteration l w)).
Proof.
  intros HN. rewrite body2D_run. cbv zeta.
  destruct (4 <? _); cbn [snd]; [now apply step2D_output_nan |].
  destruct (store2D_writes_snapshots (fst (step l w)) (snd (step l w)))
    as (_ & _ & F).
  intros i j He. rewrite F by not_in.
  now apply step2D_output_nan.
Qed.

(** From the second iteration on, every iteration ends with NaNs in
    [Output]. *)
Lemma trace_output_nan k : forall l w,
  duals_nan w ->
  Forall (fun r => output_nan (snd r)) (trace_break k iteration l w).
Proof.
  induction k as [| k IH]; intros l w HN; [constructor |].
  cbn [trace_break]. cbv zeta.
  constructor; [now apply body2D_output_nan |].
  destruct (fst (fst (iteration l w))); [constructor |].
  apply IH. apply body2D_duals_nan.
Qed.

Lemma trace_output_nan_tail k l w :
  Forall (fun r => output_nan (snd r)) (tl (trace_break k iteration l w)).
Proof.
  destruct k as [| k]; [constructor |].
  cbn [trace_break tl]. cbv zeta.
  destruct (fst (fst (iteration l w))); [constructor |].
  apply trace_output_nan. apply body2D_duals_nan.
Qed.
End ZeroLambda2D.

Lemma last_in_tl {A} (t : list A) d :
  (2 <= length t)%nat -> In (last t d) (tl t).
Proof.
  destruct t as [| a [| b t]]; cbn [length]; try lia. intros _.
  cbn [tl]. rewrite last_cons.
  destruct (exists_last (l := b :: t) ltac:(discriminate)) as (q & c & E).
  rewrite E, last_last. apply in_or_app. right. now left.
Qed.

Lemma zero_lambda_call Input Output lambda iter epsil methodTV nonneg printM
    dimX dimY dimZ w :
  is_zero lambda -> dimZ <= 1 -> 2 <= iter ->
  Input <> Output ->
  (Input < nextblock w)%positive -> (Output < nextblock w)%positive ->
  forall i j, upper_edge2D dimX dimY i j ->
    heap (snd (TV_FGP_CPU Input Output lambda iter epsil methodTV nonneg
                          printM dimX dimY dimZ w)) Output (index2D dimX i j)
    = S754_nan.
Proof.
  intros Hl Hz Hit Hne HI HO i j He.
  rewrite TV_FGP_CPU_exit. cbv zeta. cbn [snd]. rewrite report_heap.
  rewrite loop_exit_last. cbv zeta. cbn [snd].
  pose proof (at_least_five Input Output lambda iter epsil methodTV nonneg
                dimX dimY dimZ w) as H5.
  set (d := (false, locals0, allocated _ w)).
  assert (Hin : In (last (iterations_of_call Input Output lambda iter epsil
                            methodTV nonneg dimX dimY dimZ w) d)
                   (tl (iterations_of_call Input Output lambda iter epsil
                            methodTV nonneg dimX dimY dimZ w))).
  { apply last_in_tl. lia. }
  revert Hin. generalize (last (iterations_of_call Input Output lambda iter epsil
                            methodTV nonneg dimX dimY dimZ w) d).
  intros r Hin.
  unfold iterations_of_call, iterations2D in Hin.
  apply Z.leb_le in Hz. rewrite Hz in Hin.
  pose proof (trace_output_nan_tail Input Output lambda epsil methodTV nonneg
                dimX dimY (nextblock w) Hl HI HO Hne (Z.to_nat iter) locals0
                (allocated 7 w)) as HF.
  rewrite Forall_forall in HF. now apply (HF r Hin).
Qed.

(** ** The anisotropic projection, applied twice *)

Lemma proj_aniso_idempotent x :
  F32.valid x = true -> proj_aniso (proj_aniso x) = proj_aniso x.
Proof.
  destruct x as [s | s | | s m e]; intros Hv.
  - now destruct s.
  - reflexivity.
  - reflexivity.
  - unfold proj_aniso at 2 3. unfold fabsf, at_least_one. cbn [SFabs].
    destruct (S754_finite false m e <? F32.one)%f32 eqn:L.
    + rewrite F32_div_one by exact Hv.
      unfold proj_aniso, fabsf, at_least_one. cbn [SFabs].
      rewrite L. now apply F32_div_one.
    + rewrite F32_div_self. now destruct s.
Qed.

Lemma Proj_func2D_aniso_twice P1 P2 methTV dimX dimY w i j :
  P1 <> P2 -> methTV <> 0 -> 0 <= i < dimX -> 0 <= j < dimY ->
  F32.valid (heap w P1 (index2D dimX i j)) = true ->
  F32.valid (heap w P2 (index2D dimX i j)) = true ->
  let once := snd (Proj_func2D P1 P2 methTV dimX dimY w) in
  let twice := snd (Proj_func2D P1 P2 methTV dimX dimY once) in
  vals [P1; P2] twice (index2D dimX i j) = vals [P1; P2] once (index2D dimX i j).
Proof.
  intros H12 Hm Hi Hj V1 V2 once twice. subst once twice.
  rewrite !Proj_func2D_pointwise by assumption.
  unfold vals, proj2D. cbn [map].
  apply Z.eqb_neq in Hm. rewrite Hm.
  now rewrite !proj_aniso_idempotent.
Qed.

Lemma Proj_func3D_aniso_twice P1 P2 P3 methTV dimX dimY dimZ w i j k :
  P1 <> P2 -> P1 <> P3 -> P2 <> P3 -> methTV <> 0 ->
  0 <= i < dimX -> 0 <= j < dimY -> 0 <= k < dimZ ->
  F32.valid (heap w P1 (index3D dimX dimY i j k)) = true ->
  F32.valid (heap w P2 (index3D dimX dimY i j k)) = true ->
  F32.valid (heap w P3 (index3D dimX dimY i j k)) = true ->
  let once := snd (Proj_func3D P1 P2 P3 methTV dimX dimY dimZ w) in
  let twice := snd (Proj_func3D P1 P2 P3 methTV dimX dimY dimZ once) in
  vals [P1; P2; P3] twice (index3D dimX dimY i j k)
  = vals [P1; P2; P3] once (index3D dimX dimY i j k).
Proof.
  intros H12 H13 H23 Hm Hi Hj Hk V1 V2 V3 once twice. subst once twice.
  rewrite !Proj_func3D_pointwise by assumption.
  unfold vals, proj3D. cbn [map].
  apply Z.eqb_neq in Hm. rewrite Hm.
  now rewrite !proj_aniso_idempotent.
Qed.

(** ** What an iteration leaves in [Output] *)

Section OutputOfIteration.
Variables (Input Output : block) (lambda : float32)
          (epsil : float32) (methodTV nonneg dimX dimY dimZ : Z).

Ltac writes_from L :=
  eapply writes_incl; [| apply L]; intros x Hx; simpl in *; tauto.

(** [Output] is written by [Obj_func] and by the non-negativity pass
    only. *)
Lemma body2D_Output b l w k :
  ~ In Output (blocks2D b) ->
  heap (snd (body2D Input Output lambda epsil methodTV nonneg dimX dimY b l w))
       Output k
  = heap (snd (clamp Output nonneg (dimX * dimY)
                 (snd (Obj_func2D Input Output (R1 b) (R2 b) lambda dimX dimY w))))
         Output k.
Proof.
  intros Hout. rewrite body2D_run. cbv zeta.
  assert (Hs : heap (snd (step2D Input Output lambda epsil methodTV nonneg
                                 dimX dimY b l w)) Output k
               = heap (snd (clamp Output nonneg (dimX * dimY)
                              (snd (Obj_func2D Input Output (R1 b) (R2 b) lambda
                                               dimX dimY w)))) Output k).
  { unfold step2D. rewrite bind_run, bind_run.
    match goal with |- context [snd (?c (snd (clamp ?o ?n ?t ?w1)))] =>
      assert (Hw : writes (blocks2D b) c);
      [| destruct (Hw (snd (clamp o n t w1))) as (_ & _ & H);
         now rewrite H by exact Hout]
    end.
    apply writes_bind; [writes_from Grad_func2D_writes | intros _].
    apply writes_bind; [writes_from Proj_func2D_writes | intros _].
    cbv zeta.
    apply writes_bind; [writes_from Rupd_func2D_writes | intros _].
    apply writes_bind; [writes_from residual_sums_writes | intros sums].
    apply writes_ret. }
  destruct (4 <? _); cbn [snd]; [exact Hs |].
  destruct (store2D_writes_bufs Output dimX dimY b
              (fst (step2D Input Output lambda epsil methodTV nonneg dimX dimY
                           b l w))
              (snd (step2D Input Output lambda epsil methodTV nonneg dimX dimY
                           b l w))) as (_ & _ & H).
  rewrite H by exact Hout. exact Hs.
Qed.

Lemma body3D_Output b l w k :
  ~ In Output (blocks3D b) ->
  heap (snd (body3D Input Output lambda epsil methodTV nonneg dimX dimY dimZ
                    b l w)) Output k
  = heap (snd (clamp Output nonneg (dimX * dimY * dimZ)
                 (snd (Obj_func3D Input Output (R1_3 b) (R2_3 b) (R3_3 b) lambda
                                  dimX dimY dimZ w))))
         Output k.
Proof.
  intros Hout. rewrite body3D_run. cbv zeta.
  assert (Hs : heap (snd (step3D Input Output lambda epsil methodTV nonneg
                                 dimX dimY dimZ b l w)) Output k
               = heap (snd (clamp Output nonneg (dimX * dimY * dimZ)
                              (snd (Obj_func3D Input Output (R1_3 b) (R2_3 b)
                                               (R3_3 b) lambda dimX dimY dimZ
                                               w)))) Output k).
  { unfold step3D. rewrite bind_run, bind_run.
    match goal with |- context [snd (?c (snd (clamp ?o ?n ?t ?w1)))] =>
      assert (Hw : writes (blocks3D b) c);
      [| destruct (Hw (snd (clamp o n t w1))) as (_ & _ & H);
         now rewrite H by exact Hout]
    end.
    apply writes_bind; [writes_from Grad_func3D_writes | intros _].
    apply writes_bind; [writes_from Proj_func3D_writes | intros _].
    cbv zeta.
    apply writes_bind; [writes_from Rupd_func3D_writes | intros _].
    apply writes_bind; [writes_from residual_sums_writes | intros sums].
    apply writes_ret. }
  destruct (4 <? _); cbn [snd]; [exact Hs |].
  destruct (store3D_writes_bufs Output dimX dimY dimZ b
              (fst (step3D Input Output lambda epsil methodTV nonneg dimX dimY
                           dimZ b l w))
              (snd (step3D Input Output lambda epsil methodTV nonneg dimX dimY
                           dimZ b l w))) as (_ & _ & H).
  rewrite H by exact Hout. exact Hs.
Qed.
End OutputOfIteration.

(** ** Zero duals *)

Lemma sub_lambda_zero a lambda :
  is_finite lambda = true -> sign_is false lambda ->
  (a - lambda * F32.zero)%f32 = a.
Proof.
  destruct lambda as [s | s | | s m e]; try discriminate; cbn [sign_is];
    intros _ ->; destruct a as [[|] | | |]; reflexivity.
Qed.

Lemma Obj2D_value_zero_duals h A R1 R2 lambda dimX dimY i j :
  is_finite lambda = true -> sign_is false lambda ->
  (forall i' j', 0 <= i' < dimX -> 0 <= j' < dimY ->
     h R1 (index2D dimX i' j') = F32.zero /\
     h R2 (index2D dimX i' j') = F32.zero) ->
  0 <= i < dimX -> 0 <= j < dimY ->
  Obj2D_value h A R1 R2 lambda dimX i j = h A (index2D dimX i j).
Proof.
  intros Hf Hs Hz Hi Hj. unfold Obj2D_value. cbv zeta.
  destruct (Hz i j Hi Hj) as [-> ->].
  assert (E1 : (if i =? 0 then F32.zero else h R1 (index2D dimX (i - 1) j))
               = F32.zero).
  { destruct (Z.eqb_spec i 0); [reflexivity |]. apply Hz; lia. }
  assert (E2 : (if j =? 0 then F32.zero else h R2 (index2D dimX i (j - 1)))
               = F32.zero).
  { destruct (Z.eqb_spec j 0); [reflexivity |]. apply Hz; lia. }
  rewrite E1, E2.
  change (F32.zero + F32.zero - F32.zero - F32.zero)%f32 with F32.zero.
  now apply sub_lambda_zero.
Qed.

Lemma Obj3D_value_zero_duals h A R1 R2 R3 lambda dimX dimY dimZ i j k :
  is_finite lambda = true -> sign_is false lambda ->
  (forall i' j' k', 0 <= i' < dimX -> 0 <= j' < dimY -> 0 <= k' < dimZ ->
     h R1 (index3D dimX dimY i' j' k') = F32.zero /\
     h R2 (index3D dimX dimY i' j' k') = F32.zero /\
     h R3 (index3D dimX dimY i' j' k') = F32.zero) ->
  0 <= i < dimX -> 0 <= j < dimY -> 0 <= k < dimZ ->
  Obj3D_value h A R1 R2 R3 lambda dimX dimY i j k
  = h A (index3D dimX dimY i j k).
Proof.
  intros Hf Hs Hz Hi Hj Hk. unfold Obj3D_value. cbv zeta.
  destruct (Hz i j k Hi Hj Hk) as (-> & -> & ->).
  assert (E1 : (if i =? 0 then F32.zero
                else h R1 (index3D dimX dimY (i - 1) j k)) = F32.zero).
  { destruct (Z.eqb_spec i 0); [reflexivity |]. apply Hz; lia. }
  assert (E2 : (if j =? 0 then F32.zero
                else h R2 (index3D dimX dimY i (j - 1) k)) = F32.zero).
  { destruct (Z.eqb_spec j 0); [reflexivity |]. apply Hz; lia. }
  assert (E3 : (if k =? 0 then F32.zero
                else h R3 (index3D dimX dimY i j (k - 1))) = F32.zero).
  { destruct (Z.eqb_spec k 0); [reflexivity |]. apply Hz; lia. }
  rewrite E1, E2, E3.
  change (F32.zero + F32.zero + F32.zero - F32.zero - F32.zero - F32.zero)%f32
    with F32.zero.
  now apply sub_lambda_zero.
Qed.

Lemma in_range_b k total :
  0 <= k < total -> (0 <=? k) && (k <? total) = true.
Proof.
  intros H. apply andb_true_intro. split; [apply Z.leb_le | apply Z.ltb_lt]; lia.
Qed.

Lemma single_iteration_2D Input Output lambda epsil methodTV nonneg printM
    dimX dimY dimZ w i j :
  dimZ <= 1 -> Input <> Output ->
  (Input < nextblock w)%positive -> (Output < nextblock w)%positive ->
  is_finite lambda = true -> sign_is false lambda ->
  (forall b k, (nextblock w <= b)%positive -> heap w b k = F32.zero) ->
  0 <= i < dimX -> 0 <= j < dimY ->
  heap (snd (TV_FGP_CPU Input Output lambda 1 epsil methodTV nonneg printM
                        dimX dimY dimZ w)) Output (index2D dimX i j)
  = if nonneg =? 1 then clamp_value (heap w Input (index2D dimX i j))
    else heap w Input (index2D dimX i j).
Proof.
  intros Hz Hne HI HO Hf Hs Hzero Hi Hj.
  rewrite TV_FGP_CPU_exit. cbv zeta. cbn [snd]. rewrite report_heap.
  unfold loop_exit. apply Z.leb_le in Hz. rewrite Hz.
  unfold loop2D. change (Z.to_nat 1) with 1%nat. cbn [for_break].
  rewrite bind_run.
  assert (E : forall (r : bool * locals) w',
             snd ((if fst r then ret (snd r) else ret (snd r)) w') = w')
    by (intros r w'; now destruct (fst r)).
  rewrite E. rewrite body2D_Output by (apply fresh2D_not_in; exact HO).
  rewrite clamp_at. cbn [R1 R2 fresh2D].
  assert (EO : heap (snd (Obj_func2D Input Output (nextblock w + 5)
                            (nextblock w + 6) lambda dimX dimY (allocated 7 w)))
                    Output (index2D dimX i j)
               = heap w Input (index2D dimX i j)).
  { rewrite Obj_func2D_at by (first [assumption | lia | congruence]).
    rewrite (Obj2D_value_zero_duals _ _ _ _ _ dimX dimY); try assumption;
      [reflexivity |].
    intros i' j' _ _. cbn [allocated heap]. split; apply Hzero; lia. }
  rewrite EO. destruct (nonneg =? 1); [| reflexivity]. cbn [andb].
  now rewrite (in_range_b _ _ (index2D_range dimX dimY i j Hi Hj)).
Qed.

Lemma single_iteration_3D Input Output lambda epsil methodTV nonneg printM
    dimX dimY dimZ w i j k :
  1 < dimZ -> Input <> Output ->
  (Input < nextblock w)%positive -> (Output < nextblock w)%positive ->
  is_finite lambda = true -> sign_is false lambda ->
  (forall b x, (nextblock w <= b)%positive -> heap w b x = F32.zero) ->
  0 <= i < dimX -> 0 <= j < dimY -> 0 <= k < dimZ ->
  heap (snd (TV_FGP_CPU Input Output lambda 1 epsil methodTV nonneg printM
                        dimX dimY dimZ w)) Output (index3D dimX dimY i j k)
  = if nonneg =? 1 then clamp_value (heap w Input (index3D dimX dimY i j k))
    else heap w Input (index3D dimX dimY i j k).
Proof.
  intros Hz Hne HI HO Hf Hs Hzero Hi Hj Hk.
  rewrite TV_FGP_CPU_exit. cbv zeta. cbn [snd]. rewrite report_heap.
  unfold loop_exit.
  replace (dimZ <=? 1) with false by (symmetry; apply Z.leb_gt; lia).
  unfold loop3D. change (Z.to_nat 1) with 1%nat. cbn [for_break].
  rewrite bind_run.
  assert (E : forall (r : bool * locals) w',
             snd ((if fst r then ret (snd r) else ret (snd r)) w') = w')
    by (intros r w'; now destruct (fst r)).
  rewrite E. rewrite body3D_Output by (apply fresh3D_not_in; exact HO).
  rewrite clamp_at. cbn [R1_3 R2_3 R3_3 fresh3D].
  assert (EO : heap (snd (Obj_func3D Input Output (nextblock w + 7)
                            (nextblock w + 8) (nextblock w + 9) lambda
                            dimX dimY dimZ (allocated 10 w)))
                    Output (index3D dimX dimY i j k)
               = heap w Input (index3D dimX dimY i j k)).
  { rewrite Obj_func3D_at by (first [assumption | lia | congruence]).
    rewrite (Obj3D_value_zero_duals _ _ _ _ _ _ dimX dimY dimZ); try assumption;
      [reflexivity |].
    intros i' j' k' _ _ _. cbn [allocated heap].
    repeat split; apply Hzero; lia. }
  rewrite EO. destruct (nonneg =? 1); [| reflexivity]. cbn [andb].
  now rewrite (in_range_b _ _ (index3D_range dimX dimY dimZ i j k Hi Hj Hk)).
Qed.

(** ** What a computation reads *)

Lemma agree_incl (S S' : block -> Z -> Prop) w1 w2 :
  (forall b k, S' b k -> S b k) -> agree S w1 w2 -> agree S' w1 w2.
Proof. intros Hi [Hn Hh]. split; [exact Hn | intros b k Hs; apply Hh, Hi, Hs]. Qed.

Lemma respects_ret {A} S (a : A) : respects S (ret a).
Proof. intros w1 w2 H. now split. Qed.

Lemma respects_load (S : block -> Z -> Prop) p i : S p i -> respects S (load p i).
Proof. intros Hs w1 w2 [Hn Hh]. cbn. split; [now apply Hh | now split]. Qed.

Lemma respects_store S p i v : respects S (store p i v).
Proof.
  intros w1 w2 [Hn Hh]. cbn. split; [reflexivity |].
  split; [exact Hn |]. intros b k Hs. cbn [heap]. unfold upd.
  destruct (_ && _)%bool; [reflexivity | now apply Hh].
Qed.

Lemma respects_bind {A B} S (c : M A) (k : A -> M B) :
  respects S c -> (forall a, respects S (k a)) -> respects S (bind c k).
Proof.
  intros Hc Hk w1 w2 H. rewrite !bind_run.
  destruct (Hc w1 w2 H) as [E H']. rewrite E. now apply Hk.
Qed.

Lemma respects_for_from {A} S (body : Z -> A -> M A) n : forall i acc,
  (forall k a, i <= k < i + Z.of_nat n -> respects S (body k a)) ->
  respects S (for_from n i body acc).
Proof.
  induction n as [| n IH]; intros i acc Hb; cbn [for_from].
  - apply respects_ret.
  - apply respects_bind; [apply Hb; lia |].
    intros a. apply IH. intros k a' Hk. apply Hb. lia.
Qed.

Lemma respects_for_fold {A} S lo hi (body : Z -> A -> M A) acc :
  (forall k a, lo <= k < hi -> respects S (body k a)) ->
  respects S (for_fold lo hi body acc).
Proof.
  intros Hb. unfold for_fold. apply respects_for_from.
  intros k a Hk. apply Hb. lia.
Qed.

Lemma respects_for S lo hi (body : Z -> M unit) :
  (forall k, lo <= k < hi -> respects S (body k)) -> respects S (for_ lo hi body).
Proof. intros H. apply respects_for_fold. intros k _. apply H. Qed.

Lemma respects_for_break {St} S n (body : St -> M (bool * St)) :
  (forall s, respects S (body s)) -> forall s, respects S (for_break n body s).
Proof.
  intros Hb. induction n as [| n IH]; intros s; cbn [for_break].
  - apply respects_ret.
  - apply respects_bind; [apply Hb |].
    intros r. destruct (fst r); [apply respects_ret | apply IH].
Qed.

(** The iterations of two runs that read the same values have the same
    locals, and end in memories that agree. *)
Lemma respects_trace {St} S n (body : St -> M (bool * St)) :
  (forall s, respects S (body s)) ->
  forall s w1 w2, agree S w1 w2 ->
    Forall2 (fun r1 r2 => fst r1 = fst r2 /\ agree S (snd r1) (snd r2))
            (trace_break n body s w1) (trace_break n body s w2).
Proof.
  intros Hb. induction n as [| n IH]; intros s w1 w2 H; cbn [trace_break].
  - constructor.
  - cbv zeta. destruct (Hb s w1 w2 H) as [E H'].
    constructor; [now split |].
    rewrite E. destruct (fst (fst (body s w2))); [constructor |].
    now apply IH.
Qed.

Ltac respects_step :=
  match goal with
  | |- respects _ (bind _ _) => apply respects_bind; [| intro]
  | |- respects _ (for_ _ _ _) => apply respects_for; intros ? ?
  | |- respects _ (for_fold _ _ _ _) => apply respects_for_fold; intros ? ? ?
  | |- respects _ (ret _) => apply respects_ret
  | |- respects _ (store _ _ _) => apply respects_store
  | |- respects _ (load _ _) =>
      apply respects_load; split;
      [ first [assumption | exact I]
      | repeat match goal with
               | H : (_ =? _) = false |- _ => apply Z.eqb_neq in H
               end;
        first [ lia
              | eapply index2D_range; lia
              | eapply index3D_range; lia ] ]
  | |- respects _ (if ?c then _ else _) => destruct c eqn:?
  | |- respects _ (let _ := _ in _) => cbv zeta
  end.
Ltac respects_tac := repeat respects_step.

(** Every index below [dimX*dimY] is the index of a grid position. *)
Lemma index2D_onto dimX dimY k :
  0 <= dimX -> 0 <= k < dimX * dimY ->
  exists i j, 0 <= i < dimX /\ 0 <= j < dimY /\ k = index2D dimX i j.
Proof.
  intros Hx Hk.
  assert (Hpos : 0 < dimX).
  { destruct (Z.eq_dec dimX 0) as [E | E]; [rewrite E in Hk | ]; lia. }
  exists (k mod dimX), (k / dimX).
  pose proof (Z.mod_pos_bound k dimX Hpos) as Hm.
  pose proof (Z.div_mod k dimX ltac:(lia)) as Hd.
  assert (Hq : 0 <= k / dimX) by (apply Z.div_pos; lia).
  assert (Hq' : k / dimX < dimY).
  { apply Z.div_lt_upper_bound; [exact Hpos | lia]. }
  unfold index2D. repeat split; lia.
Qed.

Lemma index3D_onto dimX dimY dimZ k :
  0 <= dimX -> 0 <= dimY -> 0 <= k < dimX * dimY * dimZ ->
  exists i j l, 0 <= i < dimX /\ 0 <= j < dimY /\ 0 <= l < dimZ /\
                k = index3D dimX dimY i j l.
Proof.
  intros Hx Hy Hk.
  assert (Hpos : 0 < dimX * dimY).
  { destruct (Z.eq_dec (dimX * dimY) 0) as [E | E]; [rewrite E in Hk | ];
      [lia | nia]. }
  pose proof (Z.mod_pos_bound k (dimX * dimY) Hpos) as Hm.
  pose proof (Z.div_mod k (dimX * dimY) ltac:(lia)) as Hd.
  assert (Hq : 0 <= k / (dimX * dimY)) by (apply Z.div_pos; lia).
  assert (Hq' : k / (dimX * dimY) < dimZ).
  { apply Z.div_lt_upper_bound; [exact Hpos | lia]. }
  destruct (index2D_onto dimX dimY (k mod (dimX * dimY)) Hx Hm)
    as (i & j & Hi & Hj & E).
  exists i, j, (k / (dimX * dimY)).
  unfold index3D. unfold index2D in E. repeat split; lia.
Qed.

Section Reads.
Variable B : block -> Prop.

Lemma Obj2D_value_ext (h1 h2 : mem) A R1 R2 lambda dimX dimY i j :
  (forall b k, within B (dimX * dimY) b k -> h1 b k = h2 b k) ->
  B A -> B R1 -> B R2 -> 0 <= i < dimX -> 0 <= j < dimY ->
  Obj2D_value h1 A R1 R2 lambda dimX i j = Obj2D_value h2 A R1 R2 lambda dimX i j.
Proof.
  intros H HA H1 H2 Hi Hj. unfold Obj2D_value. cbv zeta.
  rewrite !(H _ (index2D dimX i j))
    by (split; [assumption | now apply index2D_range]).
  destruct (Z.eqb_spec i 0); destruct (Z.eqb_spec j 0);
    rewrite ?(H _ (index2D dimX (i - 1) j))
      by (split; [assumption | apply index2D_range; lia]);
    rewrite ?(H _ (index2D dimX i (j - 1)))
      by (split; [assumption | apply index2D_range; lia]);
    reflexivity.
Qed.

Lemma Grad2D_value1_ext (h1 h2 : mem) D R1 lambda dimX dimY i j :
  (forall b k, within B (dimX * dimY) b k -> h1 b k = h2 b k) ->
  B D -> B R1 -> 0 <= i < dimX -> 0 <= j < dimY ->
  Grad2D_value1 h1 D R1 lambda dimX i j = Grad2D_value1 h2 D R1 lambda dimX i j.
Proof.
  intros H HD H1 Hi Hj. unfold Grad2D_value1. cbv zeta.
  rewrite !(H _ (index2D dimX i j))
    by (split; [assumption | now apply index2D_range]).
  destruct (Z.eqb_spec i (dimX - 1));
    rewrite ?(H _ (index2D dimX (i + 1) j))
      by (split; [assumption | apply index2D_range; lia]);
    reflexivity.
Qed.

Lemma Grad2D_value2_ext (h1 h2 : mem) D R2 lambda dimX dimY i j :
  (forall b k, within B (dimX * dimY) b k -> h1 b k = h2 b k) ->
  B D -> B R2 -> 0 <= i < dimX -> 0 <= j < dimY ->
  Grad2D_value2 h1 D R2 lambda dimX dimY i j
  = Grad2D_value2 h2 D R2 lambda dimX dimY i j.
Proof.
  intros H HD H2 Hi Hj. unfold Grad2D_value2. cbv zeta.
  rewrite !(H _ (index2D dimX i j))
    by (split; [assumption | now apply index2D_range]).
  destruct (Z.eqb_spec j (dimY - 1));
    rewrite ?(H _ (index2D dimX i (j + 1)))
      by (split; [assumption | apply index2D_range; lia]);
    reflexivity.
Qed.

(** [Obj_func2D] reads the image and the duals inside the grid - and [D[0]]
    for the value it returns. *)
Lemma Obj_func2D_reads A D R1 R2 lambda dimX dimY w1 w2 :
  B A -> B R1 -> B R2 ->
  agree (within B (dimX * dimY)) w1 w2 ->
  agree (within B (dimX * dimY))
        (snd (Obj_func2D A D R1 R2 lambda dimX dimY w1))
        (snd (Obj_func2D A D R1 R2 lambda dimX dimY w2)).
Proof.
  intros HA H1 H2 H. unfold Obj_func2D. rewrite !bind_run. cbn [load snd].
  revert w1 w2 H.
  match goal with |- forall w1 w2, _ -> agree _ (snd (?c w1)) _ =>
    enough (Hr : respects (within B (dimX * dimY)) c)
      by (intros w1 w2 H; now apply Hr)
  end.
  respects_tac.
Qed.

(** After [Obj_func2D] the two memories agree on [D] as well. *)
Lemma Obj_func2D_defines A D R1 R2 lambda dimX dimY w1 w2 :
  B A -> B R1 -> B R2 -> ~ B D -> 0 <= dimX ->
  agree (within B (dimX * dimY)) w1 w2 ->
  agree (within (fun b => B b \/ b = D) (dimX * dimY))
        (snd (Obj_func2D A D R1 R2 lambda dimX dimY w1))
        (snd (Obj_func2D A D R1 R2 lambda dimX dimY w2)).
Proof.
  intros HA H1 H2 HD Hx H.
  destruct (Obj_func2D_reads A D R1 R2 lambda dimX dimY w1 w2 HA H1 H2 H)
    as [Hn Hh].
  split; [exact Hn |].
  intros b k [[Hb | ->] Hk]; [apply Hh; now split |].
  destruct (index2D_onto dimX dimY k Hx Hk) as (i & j & Hi & Hj & ->).
  assert (NA : D <> A) by (intros ->; contradiction).
  assert (N1 : D <> R1) by (intros ->; contradiction).
  assert (N2 : D <> R2) by (intros ->; contradiction).
  rewrite !Obj_func2D_at by assumption.
  apply (Obj2D_value_ext _ _ _ _ _ _ dimX dimY); try assumption.
  apply H.
Qed.

Lemma Grad_func2D_respects P1 P2 D R1 R2 lambda dimX dimY :
  B D -> B R1 -> B R2 ->
  respects (within B (dimX * dimY)) (Grad_func2D P1 P2 D R1 R2 lambda dimX dimY).
Proof. intros HD H1 H2. unfold Grad_func2D. respects_tac. Qed.

(** After [Grad_func2D] the two memories agree on [P1] and [P2] as well. *)
Lemma Grad_func2D_defines P1 P2 D R1 R2 lambda dimX dimY w1 w2 :
  B D -> B R1 -> B R2 -> ~ B P1 -> ~ B P2 -> P1 <> P2 -> 0 <= dimX ->
  agree (within B (dimX * dimY)) w1 w2 ->
  agree (within (fun b => B b \/ b = P1 \/ b = P2) (dimX * dimY))
        (snd (Grad_func2D P1 P2 D R1 R2 lambda dimX dimY w1))
        (snd (Grad_func2D P1 P2 D R1 R2 lambda dimX dimY w2)).
Proof.
  intros HD H1 H2 HP1 HP2 H12 Hx H.
  destruct (Grad_func2D_respects P1 P2 D R1 R2 lambda dimX dimY HD H1 H2
              w1 w2 H) as [_ [Hn Hh]].
  split; [exact Hn |].
  intros b k [Hb Hk].
  destruct Hb as [Hb | Hb]; [apply Hh; now split |].
  destruct (index2D_onto dimX dimY k Hx Hk) as (i & j & Hi & Hj & ->).
  assert (ND : ~ In D [P1; P2])
    by (intros [<- | [<- | []]]; contradiction).
  assert (NR1 : ~ In R1 [P1; P2])
    by (intros [<- | [<- | []]]; contradiction).
  assert (NR2 : ~ In R2 [P1; P2])
    by (intros [<- | [<- | []]]; contradiction).
  destruct (Grad_func2D_at P1 P2 D R1 R2 lambda dimX dimY w1 i j
              H12 ND NR1 NR2 Hi Hj) as [E1 E2].
  destruct (Grad_func2D_at P1 P2 D R1 R2 lambda dimX dimY w2 i j
              H12 ND NR1 NR2 Hi Hj) as [E1' E2'].
  destruct Hb as [-> | ->].
  - rewrite E1, E1'.
    apply (Grad2D_value1_ext _ _ _ _ _ dimX dimY); try assumption. apply H.
  - rewrite E2, E2'.
    apply (Grad2D_value2_ext _ _ _ _ _ dimX dimY); try assumption. apply H.
Qed.

Lemma Proj_func2D_respects P1 P2 methTV dimX dimY :
  B P1 -> B P2 ->
  respects (within B (dimX * dimY)) (Proj_func2D P1 P2 methTV dimX dimY).
Proof. intros H1 H2. unfold Proj_func2D. respects_tac. Qed.

Lemma Rupd_func2D_respects P1 P1o P2 P2o R1 R2 tkp1 tk dimX dimY :
  B P1 -> B P1o -> B P2 -> B P2o ->
  respects (within B (dimX * dimY))
           (Rupd_func2D P1 P1o P2 P2o R1 R2 tkp1 tk dimX dimY).
Proof. intros H1 H1o H2 H2o. unfold Rupd_func2D. respects_tac. Qed.

Lemma clamp_respects Output nonneg total :
  B Output -> respects (within B total) (clamp Output nonneg total).
Proof. intros HO. unfold clamp. respects_tac. Qed.

Lemma residual_sums_respects Output Output_prev total :
  B Output -> B Output_prev ->
  respects (within B total) (residual_sums Output Output_prev total).
Proof. intros HO HP. unfold residual_sums. respects_tac. Qed.

Lemma copyIm_respects A U dimX dimY dimZ :
  B A -> respects (within B (dimX * dimY * dimZ)) (copyIm A U dimX dimY dimZ).
Proof. intros HA. unfold copyIm. respects_tac. Qed.
End Reads.

Section Reads2D.
Variables (Input Output : block) (lambda epsil : float32)
          (methodTV nonneg dimX dimY : Z) (n : block).
Hypothesis Input_old : (Input < n)%positive.
Hypothesis Output_old : (Output < n)%positive.
Hypothesis Input_Output : Input <> Output.
Hypothesis dimX_nonneg : 0 <= dimX.

Local Abbreviation entry := (within (read_at_entry2D Output n) (dimX * dimY)).
Local Abbreviation grid_cells := (within any_block (dimX * dimY)).

Lemma grid_cells_entry w1 w2 : agree grid_cells w1 w2 -> agree entry w1 w2.
Proof. apply agree_incl. intros b k [_ Hk]. now split. Qed.

Lemma step2D_reads l w1 w2 :
  agree entry w1 w2 ->
  fst (step2D Input Output lambda epsil methodTV nonneg dimX dimY
              (fresh2D n) l w1)
  = fst (step2D Input Output lambda epsil methodTV nonneg dimX dimY
                (fresh2D n) l w2)
  /\ agree grid_cells
       (snd (step2D Input Output lambda epsil methodTV nonneg dimX dimY
                    (fresh2D n) l w1))
       (snd (step2D Input Output lambda epsil methodTV nonneg dimX dimY
                    (fresh2D n) l w2)).
Proof.
  intros H. unfold step2D.
  cbn [P1 P2 P1_prev P2_prev R1 R2 Output_prev fresh2D].
  set (B1 := fun b => read_at_entry2D Output n b \/ b = Output).
  set (B2 := fun b => B1 b \/ b = (n + 1)%positive \/ b = (n + 2)%positive).
  assert (HB0 : forall b, (b < n)%positive \/ (n + 2 < b)%positive \/ b = n ->
                          b <> Output -> read_at_entry2D Output n b).
  { intros b Hb Hne. unfold read_at_entry2D. cbn [P1 P2 fresh2D]. lia. }
  assert (HO : ~ read_at_entry2D Output n Output) by (intros [E _]; congruence).
  apply (Obj_func2D_defines (read_at_entry2D Output n) Input Output
           (n + 5) (n + 6) lambda dimX dimY w1 w2) in H;
    [| apply HB0; [lia | congruence] | apply HB0; lia | apply HB0; lia
     | exact HO | exact dimX_nonneg].
  fold B1 in H.
  rewrite (bind_run (Obj_func2D _ _ _ _ _ _ _) _ w1).
  rewrite (bind_run (Obj_func2D _ _ _ _ _ _ _) _ w2).
  set (a1 := snd (Obj_func2D Input Output (n + 5) (n + 6) lambda dimX dimY w1))
    in *.
  set (a2 := snd (Obj_func2D Input Output (n + 5) (n + 6) lambda dimX dimY w2))
    in *.
  destruct (clamp_respects B1 Output nonneg (dimX * dimY)
              ltac:(now right) a1 a2 H) as [_ Hc].
  rewrite (bind_run (clamp _ _ _) _ a1), (bind_run (clamp _ _ _) _ a2).
  set (c1 := snd (clamp Output nonneg (dimX * dimY) a1)) in *.
  set (c2 := snd (clamp Output nonneg (dimX * dimY) a2)) in *.
  apply (Grad_func2D_defines B1 (n + 1) (n + 2) Output (n + 5) (n + 6) lambda
           dimX dimY c1 c2) in Hc;
    [| now right | left; apply HB0; lia | left; apply HB0; lia
     | | | lia | exact dimX_nonneg].
  2:{ intros [[_ [E _]] | E]; [cbn [P1 fresh2D] in E | ]; lia. }
  2:{ intros [[_ [_ E]] | E]; [cbn [P2 fresh2D] in E | ]; lia. }
  fold B2 in Hc.
  assert (Hg : agree grid_cells
                 (snd (Grad_func2D (n + 1) (n + 2) Output (n + 5) (n + 6) lambda
                                   dimX dimY c1))
                 (snd (Grad_func2D (n + 1) (n + 2) Output (n + 5) (n + 6) lambda
                                   dimX dimY c2))).
  { revert Hc. apply agree_incl. intros b k [_ Hk]. split; [| exact Hk].
    unfold B2, B1, read_at_entry2D. cbn [P1 P2 fresh2D].
    destruct (Pos.eq_dec b Output); [now left; right |].
    destruct (Pos.eq_dec b (n + 1)); [now right; left |].
    destruct (Pos.eq_dec b (n + 2)); [now right; right |].
    left. left. repeat split; assumption. }
  rewrite (bind_run (Grad_func2D _ _ _ _ _ _ _ _) _ c1).
  rewrite (bind_run (Grad_func2D _ _ _ _ _ _ _ _) _ c2).
  revert Hg.
  generalize (snd (Grad_func2D (n + 1) (n + 2) Output (n + 5) (n + 6) lambda
                               dimX dimY c1)).
  generalize (snd (Grad_func2D (n + 1) (n + 2) Output (n + 5) (n + 6) lambda
                               dimX dimY c2)).
  intros g2 g1 Hg. revert g1 g2 Hg.
  match goal with |- forall g1 g2, _ -> fst (?c g1) = _ /\ _ =>
    enough (Hr : respects grid_cells c) by exact Hr
  end.
  apply respects_bind;
    [apply Proj_func2D_respects; exact I | intros _].
  cbv zeta.
  apply respects_bind;
    [apply Rupd_func2D_respects; exact I | intros _].
  apply respects_bind;
    [apply residual_sums_respects; exact I | intros sums].
  apply respects_ret.
Qed.

Lemma store2D_respects l :
  respects grid_cells (store2D Output dimX dimY (fresh2D n) l).
Proof.
  unfold store2D.
  replace (dimX * dimY) with (dimX * dimY * 1) by lia.
  repeat (apply respects_bind; [apply copyIm_respects; exact I | intros _]).
  apply respects_ret.
Qed.

Lemma body2D_reads l w1 w2 :
  agree entry w1 w2 ->
  fst (body2D Input Output lambda epsil methodTV nonneg dimX dimY
              (fresh2D n) l w1)
  = fst (body2D Input Output lambda epsil methodTV nonneg dimX dimY
                (fresh2D n) l w2)
  /\ agree grid_cells
       (snd (body2D Input Output lambda epsil methodTV nonneg dimX dimY
                    (fresh2D n) l w1))
       (snd (body2D Input Output lambda epsil methodTV nonneg dimX dimY
                    (fresh2D n) l w2)).
Proof.
  intros H. destruct (step2D_reads l w1 w2 H) as [E Hs].
  rewrite !body2D_run. cbv zeta. rewrite E.
  destruct (4 <? _); cbn [fst snd]; [now split |].
  split; [reflexivity |].
  now apply store2D_respects.
Qed.

Lemma body2D_respects_grid l :
  respects grid_cells
    (body2D Input Output lambda epsil methodTV nonneg dimX dimY (fresh2D n) l).
Proof. intros w1 w2 H. apply body2D_reads. now apply grid_cells_entry. Qed.

Lemma body2D_respects_entry l :
  respects entry
    (body2D Input Output lambda epsil methodTV nonneg dimX dimY (fresh2D n) l).
Proof.
  intros w1 w2 H. destruct (body2D_reads l w1 w2 H) as [E Hg].
  split; [exact E | now apply grid_cells_entry].
Qed.

(** A loop of at least one iteration ends in memories that agree on the
    whole grid. *)
Lemma loop2D_reads k l w1 w2 :
  agree entry w1 w2 ->
  let body := body2D Input Output lambda epsil methodTV nonneg dimX dimY
                     (fresh2D n) in
  fst (for_break k body l w1) = fst (for_break k body l w2)
  /\ (k <> O -> agree grid_cells (snd (for_break k body l w1))
                                 (snd (for_break k body l w2))).
Proof.
  intros H body. subst body. split.
  - now apply (respects_for_break _ _ _ body2D_respects_entry l w1 w2).
  - destruct k as [| k]; [congruence | intros _].
    cbn [for_break]. rewrite !bind_run.
    destruct (body2D_reads l w1 w2 H) as [E Hg]. rewrite E.
    destruct (fst (fst (body2D _ _ _ _ _ _ _ _ _ l w2))); [exact Hg |].
    now apply (respects_for_break _ _ _ body2D_respects_grid).
Qed.
End Reads2D.

Section Reads3.
Variable B : block -> Prop.

Lemma Obj3D_value_ext (h1 h2 : mem) A R1 R2 R3 lambda dimX dimY dimZ i j k :
  (forall b x, within B (dimX * dimY * dimZ) b x -> h1 b x = h2 b x) ->
  B A -> B R1 -> B R2 -> B R3 ->
  0 <= i < dimX -> 0 <= j < dimY -> 0 <= k < dimZ ->
  Obj3D_value h1 A R1 R2 R3 lambda dimX dimY i j k
  = Obj3D_value h2 A R1 R2 R3 lambda dimX dimY i j k.
Proof.
  intros H HA H1 H2 H3 Hi Hj Hk. unfold Obj3D_value. cbv zeta.
  rewrite !(H _ (index3D dimX dimY i j k))
    by (split; [assumption | now apply index3D_range]).
  destruct (Z.eqb_spec i 0); destruct (Z.eqb_spec j 0);
    destruct (Z.eqb_spec k 0);
    rewrite ?(H _ (index3D dimX dimY (i - 1) j k))
      by (split; [assumption | apply index3D_range; lia]);
    rewrite ?(H _ (index3D dimX dimY i (j - 1) k))
      by (split; [assumption | apply index3D_range; lia]);
    rewrite ?(H _ (index3D dimX dimY i j (k - 1)))
      by (split; [assumption | apply index3D_range; lia]);
    reflexivity.
Qed.

Lemma Grad3D_value1_ext (h1 h2 : mem) D R1 lambda dimX dimY dimZ i j k :
  (forall b x, within B (dimX * dimY * dimZ) b x -> h1 b x = h2 b x) ->
  B D -> B R1 -> 0 <= i < dimX -> 0 <= j < dimY -> 0 <= k < dimZ ->
  Grad3D_value1 h1 D R1 lambda dimX dimY i j k
  = Grad3D_value1 h2 D R1 lambda dimX dimY i j k.
Proof.
  intros H HD H1 Hi Hj Hk. unfold Grad3D_value1. cbv zeta.
  rewrite !(H _ (index3D dimX dimY i j k))
    by (split; [assumption | now apply index3D_range]).
  destruct (Z.eqb_spec i (dimX - 1));
    rewrite ?(H _ (index3D dimX dimY (i + 1) j k))
      by (split; [assumption | apply index3D_range; lia]);
    reflexivity.
Qed.

Lemma Grad3D_value2_ext (h1 h2 : mem) D R2 lambda dimX dimY dimZ i j k :
  (forall b x, within B (dimX * dimY * dimZ) b x -> h1 b x = h2 b x) ->
  B D -> B R2 -> 0 <= i < dimX -> 0 <= j < dimY -> 0 <= k < dimZ ->
  Grad3D_value2 h1 D R2 lambda dimX dimY i j k
  = Grad3D_value2 h2 D R2 lambda dimX dimY i j k.
Proof.
  intros H HD H2 Hi Hj Hk. unfold Grad3D_value2. cbv zeta.
  rewrite !(H _ (index3D dimX dimY i j k))
    by (split; [assumption | now apply index3D_range]).
  destruct (Z.eqb_spec j (dimY - 1));
    rewrite ?(H _ (index3D dimX dimY i (j + 1) k))
      by (split; [assumption | apply index3D_range; lia]);
    reflexivity.
Qed.

Lemma Grad3D_value3_ext (h1 h2 : mem) D R3 lambda dimX dimY dimZ i j k :
  (forall b x, within B (dimX * dimY * dimZ) b x -> h1 b x = h2 b x) ->
  B D -> B R3 -> 0 <= i < dimX -> 0 <= j < dimY -> 0 <= k < dimZ ->
  Grad3D_value3 h1 D R3 lambda dimX dimY dimZ i j k
  = Grad3D_value3 h2 D R3 lambda dimX dimY dimZ i j k.
Proof.
  intros H HD H3 Hi Hj Hk. unfold Grad3D_value3. cbv zeta.
  rewrite !(H _ (index3D dimX dimY i j k))
    by (split; [assumption | now apply index3D_range]).
  destruct (Z.eqb_spec k (dimZ - 1));
    rewrite ?(H _ (index3D dimX dimY i j (k + 1)))
      by (split; [assumption | apply index3D_range; lia]);
    reflexivity.
Qed.

Lemma Obj_func3D_reads A D R1 R2 R3 lambda dimX dimY dimZ w1 w2 :
  B A -> B R1 -> B R2 -> B R3 ->
  agree (within B (dimX * dimY * dimZ)) w1 w2 ->
  agree (within B (dimX * dimY * dimZ))
        (snd (Obj_func3D A D R1 R2 R3 lambda dimX dimY dimZ w1))
        (snd (Obj_func3D A D R1 R2 R3 lambda dimX dimY dimZ w2)).
Proof.
  intros HA H1 H2 H3 H. unfold Obj_func3D. rewrite !bind_run. cbn [load snd].
  revert w1 w2 H.
  match goal with |- forall w1 w2, _ -> agree _ (snd (?c w1)) _ =>
    enough (Hr : respects (within B (dimX * dimY * dimZ)) c)
      by (intros w1 w2 H; now apply Hr)
  end.
  respects_tac.
Qed.

Lemma Obj_func3D_defines A D R1 R2 R3 lambda dimX dimY dimZ w1 w2 :
  B A -> B R1 -> B R2 -> B R3 -> ~ B D -> 0 <= dimX -> 0 <= dimY ->
  agree (within B (dimX * dimY * dimZ)) w1 w2 ->
  agree (within (fun b => B b \/ b = D) (dimX * dimY * dimZ))
        (snd (Obj_func3D A D R1 R2 R3 lambda dimX dimY dimZ w1))
        (snd (Obj_func3D A D R1 R2 R3 lambda dimX dimY dimZ w2)).
Proof.
  intros HA H1 H2 H3 HD Hx Hy H.
  destruct (Obj_func3D_reads A D R1 R2 R3 lambda dimX dimY dimZ w1 w2
              HA H1 H2 H3 H) as [Hn Hh].
  split; [exact Hn |].
  intros b x [[Hb | ->] Hk]; [apply Hh; now split |].
  destruct (index3D_onto dimX dimY dimZ x Hx Hy Hk)
    as (i & j & k & Hi & Hj & Hl & ->).
  assert (NA : D <> A) by (intros ->; contradiction).
  assert (N1 : D <> R1) by (intros ->; contradiction).
  assert (N2 : D <> R2) by (intros ->; contradiction).
  assert (N3 : D <> R3) by (intros ->; contradiction).
  rewrite !Obj_func3D_at by assumption.
  apply (Obj3D_value_ext _ _ _ _ _ _ _ dimX dimY dimZ); try assumption.
  apply H.
Qed.

Lemma Grad_func3D_respects P1 P2 P3 D R1 R2 R3 lambda dimX dimY dimZ :
  B D -> B R1 -> B R2 -> B R3 ->
  respects (within B (dimX * dimY * dimZ))
           (Grad_func3D P1 P2 P3 D R1 R2 R3 lambda dimX dimY dimZ).
Proof. intros HD H1 H2 H3. unfold Grad_func3D. respects_tac. Qed.

Lemma Grad_func3D_defines P1 P2 P3 D R1 R2 R3 lambda dimX dimY dimZ w1 w2 :
  B D -> B R1 -> B R2 -> B R3 -> ~ B P1 -> ~ B P2 -> ~ B P3 ->
  P1 <> P2 -> P1 <> P3 -> P2 <> P3 -> 0 <= dimX -> 0 <= dimY ->
  agree (within B (dimX * dimY * dimZ)) w1 w2 ->
  agree (within (fun b => B b \/ b = P1 \/ b = P2 \/ b = P3)
                (dimX * dimY * dimZ))
        (snd (Grad_func3D P1 P2 P3 D R1 R2 R3 lambda dimX dimY dimZ w1))
        (snd (Grad_func3D P1 P2 P3 D R1 R2 R3 lambda dimX dimY dimZ w2)).
Proof.
  intros HD H1 H2 H3 HP1 HP2 HP3 H12 H13 H23 Hx Hy H.
  destruct (Grad_func3D_respects P1 P2 P3 D R1 R2 R3 lambda dimX dimY dimZ
              HD H1 H2 H3 w1 w2 H) as [_ [Hn Hh]].
  split; [exact Hn |].
  intros b x [Hb Hk].
  destruct Hb as [Hb | Hb]; [apply Hh; now split |].
  destruct (index3D_onto dimX dimY dimZ x Hx Hy Hk)
    as (i & j & k & Hi & Hj & Hl & ->).
  assert (ND : ~ In D [P1; P2; P3])
    by (intros [<- | [<- | [<- | []]]]; contradiction).
  assert (NR1 : ~ In R1 [P1; P2; P3])
    by (intros [<- | [<- | [<- | []]]]; contradiction).
  assert (NR2 : ~ In R2 [P1; P2; P3])
    by (intros [<- | [<- | [<- | []]]]; contradiction).
  assert (NR3 : ~ In R3 [P1; P2; P3])
    by (intros [<- | [<- | [<- | []]]]; contradiction).
  destruct (Grad_func3D_at P1 P2 P3 D R1 R2 R3 lambda dimX dimY dimZ w1 i j k
              H12 H13 H23 ND NR1 NR2 NR3 Hi Hj Hl) as (E1 & E2 & E3).
  destruct (Grad_func3D_at P1 P2 P3 D R1 R2 R3 lambda dimX dimY dimZ w2 i j k
              H12 H13 H23 ND NR1 NR2 NR3 Hi Hj Hl) as (E1' & E2' & E3').
  destruct Hb as [-> | [-> | ->]].
  - rewrite E1, E1'.
    apply (Grad3D_value1_ext _ _ _ _ _ dimX dimY dimZ); try assumption.
    apply H.
  - rewrite E2, E2'.
    apply (Grad3D_value2_ext _ _ _ _ _ dimX dimY dimZ); try assumption.
    apply H.
  - rewrite E3, E3'.
    apply (Grad3D_value3_ext _ _ _ _ _ dimX dimY dimZ); try assumption.
    apply H.
Qed.

Lemma Proj_func3D_respects P1 P2 P3 methTV dimX dimY dimZ :
  B P1 -> B P2 -> B P3 ->
  respects (within B (dimX * dimY * dimZ))
           (Proj_func3D P1 P2 P3 methTV dimX dimY dimZ).
Proof. intros H1 H2 H3. unfold Proj_func3D. respects_tac. Qed.

Lemma Rupd_func3D_respects P1 P1o P2 P2o P3 P3o R1 R2 R3 tkp1 tk
    dimX dimY dimZ :
  B P1 -> B P1o -> B P2 -> B P2o -> B P3 -> B P3o ->
  respects (within B (dimX * dimY * dimZ))
           (Rupd_func3D P1 P1o P2 P2o P3 P3o R1 R2 R3 tkp1 tk dimX dimY dimZ).
Proof. intros H1 H1o H2 H2o H3 H3o. unfold Rupd_func3D. respects_tac. Qed.
End Reads3.

Section Reads3D.
Variables (Input Output : block) (lambda epsil : float32)
          (methodTV nonneg dimX dimY dimZ : Z) (n : block).
Hypothesis Input_old : (Input < n)%positive.
Hypothesis Output_old : (Output < n)%positive.
Hypothesis Input_Output : Input <> Output.
Hypothesis dimX_nonneg : 0 <= dimX.
Hypothesis dimY_nonneg : 0 <= dimY.

Local Abbreviation entry3 :=
  (within (read_at_entry3D Output n) (dimX * dimY * dimZ)).
Local Abbreviation grid_cells3 := (within any_block (dimX * dimY * dimZ)).

Lemma grid_cells_entry3 w1 w2 : agree grid_cells3 w1 w2 -> agree entry3 w1 w2.
Proof. apply agree_incl. intros b k [_ Hk]. now split. Qed.

Lemma step3D_reads l w1 w2 :
  agree entry3 w1 w2 ->
  fst (step3D Input Output lambda epsil methodTV nonneg dimX dimY dimZ
              (fresh3D n) l w1)
  = fst (step3D Input Output lambda epsil methodTV nonneg dimX dimY dimZ
                (fresh3D n) l w2)
  /\ agree grid_cells3
       (snd (step3D Input Output lambda epsil methodTV nonneg dimX dimY dimZ
                    (fresh3D n) l w1))
       (snd (step3D Input Output lambda epsil methodTV nonneg dimX dimY dimZ
                    (fresh3D n) l w2)).
Proof.
  intros H. unfold step3D.
  cbn [P1_3 P2_3 P3_3 P1_prev3 P2_prev3 P3_prev3 R1_3 R2_3 R3_3 Output_prev3
       fresh3D].
  set (B1 := fun b => read_at_entry3D Output n b \/ b = Output).
  set (B2 := fun b => B1 b \/ b = (n + 1)%positive \/ b = (n + 2)%positive
                      \/ b = (n + 3)%positive).
  assert (HB0 : forall b, (b < n)%positive \/ (n + 3 < b)%positive \/ b = n ->
                          b <> Output -> read_at_entry3D Output n b).
  { intros b Hb Hne. unfold read_at_entry3D. cbn [P1_3 P2_3 P3_3 fresh3D]. lia. }
  assert (HO : ~ read_at_entry3D Output n Output) by (intros [E _]; congruence).
  apply (Obj_func3D_defines (read_at_entry3D Output n) Input Output
           (n + 7) (n + 8) (n + 9) lambda dimX dimY dimZ w1 w2) in H;
    [| apply HB0; [lia | congruence] | apply HB0; lia | apply HB0; lia
     | apply HB0; lia | exact HO | exact dimX_nonneg | exact dimY_nonneg].
  fold B1 in H.
  rewrite (bind_run (Obj_func3D _ _ _ _ _ _ _ _ _) _ w1).
  rewrite (bind_run (Obj_func3D _ _ _ _ _ _ _ _ _) _ w2).
  set (a1 := snd (Obj_func3D Input Output (n + 7) (n + 8) (n + 9) lambda
                             dimX dimY dimZ w1)) in *.
  set (a2 := snd (Obj_func3D Input Output (n + 7) (n + 8) (n + 9) lambda
                             dimX dimY dimZ w2)) in *.
  destruct (clamp_respects B1 Output nonneg (dimX * dimY * dimZ)
              ltac:(now right) a1 a2 H) as [_ Hc].
  rewrite (bind_run (clamp _ _ _) _ a1), (bind_run (clamp _ _ _) _ a2).
  set (c1 := snd (clamp Output nonneg (dimX * dimY * dimZ) a1)) in *.
  set (c2 := snd (clamp Output nonneg (dimX * dimY * dimZ) a2)) in *.
  apply (Grad_func3D_defines B1 (n + 1) (n + 2) (n + 3) Output
           (n + 7) (n + 8) (n + 9) lambda dimX dimY dimZ c1 c2) in Hc;
    [| now right | left; apply HB0; lia | left; apply HB0; lia
     | left; apply HB0; lia | | | | lia | lia | lia
     | exact dimX_nonneg | exact dimY_nonneg].
  2:{ intros [[_ [E _]] | E]; [cbn [P1_3 fresh3D] in E | ]; lia. }
  2:{ intros [[_ [_ [E _]]] | E]; [cbn [P2_3 fresh3D] in E | ]; lia. }
  2:{ intros [[_ [_ [_ E]]] | E]; [cbn [P3_3 fresh3D] in E | ]; lia. }
  fold B2 in Hc.
  assert (Hg : agree grid_cells3
                 (snd (Grad_func3D (n + 1) (n + 2) (n + 3) Output
                                   (n + 7) (n + 8) (n + 9) lambda
                                   dimX dimY dimZ c1))
                 (snd (Grad_func3D (n + 1) (n + 2) (n + 3) Output
                                   (n + 7) (n + 8) (n + 9) lambda
                                   dimX dimY dimZ c2))).
  { revert Hc. apply agree_incl. intros b k [_ Hk]. split; [| exact Hk].
    unfold B2, B1, read_at_entry3D. cbn [P1_3 P2_3 P3_3 fresh3D].
    destruct (Pos.eq_dec b Output); [now left; right |].
    destruct (Pos.eq_dec b (n + 1)); [now right; left |].
    destruct (Pos.eq_dec b (n + 2)); [now right; right; left |].
    destruct (Pos.eq_dec b (n + 3)); [now right; right; right |].
    left. left. repeat split; assumption. }
  rewrite (bind_run (Grad_func3D _ _ _ _ _ _ _ _ _ _ _) _ c1).
  rewrite (bind_run (Grad_func3D _ _ _ _ _ _ _ _ _ _ _) _ c2).
  revert Hg.
  generalize (snd (Grad_func3D (n + 1) (n + 2) (n + 3) Output
                               (n + 7) (n + 8) (n + 9) lambda
                               dimX dimY dimZ c1)).
  generalize (snd (Grad_func3D (n + 1) (n + 2) (n + 3) Output
                               (n + 7) (n + 8) (n + 9) lambda
                               dimX dimY dimZ c2)).
  intros g2 g1 Hg. revert g1 g2 Hg.
  match goal with |- forall g1 g2, _ -> fst (?c g1) = _ /\ _ =>
    enough (Hr : respects grid_cells3 c) by exact Hr
  end.
  apply respects_bind;
    [apply Proj_func3D_respects; exact I | intros _].
  cbv zeta.
  apply respects_bind;
    [apply Rupd_func3D_respects; exact I | intros _].
  apply respects_bind;
    [apply residual_sums_respects; exact I | intros sums].
  apply respects_ret.
Qed.

Lemma store3D_respects l :
  respects grid_cells3 (store3D Output dimX dimY dimZ (fresh3D n) l).
Proof.
  unfold store3D.
  repeat (apply respects_bind; [apply copyIm_respects; exact I | intros _]).
  apply respects_ret.
Qed.

Lemma body3D_reads l w1 w2 :
  agree entry3 w1 w2 ->
  fst (body3D Input Output lambda epsil methodTV nonneg dimX dimY dimZ
              (fresh3D n) l w1)
  = fst (body3D Input Output lambda epsil methodTV nonneg dimX dimY dimZ
                (fresh3D n) l w2)
  /\ agree grid_cells3
       (snd (body3D Input Output lambda epsil methodTV nonneg dimX dimY dimZ
                    (fresh3D n) l w1))
       (snd (body3D Input Output lambda epsil methodTV nonneg dimX dimY dimZ
                    (fresh3D n) l w2)).
Proof.
  intros H. destruct (step3D_reads l w1 w2 H) as [E Hs].
  rewrite !body3D_run. cbv zeta. rewrite E.
  destruct (4 <? _); cbn [fst snd]; [now split |].
  split; [reflexivity |].
  now apply store3D_respects.
Qed.

Lemma body3D_respects_grid l :
  respects grid_cells3
    (body3D Input Output lambda epsil methodTV nonneg dimX dimY dimZ
            (fresh3D n) l).
Proof. intros w1 w2 H. apply body3D_reads. now apply grid_cells_entry3. Qed.

Lemma body3D_respects_entry l :
  respects entry3
    (body3D Input Output lambda epsil methodTV nonneg dimX dimY dimZ
            (fresh3D n) l).
Proof.
  intros w1 w2 H. destruct (body3D_reads l w1 w2 H) as [E Hg].
  split; [exact E | now apply grid_cells_entry3].
Qed.

Lemma loop3D_reads k l w1 w2 :
  agree entry3 w1 w2 ->
  let body := body3D Input Output lambda epsil methodTV nonneg dimX dimY dimZ
                     (fresh3D n) in
  fst (for_break k body l w1) = fst (for_break k body l w2)
  /\ (k <> O -> agree grid_cells3 (snd (for_break k body l w1))
                                  (snd (for_break k body l w2))).
Proof.
  intros H body. subst body. split.
  - now apply (respects_for_break _ _ _ body3D_respects_entry l w1 w2).
  - destruct k as [| k]; [congruence | intros _].
    cbn [for_break]. rewrite !bind_run.
    destruct (body3D_reads l w1 w2 H) as [E Hg]. rewrite E.
    destruct (fst (fst (body3D _ _ _ _ _ _ _ _ _ _ l w2))); [exact Hg |].
    now apply (respects_for_break _ _ _ body3D_respects_grid).
Qed.
End Reads3D.

Lemma call_reads Input Output lambda iter epsil methodTV nonneg printM
    dimX dimY dimZ w1 w2 :
  0 <= dimX -> 0 <= dimY -> 1 <= iter -> Input <> Output ->
  (Input < nextblock w1)%positive -> (Output < nextblock w1)%positive ->
  nextblock w1 = nextblock w2 ->
  (forall b k, read_at_entry Output (nextblock w1) dimZ b ->
               0 <= k < total_samples dimX dimY dimZ ->
               heap w1 b k = heap w2 b k) ->
  let r1 := TV_FGP_CPU Input Output lambda iter epsil methodTV nonneg printM
                       dimX dimY dimZ w1 in
  let r2 := TV_FGP_CPU Input Output lambda iter epsil methodTV nonneg printM
                       dimX dimY dimZ w2 in
  (forall b k, 0 <= k < total_samples dimX dimY dimZ ->
               heap (snd r1) b k = heap (snd r2) b k)
  /\ fst (loop_exit Input Output lambda iter epsil methodTV nonneg
                    dimX dimY dimZ w1)
     = fst (loop_exit Input Output lambda iter epsil methodTV nonneg
                      dimX dimY dimZ w2)
  /\ (0 < total_samples dimX dimY dimZ -> fst r1 = fst r2).
Proof.
  intros Hx Hy Hit Hne HI HO Hn Hag r1 r2.
  assert (Hk : Z.to_nat iter <> O) by lia.
  assert (Hmain :
    fst (loop_exit Input Output lambda iter epsil methodTV nonneg
                   dimX dimY dimZ w1)
    = fst (loop_exit Input Output lambda iter epsil methodTV nonneg
                     dimX dimY dimZ w2)
    /\ forall b k, 0 <= k < total_samples dimX dimY dimZ ->
         heap (snd (loop_exit Input Output lambda iter epsil methodTV nonneg
                              dimX dimY dimZ w1)) b k
         = heap (snd (loop_exit Input Output lambda iter epsil methodTV nonneg
                                dimX dimY dimZ w2)) b k).
  { unfold loop_exit, total_samples, read_at_entry in *. rewrite <- Hn.
    destruct (dimZ <=? 1).
    - destruct (loop2D_reads Input Output lambda epsil methodTV nonneg
                  dimX dimY (nextblock w1) HI HO Hne Hx (Z.to_nat iter) locals0
                  (allocated 7 w1) (allocated 7 w2)) as [E Hg].
      { split; [cbn; now rewrite Hn |].
        intros b k [Hb Hr]. cbn [allocated heap]. now apply Hag. }
      split; [exact E |].
      intros b k Hr. destruct (Hg Hk) as [_ Hh]. apply Hh. now split.
    - destruct (loop3D_reads Input Output lambda epsil methodTV nonneg
                  dimX dimY dimZ (nextblock w1) HI HO Hne Hx Hy (Z.to_nat iter)
                  locals0 (allocated 10 w1) (allocated 10 w2)) as [E Hg].
      { split; [cbn; now rewrite Hn |].
        intros b k [Hb Hr]. cbn [allocated heap]. now apply Hag. }
      split; [exact E |].
      intros b k Hr. destruct (Hg Hk) as [_ Hh]. apply Hh. now split. }
  destruct Hmain as [E Hh].
  assert (H1 : forall b k, 0 <= k < total_samples dimX dimY dimZ ->
                 heap (snd r1) b k = heap (snd r2) b k).
  { intros b k Hr. subst r1 r2. rewrite !TV_FGP_CPU_exit. cbv zeta. cbn [snd].
    rewrite !report_heap. now apply Hh. }
  split; [exact H1 | split; [exact E |]].
  intros Ht. subst r1 r2. rewrite !TV_FGP_CPU_exit. cbv zeta. cbn [fst].
  rewrite !report_heap. apply Hh. lia.
Qed.

(** ** The projection and the signs *)

Lemma SFmul_sign_l prec emax s x y :
  sign_is s x -> sign_is false y -> sign_is s (SFmul prec emax x y).
Proof.
  destruct x as [sx | sx | | sx m e], y as [sy | sy | | sy m' e'];
    cbn; intros Hx Hy; subst; cbn; auto using xorb_false_r.
  rewrite xorb_false_r. apply binary_round_aux_sign.
Qed.

Lemma SFdiv_sign_l prec emax s x y :
  sign_is s x -> sign_is false y -> sign_is s (SFdiv prec emax x y).
Proof.
  destruct x as [sx | sx | | sx m e], y as [sy | sy | | sy m' e'];
    cbn; intros Hx Hy; subst; cbn; auto using xorb_false_r.
  destruct (SFdiv_core_binary prec emax (Z.pos m) e (Z.pos m') e')
    as [[mz ez] lz].
  rewrite xorb_false_r. apply binary_round_aux_sign.
Qed.

Lemma one_sign : sign_is false (f2d F32.one).
Proof. reflexivity. Qed.

Lemma denom2D_sign p1 p2 : sign_is false (denom2D p1 p2).
Proof.
  unfold denom2D, d2f. apply convert_sign, SFadd_sign; apply SFmul_self_sign.
Qed.

Lemma denom3D_sign p1 p2 p3 : sign_is false (denom3D p1 p2 p3).
Proof.
  unfold denom3D, d2f.
  apply convert_sign, SFadd_sign; [apply SFadd_sign |]; apply SFmul_self_sign.
Qed.

Lemma sq_denom_of_sign d : sign_is false d -> sign_is false (sq_denom_of d).
Proof.
  intros Hd. unfold sq_denom_of, d2f.
  apply convert_sign, SFdiv_sign; [exact one_sign |].
  apply SFsqrt_sign. unfold f2d. now apply convert_sign.
Qed.

Lemma at_least_one_sign x : sign_is false (at_least_one (fabsf x)).
Proof.
  unfold at_least_one. destruct (_ <? _)%f32; [reflexivity |].
  now destruct x.
Qed.

Lemma proj_aniso_sign s p : sign_is s p -> sign_is s (proj_aniso p).
Proof.
  intros Hp. unfold proj_aniso.
  apply SFdiv_sign_l; [exact Hp | apply at_least_one_sign].
Qed.

Lemma proj2D_sign methTV (p1 p2 : float32) s1 s2 :
  sign_is s1 p1 -> sign_is s2 p2 ->
  @Forall2 bool float32 (fun s q => sign_is s q) [s1; s2] (proj2D methTV [p1; p2]).
Proof.
  intros H1 H2. unfold proj2D. destruct (methTV =? 0).
  - unfold proj_iso2. cbn [pa_sqsum2 pa_gt_one pa_rsqrt pa_mul binary32_arith].
    destruct (denom2D p1 p2 >? F32.one)%f32; cbn [fst snd];
      repeat constructor; try assumption;
      apply SFmul_sign_l; try assumption; apply sq_denom_of_sign, denom2D_sign.
  - repeat constructor; now apply proj_aniso_sign.
Qed.

Lemma proj3D_sign methTV (p1 p2 p3 : float32) s1 s2 s3 :
  sign_is s1 p1 -> sign_is s2 p2 -> sign_is s3 p3 ->
  @Forall2 bool float32 (fun s q => sign_is s q) [s1; s2; s3] (proj3D methTV [p1; p2; p3]).
Proof.
  intros H1 H2 H3. unfold proj3D. destruct (methTV =? 0).
  - unfold proj_iso3. cbn [pa_sqsum3 pa_gt_one pa_rsqrt pa_mul binary32_arith].
    destruct (denom3D p1 p2 p3 >? F32.one)%f32; cbn [fst snd];
      repeat constructor; try assumption;
      apply SFmul_sign_l; try assumption; apply sq_denom_of_sign, denom3D_sign.
  - repeat constructor; now apply proj_aniso_sign.
Qed.

Lemma Proj_func2D_signs P1 P2 methTV dimX dimY w i j s1 s2 :
  P1 <> P2 -> 0 <= i < dimX -> 0 <= j < dimY ->
  sign_is s1 (heap w P1 (index2D dimX i j)) ->
  sign_is s2 (heap w P2 (index2D dimX i j)) ->
  let w' := snd (Proj_func2D P1 P2 methTV dimX dimY w) in
  sign_is s1 (heap w' P1 (index2D dimX i j))
  /\ sign_is s2 (heap w' P2 (index2D dimX i j)).
Proof.
  intros H12 Hi Hj S1 S2 w'. subst w'.
  pose proof (Proj_func2D_pointwise P1 P2 methTV dimX dimY H12 w i j Hi Hj)
    as E.
  pose proof (proj2D_sign methTV _ _ s1 s2 S1 S2) as F.
  unfold vals in E. cbn [map] in E. rewrite <- E in F.
  inversion F as [| ? ? ? ? F1 F']; subst.
  inversion F' as [| ? ? ? ? F2 _]; subst.
  now split.
Qed.

Lemma Proj_func3D_signs P1 P2 P3 methTV dimX dimY dimZ w i j k s1 s2 s3 :
  P1 <> P2 -> P1 <> P3 -> P2 <> P3 ->
  0 <= i < dimX -> 0 <= j < dimY -> 0 <= k < dimZ ->
  sign_is s1 (heap w P1 (index3D dimX dimY i j k)) ->
  sign_is s2 (heap w P2 (index3D dimX dimY i j k)) ->
  sign_is s3 (heap w P3 (index3D dimX dimY i j k)) ->
  let w' := snd (Proj_func3D P1 P2 P3 methTV dimX dimY dimZ w) in
  sign_is s1 (heap w' P1 (index3D dimX dimY i j k))
  /\ sign_is s2 (heap w' P2 (index3D dimX dimY i j k))
  /\ sign_is s3 (heap w' P3 (index3D dimX dimY i j k)).
Proof.
  intros H12 H13 H23 Hi Hj Hk S1 S2 S3 w'. subst w'.
  pose proof (Proj_func3D_pointwise P1 P2 P3 methTV dimX dimY dimZ H12 H13 H23
                w i j k Hi Hj Hk) as E.
  pose proof (proj3D_sign methTV _ _ _ s1 s2 s3 S1 S2 S3) as F.
  unfold vals in E. cbn [map] in E. rewrite <- E in F.
  inversion F as [| ? ? ? ? F1 F']; subst.
  inversion F' as [| ? ? ? ? F2 F'']; subst.
  inversion F'' as [| ? ? ? ? F3 _]; subst.
  now repeat split.
Qed.

(** ** The properties *)

(** X1 (what [Obj_func2D] / [Obj_func3D] compute): when [D] is none of [A],
    [R1], [R2] ([R3]), the call leaves at every grid position of [D] the
    input sample minus [lambda] times the backward-difference divergence of
    the duals read in the memory before the call, a dual beyond the lower
    edge of the grid counting as [0.0f]. *)
Theorem X1_Obj_func_position_by_position :
  (forall A D R1 R2 lambda dimX dimY w i j,
      D <> A -> D <> R1 -> D <> R2 -> 0 <= i < dimX -> 0 <= j < dimY ->
      heap (snd (Obj_func2D A D R1 R2 lambda dimX dimY w)) D (index2D dimX i j)
      = Obj2D_value (heap w) A R1 R2 lambda dimX i j)
  /\ (forall A D R1 R2 R3 lambda dimX dimY dimZ w i j k,
      D <> A -> D <> R1 -> D <> R2 -> D <> R3 ->
      0 <= i < dimX -> 0 <= j < dimY -> 0 <= k < dimZ ->
      heap (snd (Obj_func3D A D R1 R2 R3 lambda dimX dimY dimZ w)) D
           (index3D dimX dimY i j k)
      = Obj3D_value (heap w) A R1 R2 R3 lambda dimX dimY i j k).
Proof.
  split; intros; [now apply Obj_func2D_at | now apply Obj_func3D_at].
Qed.

Lemma X1_witness :
  let w := demo_world F32.one [F32.of_Z 1; F32.of_Z 2; F32.of_Z 3; F32.of_Z 4]
                      [] in
  ((2 <> 1)%positive /\ (2 <> 3)%positive /\ (2 <> 4)%positive /\
   0 <= 1 < 2 /\
   heap (snd (Obj_func2D 1 2 3 4 two 2 2 w)) 2%positive (index2D 2 1 0)
   = F32.of_Z 0)
  /\ ((2 <> 5)%positive /\ 0 <= 0 < 1 /\
      heap (snd (Obj_func3D 1 2 3 4 5 two 2 2 1 w)) 2%positive
           (index3D 2 2 1 1 0) = F32.of_Z 2).
Proof.
  intros w.
  destruct X1_Obj_func_position_by_position as [H2 H3].
  assert (N1 : (2 <> 1)%positive) by discriminate.
  assert (N3 : (2 <> 3)%positive) by discriminate.
  assert (N4 : (2 <> 4)%positive) by discriminate.
  assert (N5 : (2 <> 5)%positive) by discriminate.
  assert (R1 : 0 <= 1 < 2) by lia.
  assert (R0 : 0 <= 0 < 2) by lia.
  assert (Rz : 0 <= 0 < 1) by lia.
  split.
  - split; [exact N1 | split; [exact N3 | split; [exact N4 | split; [exact R1 |]]]].
    etransitivity;
      [exact (H2 1%positive 2%positive 3%positive 4%positive two 2 2 w 1 0
                 N1 N3 N4 R1 R0) |].
    vm_compute. reflexivity.
  - split; [exact N5 | split; [exact Rz |]].
    etransitivity;
      [exact (H3 1%positive 2%positive 3%positive 4%positive 5%positive two
                 2 2 1 w 1 1 0 N1 N3 N4 N5 R1 R1 Rz) |].
    vm_compute. reflexivity.
Defined.

(** X2 (what [Grad_func2D] / [Grad_func3D] compute): when the [P] buffers
    are pairwise distinct and none of them is [D] or an [R] buffer, the call
    leaves at every grid position of [P_d] the dual [R_d] plus
    [1/(8 lambda)] times the forward difference of [D] along axis [d], read
    in the memory before the call; at the upper edge of the axis the
    difference is [0.0f]. *)
Theorem X2_Grad_func_position_by_position :
  (forall P1 P2 D R1 R2 lambda dimX dimY w i j,
      P1 <> P2 -> ~ In D [P1; P2] -> ~ In R1 [P1; P2] -> ~ In R2 [P1; P2] ->
      0 <= i < dimX -> 0 <= j < dimY ->
      let w' := snd (Grad_func2D P1 P2 D R1 R2 lambda dimX dimY w) in
      heap w' P1 (index2D dimX i j)
      = Grad2D_value1 (heap w) D R1 lambda dimX i j
      /\ heap w' P2 (index2D dimX i j)
         = Grad2D_value2 (heap w) D R2 lambda dimX dimY i j)
  /\ (forall P1 P2 P3 D R1 R2 R3 lambda dimX dimY dimZ w i j k,
      P1 <> P2 -> P1 <> P3 -> P2 <> P3 ->
      ~ In D [P1; P2; P3] -> ~ In R1 [P1; P2; P3] ->
      ~ In R2 [P1; P2; P3] -> ~ In R3 [P1; P2; P3] ->
      0 <= i < dimX -> 0 <= j < dimY -> 0 <= k < dimZ ->
      let w' := snd (Grad_func3D P1 P2 P3 D R1 R2 R3 lambda dimX dimY dimZ w) in
      let x := index3D dimX dimY i j k in
      heap w' P1 x = Grad3D_value1 (heap w) D R1 lambda dimX dimY i j k
      /\ heap w' P2 x = Grad3D_value2 (heap w) D R2 lambda dimX dimY i j k
      /\ heap w' P3 x = Grad3D_value3 (heap w) D R3 lambda dimX dimY dimZ i j k).
Proof.
  split; intros; [now apply Grad_func2D_at | now apply Grad_func3D_at].
Qed.

Ltac not_in_list := cbn; intros H; repeat (destruct H as [H | H]; [discriminate |]); exact H.

Lemma X2_witness :
  let w := demo_world F32.one [F32.of_Z 9; F32.of_Z 1; F32.of_Z 5; F32.of_Z 5]
                      [] in
  (3 <> 4)%positive /\ ~ In 1%positive [3; 4]%positive /\
  ~ In 5%positive [3; 4]%positive /\ ~ In 6%positive [3; 4]%positive /\
  0 <= 0 < 2 /\ 0 <= 1 < 2 /\
  (heap (snd (Grad_func2D 3 4 1 5 6 F32.one 2 2 w)) 3%positive (index2D 2 0 0)
   = F32.of_Z 2 /\
   heap (snd (Grad_func2D 3 4 1 5 6 F32.one 2 2 w)) 4%positive (index2D 2 0 0)
   = S754_finite false 12582912 (-23))
  /\ heap (snd (Grad_func2D 3 4 1 5 6 F32.one 2 2 w)) 3%positive (index2D 2 1 1)
     = F32.one.
Proof.
  intros w.
  destruct X2_Grad_func_position_by_position as [H2 _].
  assert (N34 : (3 <> 4)%positive) by discriminate.
  assert (N1 : ~ In 1%positive [3; 4]%positive) by not_in_list.
  assert (N5 : ~ In 5%positive [3; 4]%positive) by not_in_list.
  assert (N6 : ~ In 6%positive [3; 4]%positive) by not_in_list.
  assert (R0 : 0 <= 0 < 2) by lia.
  assert (R1 : 0 <= 1 < 2) by lia.
  split; [exact N34 | split; [exact N1 | split; [exact N5 | split; [exact N6 |
    split; [exact R0 | split; [exact R1 |]]]]]].
  pose proof (H2 3%positive 4%positive 1%positive 5%positive 6%positive F32.one
                 2 2 w 0 0 N34 N1 N5 N6 R0 R0) as [E1 E2].
  pose proof (H2 3%positive 4%positive 1%positive 5%positive 6%positive F32.one
                 2 2 w 1 1 N34 N1 N5 N6 R1 R1) as [E3 _].
  split; [split |].
  - etransitivity; [exact E1 |]. vm_compute. reflexivity.
  - etransitivity; [exact E2 |]. vm_compute. reflexivity.
  - etransitivity; [exact E3 |]. vm_compute. reflexivity.
Defined.

(** X3 (what [Rupd_func2D] / [Rupd_func3D] compute): when the [R] buffers
    are pairwise distinct and none of them is a [P] or [P_old] buffer, the
    call leaves at every grid position of [R_d] the value
    [P_d + ((tk-1)/tkp1) * (P_d - P_d_old)] read in the memory before the
    call. *)
Theorem X3_Rupd_func_position_by_position :
  (forall P1 P1_old P2 P2_old R1 R2 tkp1 tk dimX dimY w i j,
      R1 <> R2 -> ~ In P1 [R1; R2] -> ~ In P1_old [R1; R2] ->
      ~ In P2 [R1; R2] -> ~ In P2_old [R1; R2] ->
      0 <= i < dimX -> 0 <= j < dimY ->
      let w' := snd (Rupd_func2D P1 P1_old P2 P2_old R1 R2 tkp1 tk
                                 dimX dimY w) in
      let x := index2D dimX i j in
      heap w' R1 x = Rupd_value (heap w) P1 P1_old tkp1 tk x
      /\ heap w' R2 x = Rupd_value (heap w) P2 P2_old tkp1 tk x)
  /\ (forall P1 P1_old P2 P2_old P3 P3_old R1 R2 R3 tkp1 tk
             dimX dimY dimZ w i j k,
      R1 <> R2 -> R1 <> R3 -> R2 <> R3 ->
      ~ In P1 [R1; R2; R3] -> ~ In P1_old [R1; R2; R3] ->
      ~ In P2 [R1; R2; R3] -> ~ In P2_old [R1; R2; R3] ->
      ~ In P3 [R1; R2; R3] -> ~ In P3_old [R1; R2; R3] ->
      0 <= i < dimX -> 0 <= j < dimY -> 0 <= k < dimZ ->
      let w' := snd (Rupd_func3D P1 P1_old P2 P2_old P3 P3_old R1 R2 R3
                                 tkp1 tk dimX dimY dimZ w) in
      let x := index3D dimX dimY i j k in
      heap w' R1 x = Rupd_value (heap w) P1 P1_old tkp1 tk x
      /\ heap w' R2 x = Rupd_value (heap w) P2 P2_old tkp1 tk x
      /\ heap w' R3 x = Rupd_value (heap w) P3 P3_old tkp1 tk x).
Proof.
  split; intros; [now apply Rupd_func2D_at | now apply Rupd_func3D_at].
Qed.

Lemma X3_witness :
  let w := demo_world F32.one [F32.of_Z 3; F32.of_Z 7] [F32.of_Z 1; F32.of_Z 1] in
  (5 <> 6)%positive /\ ~ In 1%positive [5; 6]%positive /\
  ~ In 2%positive [5; 6]%positive /\ 0 <= 1 < 2 /\ 0 <= 0 < 1 /\
  heap (snd (Rupd_func2D 1 2 1 2 5 6 two two 2 1 w)) 5%positive (index2D 2 1 0)
  = F32.of_Z 10.
Proof.
  intros w.
  destruct X3_Rupd_func_position_by_position as [H2 _].
  assert (N56 : (5 <> 6)%positive) by discriminate.
  assert (N1 : ~ In 1%positive [5; 6]%positive) by not_in_list.
  assert (N2 : ~ In 2%positive [5; 6]%positive) by not_in_list.
  assert (R1 : 0 <= 1 < 2) by lia.
  assert (R0 : 0 <= 0 < 1) by lia.
  split; [exact N56 | split; [exact N1 | split; [exact N2 | split; [exact R1 |
    split; [exact R0 |]]]]].
  pose proof (H2 1%positive 2%positive 1%positive 2%positive 5%positive
                 6%positive two two 2 1 w 1 0 N56 N1 N2 N1 N2 R1 R0) as [E1 _].
  etransitivity; [exact E1 |]. vm_compute. reflexivity.
Defined.







(** X7 (the diagnostic): a call prints exactly one number when
    [printM == 1] and nothing otherwise; the number is the count of
    iterations that ran to their end, the iteration left through [break]
    not counted. *)
Theorem X7_diagnostic_reports_completed_iterations :
  forall (Input Output : block) lambda iter epsil methodTV nonneg printM
         dimX dimY dimZ (w : world),
    stdout (snd (TV_FGP_CPU Input Output lambda iter epsil methodTV nonneg
                            printM dimX dimY dimZ w))
    = stdout w ++
      (if printM =? 1
       then [completed (iterations_of_call Input Output lambda iter epsil
                                           methodTV nonneg dimX dimY dimZ w)]
       else []).
Proof.
  intros. rewrite TV_FGP_CPU_exit. cbv zeta. cbn [snd].
  now rewrite report_stdout, loop_exit_stdout, loop_exit_ll.
Qed.




(** X10 (the non-negativity pass, lines 68 and 123): with [nonneg == 1] the
    pass replaces by [0.0f] exactly the samples among the first [total] of
    [Output] that compare below zero, and leaves every other cell of memory
    bit for bit as it was - a NaN and a [-0.0f] included; with any other
    value of [nonneg] it changes nothing. *)
Theorem X10_nonnegativity_pass :
  forall (Output : block) nonneg total (w : world),
    let w' := snd (clamp Output nonneg total w) in
    (nonneg = 1 -> forall k, 0 <= k < total ->
       heap w' Output k = clamp_value (heap w Output k))
    /\ (nonneg = 1 -> forall k, (heap w Output k <? F32.zero)%f32 = false ->
          heap w' Output k = heap w Output k)
    /\ (forall b k, ~ (b = Output /\ 0 <= k < total) ->
          heap w' b k = heap w b k)
    /\ (nonneg <> 1 -> forall b k, heap w' b k = heap w b k).
Proof.
  intros Output nonneg total w w'. subst w'.
  assert (Hout : forall b k, ~ (b = Output /\ 0 <= k < total) ->
            heap (snd (clamp Output nonneg total w)) b k = heap w b k).
  { intros b k Hn.
    destruct (clamp_touches Output nonneg total w) as (_ & _ & H).
    apply H. intros [[-> | []] Hk]. apply Hn. now split. }
  split; [| split; [| split; [exact Hout |]]].
  - intros -> k Hk. rewrite clamp_at. cbn [Z.eqb Pos.eqb andb].
    now rewrite in_range_b.
  - intros -> k Hlt. rewrite clamp_at. unfold clamp_value. rewrite Hlt.
    now destruct (_ && _ && _).
  - intros Hne b k. unfold clamp.
    apply Z.eqb_neq in Hne. now rewrite Hne.
Qed.

Lemma X10_witness :
  let w := demo_world F32.zero []
                      [F32.of_Z (-3); S754_nan; S754_zero true; F32.of_Z (-4)] in
  let w' := snd (clamp 2 1 3 w) in
  (1 = 1 /\ 0 <= 0 < 3 /\ heap w' 2%positive 0 = F32.zero)
  /\ ((S754_nan <? F32.zero)%f32 = false /\ heap w' 2%positive 1 = S754_nan)
  /\ ((S754_zero true <? F32.zero)%f32 = false
      /\ heap w' 2%positive 2 = S754_zero true)
  /\ (~ (2%positive = 2%positive /\ 0 <= 3 < 3)
      /\ heap w' 2%positive 3 = F32.of_Z (-4))
  /\ (0 <> 1 /\ heap (snd (clamp 2 0 3 w)) 2%positive 0 = F32.of_Z (-3)).
Proof.
  intros w w'.
  destruct (X10_nonnegativity_pass 2 1 3 w) as (H1 & H2 & H3 & _).
  destruct (X10_nonnegativity_pass 2 0 3 w) as (_ & _ & _ & H4).
  assert (E1 : 1 = 1) by reflexivity.
  assert (R0 : 0 <= 0 < 3) by lia.
  assert (L1 : (S754_nan <? F32.zero)%f32 = false) by reflexivity.
  assert (L2 : (S754_zero true <? F32.zero)%f32 = false) by reflexivity.
  assert (N3 : ~ (2%positive = 2%positive /\ 0 <= 3 < 3)) by lia.
  assert (N01 : 0 <> 1) by discriminate.
  split; [split; [exact E1 | split; [exact R0 |]] |
    split; [split; [exact L1 |] |
      split; [split; [exact L2 |] |
        split; [split; [exact N3 |] | split; [exact N01 |]]]]].
  - exact (H1 E1 0 R0).
  - exact (H2 E1 1 L1).
  - exact (H2 E1 2 L2).
  - exact (H3 2%positive 3 N3).
  - exact (H4 N01 2%positive 0).
Defined.

(** X11 (a zero [lambda] in [Grad_func]): the step size [1/(8 lambda)] is
    computed without a guard; with [lambda = 0] it is infinite, and its
    product with the zero difference taken at the upper edge of an axis is
    a NaN.  So [Grad_func2D] leaves a NaN in the whole last column of [P1]
    and the whole last row of [P2], and [Grad_func3D] in the last plane of
    each [P_d] along its axis, whatever the buffers held. *)
Theorem X11_zero_lambda_in_Grad_func :
  (forall P1 P2 D R1 R2 lambda dimX dimY w,
      is_zero lambda ->
      P1 <> P2 -> ~ In D [P1; P2] -> ~ In R1 [P1; P2] -> ~ In R2 [P1; P2] ->
      let w' := snd (Grad_func2D P1 P2 D R1 R2 lambda dimX dimY w) in
      (forall j, 0 < dimX -> 0 <= j < dimY ->
                 heap w' P1 (index2D dimX (dimX - 1) j) = S754_nan)
      /\ (forall i, 0 <= i < dimX -> 0 < dimY ->
                    heap w' P2 (index2D dimX i (dimY - 1)) = S754_nan))
  /\ (forall P1 P2 P3 D R1 R2 R3 lambda dimX dimY dimZ w,
      is_zero lambda ->
      P1 <> P2 -> P1 <> P3 -> P2 <> P3 ->
      ~ In D [P1; P2; P3] -> ~ In R1 [P1; P2; P3] ->
      ~ In R2 [P1; P2; P3] -> ~ In R3 [P1; P2; P3] ->
      let w' := snd (Grad_func3D P1 P2 P3 D R1 R2 R3 lambda dimX dimY dimZ w) in
      forall i j k, 0 <= i < dimX -> 0 <= j < dimY -> 0 <= k < dimZ ->
        (i = dimX - 1 -> heap w' P1 (index3D dimX dimY i j k) = S754_nan)
        /\ (j = dimY - 1 -> heap w' P2 (index3D dimX dimY i j k) = S754_nan)
        /\ (k = dimZ - 1 -> heap w' P3 (index3D dimX dimY i j k) = S754_nan)).
Proof.
  split; intros.
  - now apply Grad_func2D_zero_lambda.
  - now apply Grad_func3D_zero_lambda.
Qed.

Lemma X11_witness :
  let w := demo_world F32.one [F32.of_Z 9; F32.of_Z 1] [] in
  is_zero F32.zero /\ (3 <> 4)%positive /\ ~ In 1%positive [3; 4]%positive /\
  ~ In 5%positive [3; 4]%positive /\ ~ In 6%positive [3; 4]%positive /\
  0 < 2 /\ 0 <= 0 < 1 /\
  heap (snd (Grad_func2D 3 4 1 5 6 F32.zero 2 1 w)) 3%positive
       (index2D 2 (2 - 1) 0) = S754_nan.
Proof.
  intros w.
  destruct X11_zero_lambda_in_Grad_func as [H2 _].
  assert (Z0 : is_zero F32.zero) by exact I.
  assert (N34 : (3 <> 4)%positive) by discriminate.
  assert (N1 : ~ In 1%positive [3; 4]%positive) by not_in_list.
  assert (N5 : ~ In 5%positive [3; 4]%positive) by not_in_list.
  assert (N6 : ~ In 6%positive [3; 4]%positive) by not_in_list.
  assert (Hx : 0 < 2) by lia.
  assert (R0 : 0 <= 0 < 1) by lia.
  split; [exact Z0 | split; [exact N34 | split; [exact N1 | split; [exact N5 |
    split; [exact N6 | split; [exact Hx | split; [exact R0 |]]]]]]].
  exact (proj1 (H2 3%positive 4%positive 1%positive 5%positive 6%positive
                   F32.zero 2 1 w Z0 N34 N1 N5 N6) 0 Hx R0).
Defined.

(** X12 (a zero [lambda] in the driver, 2D): a call with [lambda = 0] and a
    cap of at least 2 returns with a NaN in every sample of the last column
    and of the last row of [Output], whatever the image, the tolerance and
    the other switches: the NaNs of the gradient step survive the
    projection and the momentum update, and the next [Obj_func2D] carries
    them into [Output]. *)
Theorem X12_zero_lambda_gives_nan :
  forall (Input Output : block) lambda iter epsil methodTV nonneg printM
         dimX dimY dimZ (w : world),
    is_zero lambda -> dimZ <= 1 -> 2 <= iter ->
    Input <> Output ->
    (Input < nextblock w)%positive -> (Output < nextblock w)%positive ->
    forall i j, upper_edge2D dimX dimY i j ->
      heap (snd (TV_FGP_CPU Input Output lambda iter epsil methodTV nonneg
                            printM dimX dimY dimZ w)) Output (index2D dimX i j)
      = S754_nan.
Proof. intros. now apply zero_lambda_call. Qed.

Lemma X12_witness :
  let w := demo_world F32.zero
                      [F32.of_Z 1; F32.of_Z 9; F32.of_Z 4; F32.of_Z 4]
                      [F32.zero; F32.zero; F32.zero; F32.zero] in
  is_zero F32.zero /\ 1 <= 1 /\ 2 <= 3 /\ (1 <> 2)%positive /\
  (1 < nextblock w)%positive /\ (2 < nextblock w)%positive /\
  upper_edge2D 2 2 1 0 /\
  heap (snd (TV_FGP_CPU 1 2 F32.zero 3 F32.zero 0 0 0 2 2 1 w)) 2%positive
       (index2D 2 1 0) = S754_nan.
Proof.
  intros w.
  assert (Z0 : is_zero F32.zero) by exact I.
  assert (Hz : 1 <= 1) by lia.
  assert (Hi : 2 <= 3) by lia.
  assert (N : (1 <> 2)%positive) by discriminate.
  assert (L1 : (1 < nextblock w)%positive) by reflexivity.
  assert (L2 : (2 < nextblock w)%positive) by reflexivity.
  assert (He : upper_edge2D 2 2 1 0) by (unfold upper_edge2D; lia).
  split; [exact Z0 | split; [exact Hz | split; [exact Hi | split; [exact N |
    split; [exact L1 | split; [exact L2 | split; [exact He |]]]]]]].
  exact (X12_zero_lambda_gives_nan 1 2 F32.zero 3 F32.zero 0 0 0 2 2 1 w
           Z0 Hz Hi N L1 L2 1 0 He).
Defined.

(** X13 (the anisotropic projection is idempotent): on buffers holding
    valid binary32 values, applying [Proj_func2D] / [Proj_func3D] with a
    selector other than 0 a second time changes nothing: every grid
    position holds after two applications what it held after one. *)
Theorem X13_anisotropic_projection_idempotent :
  (forall P1 P2 methTV dimX dimY w i j,
      P1 <> P2 -> methTV <> 0 -> 0 <= i < dimX -> 0 <= j < dimY ->
      F32.valid (heap w P1 (index2D dimX i j)) = true ->
      F32.valid (heap w P2 (index2D dimX i j)) = true ->
      let once := snd (Proj_func2D P1 P2 methTV dimX dimY w) in
      let twice := snd (Proj_func2D P1 P2 methTV dimX dimY once) in
      vals [P1; P2] twice (index2D dimX i j)
      = vals [P1; P2] once (index2D dimX i j))
  /\ (forall P1 P2 P3 methTV dimX dimY dimZ w i j k,
      P1 <> P2 -> P1 <> P3 -> P2 <> P3 -> methTV <> 0 ->
      0 <= i < dimX -> 0 <= j < dimY -> 0 <= k < dimZ ->
      F32.valid (heap w P1 (index3D dimX dimY i j k)) = true ->
      F32.valid (heap w P2 (index3D dimX dimY i j k)) = true ->
      F32.valid (heap w P3 (index3D dimX dimY i j k)) = true ->
      let once := snd (Proj_func3D P1 P2 P3 methTV dimX dimY dimZ w) in
      let twice := snd (Proj_func3D P1 P2 P3 methTV dimX dimY dimZ once) in
      vals [P1; P2; P3] twice (index3D dimX dimY i j k)
      = vals [P1; P2; P3] once (index3D dimX dimY i j k)).
Proof.
  split; intros.
  - now apply Proj_func2D_aniso_twice.
  - now apply Proj_func3D_aniso_twice.
Qed.

Lemma X13_witness :
  let w := demo_world F32.zero [F32.of_Z (-7)] [F32.half] in
  let once := snd (Proj_func2D 1 2 1 1 1 w) in
  let twice := snd (Proj_func2D 1 2 1 1 1 once) in
  (1 <> 2)%positive /\ 1 <> 0 /\ 0 <= 0 < 1 /\
  F32.valid (heap w 1%positive (index2D 1 0 0)) = true /\
  F32.valid (heap w 2%positive (index2D 1 0 0)) = true /\
  vals [1; 2]%positive twice (index2D 1 0 0) = [F32.of_Z (-1); F32.half].
Proof.
  intros w once twice.
  destruct X13_anisotropic_projection_idempotent as [H2 _].
  assert (N : (1 <> 2)%positive) by discriminate.
  assert (M : 1 <> 0) by discriminate.
  assert (R0 : 0 <= 0 < 1) by lia.
  assert (V1 : F32.valid (heap w 1%positive (index2D 1 0 0)) = true)
    by reflexivity.
  assert (V2 : F32.valid (heap w 2%positive (index2D 1 0 0)) = true)
    by reflexivity.
  split; [exact N | split; [exact M | split; [exact R0 | split; [exact V1 |
    split; [exact V2 |]]]]].
  etransitivity;
    [exact (H2 1%positive 2%positive 1 1 1 w 0 0 N M R0 R0 V1 V2) |].
  vm_compute. reflexivity.
Defined.

(** X14 (a single iteration from zero duals): when the memory handed out
    by [malloc] holds zeros and [lambda] is finite and not negative, a call
    with a cap of 1 returns the input image itself in [Output], sample for
    sample and bit for bit, passed through the non-negativity pass when
    [nonneg == 1]: the first iterate of the scheme is the input, and any
    smoothing needs at least two iterations. *)
Theorem X14_single_iteration_returns_input :
  forall (Input Output : block) lambda epsil methodTV nonneg printM
         dimX dimY dimZ (w : world),
    Input <> Output ->
    (Input < nextblock w)%positive -> (Output < nextblock w)%positive ->
    is_finite lambda = true -> sign_is false lambda ->
    (forall b k, (nextblock w <= b)%positive -> heap w b k = F32.zero) ->
    let w' := snd (TV_FGP_CPU Input Output lambda 1 epsil methodTV nonneg
                              printM dimX dimY dimZ w) in
    (dimZ <= 1 -> forall i j, 0 <= i < dimX -> 0 <= j < dimY ->
       heap w' Output (index2D dimX i j)
       = if nonneg =? 1 then clamp_value (heap w Input (index2D dimX i j))
         else heap w Input (index2D dimX i j))
    /\ (1 < dimZ -> forall i j k,
          0 <= i < dimX -> 0 <= j < dimY -> 0 <= k < dimZ ->
          heap w' Output (index3D dimX dimY i j k)
          = if nonneg =? 1
            then clamp_value (heap w Input (index3D dimX dimY i j k))
            else heap w Input (index3D dimX dimY i j k)).
Proof.
  intros. split; intros.
  - now apply single_iteration_2D.
  - now apply single_iteration_3D.
Qed.

Lemma X14_witness :
  let w := demo_world F32.zero
                      [F32.of_Z 1; F32.of_Z (-9); F32.of_Z 4; F32.of_Z 7] [] in
  (1 <> 2)%positive /\ (1 < nextblock w)%positive /\
  (2 < nextblock w)%positive /\
  is_finite two = true /\ sign_is false two /\
  (forall b k, (nextblock w <= b)%positive -> heap w b k = F32.zero) /\
  1 <= 1 /\ 0 <= 1 < 2 /\ 0 <= 0 < 2 /\
  heap (snd (TV_FGP_CPU 1 2 two 1 F32.zero 0 0 0 2 2 1 w)) 2%positive
       (index2D 2 1 0) = F32.of_Z (-9)
  /\ heap (snd (TV_FGP_CPU 1 2 two 1 F32.zero 0 1 0 2 2 1 w)) 2%positive
          (index2D 2 1 0) = F32.zero.
Proof.
  intros w.
  assert (N : (1 <> 2)%positive) by discriminate.
  assert (L1 : (1 < nextblock w)%positive) by reflexivity.
  assert (L2 : (2 < nextblock w)%positive) by reflexivity.
  assert (F : is_finite two = true) by reflexivity.
  assert (S : sign_is false two) by reflexivity.
  assert (Z0 : forall b k, (nextblock w <= b)%positive -> heap w b k = F32.zero).
  { intros b k Hb. cbn in Hb. unfold w, demo_world, mem_of_lists.
    cbn [heap find fst].
    destruct (Pos.eqb_spec 1 b) as [E | _]; [lia |].
    destruct (Pos.eqb_spec 2 b) as [E | _]; [lia | reflexivity]. }
  assert (Hz : 1 <= 1) by lia.
  assert (R1 : 0 <= 1 < 2) by lia.
  assert (R0 : 0 <= 0 < 2) by lia.
  split; [exact N | split; [exact L1 | split; [exact L2 | split; [exact F |
    split; [exact S | split; [exact Z0 | split; [exact Hz | split; [exact R1 |
    split; [exact R0 | split]]]]]]]]].
  - exact (proj1 (X14_single_iteration_returns_input 1 2 two F32.zero 0 0 0
                    2 2 1 w N L1 L2 F S Z0) Hz 1 0 R1 R0).
  - exact (proj1 (X14_single_iteration_returns_input 1 2 two F32.zero 0 1 0
                    2 2 1 w N L1 L2 F S Z0) Hz 1 0 R1 R0).
Defined.

(** X15 (a constant image is a fixed point, 2D): when the memory handed out
    by [malloc] holds zeros, the non-negativity switch is off, and
    [lambda], [1/(8 lambda)] and the momentum coefficients of the
    iterations are finite, a call on an image holding the finite value [c]
    at every grid position leaves [c] at every grid position of [Output],
    after every iteration and at return. *)
Theorem X15_constant_image_is_a_fixed_point :
  forall (Input Output : block) lambda iter epsil methodTV nonneg printM
         dimX dimY dimZ c (w : world),
    dimZ <= 1 -> 1 <= iter ->
    (Input < nextblock w)%positive -> (Output < nextblock w)%positive ->
    Input <> Output ->
    is_finite lambda = true ->
    is_finite (F32.one / (F32.eight * lambda))%f32 = true ->
    nonneg <> 1 ->
    (exists s m e, c = S754_finite s m e) ->
    coefs_finite (Z.to_nat iter) F32.one = true ->
    (forall b, (nextblock w <= b)%positive -> zero_block w b) ->
    const_on_grid w Input dimX dimY c ->
    Forall (fun r => const_on_grid (snd r) Output dimX dimY c)
           (iterations_of_call Input Output lambda iter epsil methodTV nonneg
                               dimX dimY dimZ w)
    /\ const_on_grid
         (snd (TV_FGP_CPU Input Output lambda iter epsil methodTV nonneg printM
                          dimX dimY dimZ w)) Output dimX dimY c.
Proof. intros. now apply constant_input_zeroed_memory. Qed.

Lemma X15_witness :
  let w := demo_world F32.zero [two; two; two; two; two; two] [] in
  1 <= 1 /\ 1 <= 40 /\ (1 < nextblock w)%positive /\
  (2 < nextblock w)%positive /\ (1 <> 2)%positive /\
  is_finite F32.half = true /\
  is_finite (F32.one / (F32.eight * F32.half))%f32 = true /\
  0 <> 1 /\ (exists s m e, two = S754_finite s m e) /\
  coefs_finite (Z.to_nat 40) F32.one = true /\
  (forall b, (nextblock w <= b)%positive -> zero_block w b) /\
  const_on_grid w 1 3 2 two /\
  const_on_grid
    (snd (TV_FGP_CPU 1 2 F32.half 40 F32.zero 1 0 0 3 2 1 w)) 2 3 2 two.
Proof.
  intros w.
  assert (Hz : 1 <= 1) by lia.
  assert (Hi : 1 <= 40) by lia.
  assert (L1 : (1 < nextblock w)%positive) by reflexivity.
  assert (L2 : (2 < nextblock w)%positive) by reflexivity.
  assert (N : (1 <> 2)%positive) by discriminate.
  assert (F1 : is_finite F32.half = true) by reflexivity.
  assert (F2 : is_finite (F32.one / (F32.eight * F32.half))%f32 = true)
    by reflexivity.
  assert (Nn : 0 <> 1) by discriminate.
  assert (Hc : exists s m e, two = S754_finite s m e)
    by (now exists false, 8388608%positive, (-22)).
  assert (Hk : coefs_finite (Z.to_nat 40) F32.one = true)
    by (vm_compute; reflexivity).
  assert (Z0 : forall b, (nextblock w <= b)%positive -> zero_block w b).
  { intros b Hb k. cbn in Hb. unfold w, demo_world, mem_of_lists.
    cbn [heap find fst].
    destruct (Pos.eqb_spec 1 b) as [E | _]; [lia |].
    destruct (Pos.eqb_spec 2 b) as [E | _]; [lia | reflexivity]. }
  assert (Cin : const_on_grid w 1 3 2 two).
  { intros i j Hi' Hj'.
    assert (Ei : i = 0 \/ i = 1 \/ i = 2) by lia.
    assert (Ej : j = 0 \/ j = 1) by lia.
    destruct Ei as [-> | [-> | ->]], Ej as [-> | ->]; reflexivity. }
  split; [exact Hz | split; [exact Hi | split; [exact L1 | split; [exact L2 |
    split; [exact N | split; [exact F1 | split; [exact F2 | split; [exact Nn |
    split; [exact Hc | split; [exact Hk | split; [exact Z0 |
    split; [exact Cin |]]]]]]]]]]]].
  exact (proj2 (X15_constant_image_is_a_fixed_point 1 2 F32.half 40 F32.zero
                  1 0 0 3 2 1 two w Hz Hi L1 L2 N F1 F2 Nn Hc Hk Z0 Cin)).
Defined.



(** X18 (the projection never flips a sign): at every grid position, each
    component that [Proj_func2D] / [Proj_func3D] leaves behind is a NaN or
    carries the sign bit the component had before the call, whichever
    selector is passed. *)
Theorem X18_projection_keeps_signs :
  (forall P1 P2 methTV dimX dimY w i j s1 s2,
      P1 <> P2 -> 0 <= i < dimX -> 0 <= j < dimY ->
      sign_is s1 (heap w P1 (index2D dimX i j)) ->
      sign_is s2 (heap w P2 (index2D dimX i j)) ->
      let w' := snd (Proj_func2D P1 P2 methTV dimX dimY w) in
      sign_is s1 (heap w' P1 (index2D dimX i j))
      /\ sign_is s2 (heap w' P2 (index2D dimX i j)))
  /\ (forall P1 P2 P3 methTV dimX dimY dimZ w i j k s1 s2 s3,
      P1 <> P2 -> P1 <> P3 -> P2 <> P3 ->
      0 <= i < dimX -> 0 <= j < dimY -> 0 <= k < dimZ ->
      sign_is s1 (heap w P1 (index3D dimX dimY i j k)) ->
      sign_is s2 (heap w P2 (index3D dimX dimY i j k)) ->
      sign_is s3 (heap w P3 (index3D dimX dimY i j k)) ->
      let w' := snd (Proj_func3D P1 P2 P3 methTV dimX dimY dimZ w) in
      sign_is s1 (heap w' P1 (index3D dimX dimY i j k))
      /\ sign_is s2 (heap w' P2 (index3D dimX dimY i j k))
      /\ sign_is s3 (heap w' P3 (index3D dimX dimY i j k))).
Proof.
  split; intros.
  - now apply Proj_func2D_signs.
  - now apply Proj_func3D_signs.
Qed.

Lemma X18_witness :
  let w := demo_world F32.zero [F32.of_Z (-7)] [F32.half] in
  let w' := snd (Proj_func2D 1 2 0 1 1 w) in
  (1 <> 2)%positive /\ 0 <= 0 < 1 /\
  sign_is true (heap w 1%positive (index2D 1 0 0)) /\
  sign_is false (heap w 2%positive (index2D 1 0 0)) /\
  sign_is true (heap w' 1%positive (index2D 1 0 0)) /\
  sign_is false (heap w' 2%positive (index2D 1 0 0)).
Proof.
  intros w w'.
  destruct X18_projection_keeps_signs as [H2 _].
  assert (N : (1 <> 2)%positive) by discriminate.
  assert (R0 : 0 <= 0 < 1) by lia.
  assert (S1 : sign_is true (heap w 1%positive (index2D 1 0 0)))
    by reflexivity.
  assert (S2 : sign_is false (heap w 2%positive (index2D 1 0 0)))
    by reflexivity.
  split; [exact N | split; [exact R0 | split; [exact S1 | split; [exact S2 |]]]].
  exact (H2 1%positive 2%positive 0 1 1 w 0 0 true false N R0 R0 S1 S2).
Defined.
